(** * playlist-transfer: the transfer engine and the platform adapters

    A shallow embedding of [src/lib/transfer.ts] (the engine,
    [transferPlaylist]) and of the [searchTrack] / [addTracks] methods of the
    four adapters under [src/lib/providers/], with the properties of the
    specification stated over them.

    Conventions of the embedding:
    - a JavaScript [number] that holds a count or an index is a [Z];
      [xs.length] is [Z.of_nat (length xs)];
    - [durationMs] is carried from the platform to the result and never
      computed on, except by the KKBox adapter, which turns seconds into
      milliseconds; it is a [Z] too;
    - a JavaScript [string] is a [string] (read as its UTF-8 bytes);
    - an optional field ([description?: string]) is an [option]; the
      truthiness test of JavaScript on it is [truthy] below;
    - an [async] function is a function of the state it runs in, returning
      what it resolved to ([Ok]) or what it rejected with ([Threw]) together
      with the state it leaves: a rejected call keeps its side effects. *)

From Stdlib Require Import ZArith Ascii DecimalString.
From stdpp Require Import base option list strings sets.
From Equations Require Import Equations.

Local Open Scope Z_scope.

(** ** JavaScript values used by the code *)

(** [`${n}`] for an integral number. *)
Definition show (n : Z) : string := NilZero.string_of_int (Z.to_int n).

(** [xs.length]. *)
Definition len {A} (xs : list A) : Z := Z.of_nat (length xs).

(** Truthiness of an optional string: [undefined] and [''] are falsy. *)
Definition truthy (s : option string) : bool :=
  match s with
  | Some s => negb (String.eqb s "")
  | None => false
  end.

(** [a || b] where [a] is an optional string and [b] a string. *)
Definition or_else (a : option string) (b : string) : string :=
  match a with
  | Some s => if String.eqb s "" then b else s
  | None => b
  end.

(** The double-quote character inside a template string. *)
Definition dquote : string := String "034"%char "".

(** What a rejected promise carries. *)
Inductive Exn :=
| Error (message : string)
| TypeError (message : string)
| SyntaxError (message : string).

Inductive Result (A : Type) :=
| Ok (a : A)
| Threw (e : Exn).
Arguments Ok {A} a.
Arguments Threw {A} e.

(** ** The state-and-exception monad of [async] code *)

Definition M (S A : Type) : Type := S → Result A * S.

#[global] Instance M_ret {S} : MRet (M S) := λ A a s, (Ok a, s).
#[global] Instance M_bind {S} : MBind (M S) := λ A B k m s,
  match m s with
  | (Ok a, s') => k a s'
  | (Threw e, s') => (Threw e, s')
  end.

Definition throw {S A} (e : Exn) : M S A := λ s, (Threw e, s).

(** Code that does not wait has no state to thread: it returns or throws. *)
#[global] Instance Result_ret : MRet Result := λ A a, Ok a.
#[global] Instance Result_bind : MBind Result := λ A B k r,
  match r with
  | Ok a => k a
  | Threw e => Threw e
  end.

(** Such code inside an [async] function. *)
Definition settled {S A} (r : Result A) : M S A := λ s, (r, s).

(** The [TypeError] of reading the member [name] of [x] when [x] is
    [nothing] ([undefined] or [null]); the text is the one of V8. *)
Definition unreadable (nothing name : string) : Exn :=
  TypeError ("Cannot read properties of " +:+ nothing +:+ " (reading '" +:+ name +:+ "')").

(** [x.name] is about to be read, where nothing guards [x]: [x] itself, or
    the error of reading from nothing. *)
Definition member {A} (nothing : string) (x : option A) (name : string) : Result A :=
  match x with
  | Some a => Ok a
  | None => Threw (unreadable nothing name)
  end.

(** ** Data model ([src/lib/types/index.ts]) *)

Module Track.
Record t := mk {
  id : string;
  name : string;
  artist : string;
  album : string;
  durationMs : Z;
  isrc : option string
}.
End Track.

Module Playlist.
Record t := mk {
  id : string;
  name : string;
  description : option string;
  trackCount : Z;
  tracks : list Track.t;
  imageUrl : option string
}.

(** [p.tracks = ts] and [p.trackCount = n] on the object [p]. *)
Definition set_tracks (ts : list Track.t) (p : t) : t :=
  mk (id p) (name p) (description p) (trackCount p) ts (imageUrl p).
Definition set_trackCount (n : Z) (p : t) : t :=
  mk (id p) (name p) (description p) n (tracks p) (imageUrl p).

#[global] Instance inhabited : Inhabited t :=
  populate (mk "" "" None 0 [] None).
End Playlist.

(** The value [addTracks] resolves to. *)
Module Counts.
Record t := mk { added : Z; failed : Z }.
End Counts.

Module TransferResult.
Record t := mk {
  sourcePlaylist : Playlist.t;
  targetPlaylistId : string;
  matched : list Track.t;
  unmatched : list Track.t;
  totalTracks : Z
}.
End TransferResult.

(** The members of [MusicProvider] that the engine uses, over the world [W]
    the adapters talk to. [getAuthUrl] and [handleCallback] are not called by
    the engine. *)
Module MusicProvider.
Record t (W : Type) := mk {
  name : string;
  getPlaylists : string → M W (list Playlist.t);
  getPlaylistTracks : string → string → M W (list Track.t);
  createPlaylist : string → string → option string → M W string;
  addTracks : string → string → list Track.t → M W Counts.t;
  searchTrack : string → Track.t → M W (option Track.t)
}.
Arguments mk {W}.
Arguments name {W}.
Arguments getPlaylists {W}.
Arguments getPlaylistTracks {W}.
Arguments createPlaylist {W}.
Arguments addTracks {W}.
Arguments searchTrack {W}.

(** The same adapter with another [addTracks]. *)
Definition with_addTracks {W} (add : string → string → list Track.t → M W Counts.t)
    (p : t W) : t W :=
  mk (name p) (getPlaylists p) (getPlaylistTracks p) (createPlaylist p) add
     (searchTrack p).
End MusicProvider.

(** ** The transfer engine ([src/lib/transfer.ts]) *)

Inductive Phase := fetching | reading | creating | matching | transferring | complete.

Module TransferProgress.
Record t := mk {
  phase : Phase;
  current : Z;
  total : Z;
  message : string
}.
End TransferProgress.

(** What the engine does that can be seen from outside: a progress event
    handed to [onProgress], or a method of one of the two adapters called,
    with its arguments and with what the call resolved to or rejected with. *)
Inductive Side := Source | Target.

Inductive Call :=
| GetPlaylists (token : string)
| GetPlaylistTracks (token playlistId : string)
| CreatePlaylist (token name : string) (description : option string)
| SearchTrack (token : string) (track : Track.t)
| AddTracks (token playlistId : string) (tracks : list Track.t).

Inductive Answer :=
| Playlists (ps : list Playlist.t)
| Tracks (ts : list Track.t)
| PlaylistId (id : string)
| Found (found : option Track.t)
| Counted (c : Counts.t)
| Rejected (e : Exn).

Inductive Event :=
| Progress (p : TransferProgress.t)
| Invoke (side : Side) (call : Call) (answer : Answer).

(** The source track of a search that found nothing. *)
Definition missed (r : Track.t * option Track.t) : option Track.t :=
  match r.2 with None => Some r.1 | Some _ => None end.

Module Engine.
Section Engine.
Context {W : Type}.

(** The state one invocation runs in: the world of the adapters, the
    playlist objects of the listing that [getPlaylists] resolved to (the
    array [playlists]; an object is named by its position, and every
    position holds an object of its own, as in all four adapters, which
    build each entry with an object literal), and the events so far. The
    adapters act on the world only: they keep no reference to the objects
    they returned. *)
Record State := mkState {
  world : W;
  playlists : list Playlist.t;
  trace : list Event
}.

Definition init (w : W) : State := mkState w [] [].

Definition emit (e : Event) : M State () := λ st,
  (Ok (), mkState (world st) (playlists st) (trace st ++ [e])).

(** Run an adapter method (or the progress callback) on the world. *)
Definition on_world {A} (m : M W A) : M State A := λ st,
  let '(r, w) := m (world st) in
  (r, mkState w (playlists st) (trace st)).

(** [await provider.method(args)], recorded with its answer. *)
Definition invoke {A} (side : Side) (call : Call) (answer : A → Answer)
    (m : M W A) : M State A := λ st,
  let '(r, w) := m (world st) in
  let a := match r with Ok a => answer a | Threw e => Rejected e end in
  (r, mkState w (playlists st) (trace st ++ [Invoke side call a])).

(** [const playlists = ...]: the engine now holds the listing. *)
Definition hold (ps : list Playlist.t) : M State () := λ st,
  (Ok (), mkState (world st) ps (trace st)).

(** [sourcePlaylist.f] and [sourcePlaylist.f = v], on the object at
    position [i] of the listing. *)
Definition field {A} (i : nat) (f : Playlist.t → A) : M State A := λ st,
  (Ok (f (playlists st !!! i)), st).
Definition assign (i : nat) (f : Playlist.t → Playlist.t) : M State () := λ st,
  (Ok (), mkState (world st) (<[i := f (playlists st !!! i)]> (playlists st)) (trace st)).

Variables sourceProvider targetProvider : MusicProvider.t W.
Variables sourceToken targetToken playlistId : string.
Variable onProgress : option (TransferProgress.t → M W ()).

(** [onProgress?.(p)] *)
Definition notify (p : TransferProgress.t) : M State () :=
  match onProgress with
  | Some callback => emit (Progress p);; on_world (callback p)
  | None => mret ()
  end.

(** The loop of step 4, entered at index [i] with [rest] the tracks
    [sourceTracks[i..]] still to match and [total = sourceTracks.length]. *)
Fixpoint matchTracks (total : Z) (i : Z) (rest matched unmatched : list Track.t)
    : M State (list Track.t * list Track.t) :=
  match rest with
  | [] => mret (matched, unmatched)
  | track :: rest =>
      notify (TransferProgress.mk matching (i + 1) total
                ("Matching: " +:+ Track.artist track +:+ " - " +:+ Track.name track));;
      found ← invoke Target (SearchTrack targetToken track) Found
                (MusicProvider.searchTrack targetProvider targetToken track);
      match found with
      | Some found => matchTracks total (i + 1) rest (matched ++ [found]) unmatched
      | None => matchTracks total (i + 1) rest matched (unmatched ++ [track])
      end
  end.

Definition transferPlaylist : M State TransferResult.t :=
  (* Step 1: fetch source playlist info *)
  notify (TransferProgress.mk fetching 0 0 "Fetching playlist details...");;
  listing ← invoke Source (GetPlaylists sourceToken) Playlists
              (MusicProvider.getPlaylists sourceProvider sourceToken);
  hold listing;;
  match list_find (λ p, Playlist.id p = playlistId) listing with
  | None => throw (Error ("Playlist " +:+ playlistId +:+ " not found"))
  | Some (sourcePlaylist, _) =>
      (* Step 2: get all tracks *)
      name ← field sourcePlaylist Playlist.name;
      notify (TransferProgress.mk reading 0 0
                ("Reading tracks from " +:+ dquote +:+ name +:+ dquote +:+ "..."));;
      sourceTracks ← invoke Source (GetPlaylistTracks sourceToken playlistId) Tracks
                       (MusicProvider.getPlaylistTracks sourceProvider sourceToken playlistId);
      assign sourcePlaylist (Playlist.set_tracks sourceTracks);;
      assign sourcePlaylist (Playlist.set_trackCount (len sourceTracks));;
      (* Step 3: create target playlist *)
      name ← field sourcePlaylist Playlist.name;
      notify (TransferProgress.mk creating 0 (len sourceTracks)
                ("Creating " +:+ dquote +:+ name +:+ dquote +:+ " on "
                 +:+ MusicProvider.name targetProvider +:+ "..."));;
      name ← field sourcePlaylist Playlist.name;
      description ← field sourcePlaylist Playlist.description;
      let description :=
        or_else description ("Transferred from " +:+ MusicProvider.name sourceProvider) in
      targetPlaylistId ← invoke Target (CreatePlaylist targetToken name (Some description))
                           PlaylistId
                           (MusicProvider.createPlaylist targetProvider targetToken name
                              (Some description));
      (* Step 4: match tracks on target platform *)
      '(matched, unmatched) ← matchTracks (len sourceTracks) 0 sourceTracks [] [];
      (* Step 5: add matched tracks to target playlist *)
      notify (TransferProgress.mk transferring 0 (len matched)
                ("Adding " +:+ show (len matched) +:+ " tracks..."));;
      result ← invoke Target (AddTracks targetToken targetPlaylistId matched) Counted
                 (MusicProvider.addTracks targetProvider targetToken targetPlaylistId matched);
      notify (TransferProgress.mk complete (len matched) (len sourceTracks)
                ("Done! " +:+ show (Counts.added result) +:+ " added, "
                 +:+ show (len unmatched) +:+ " unmatched."));;
      sourcePlaylist ← field sourcePlaylist id;
      mret (TransferResult.mk sourcePlaylist targetPlaylistId matched unmatched
              (len sourceTracks))
  end.

(** *** What a run leaves in the trace *)

(** What [onProgress?.(p)] adds to the trace, and what it does to the
    world. *)
Definition delivered (p : TransferProgress.t) : list Event :=
  match onProgress with Some _ => [Progress p] | None => [] end.

Definition heard (p : TransferProgress.t) : M W () :=
  match onProgress with Some callback => callback p | None => mret () end.

Definition fetchingEvent : TransferProgress.t :=
  TransferProgress.mk fetching 0 0 "Fetching playlist details...".
Definition readingEvent (name : string) : TransferProgress.t :=
  TransferProgress.mk reading 0 0
    ("Reading tracks from " +:+ dquote +:+ name +:+ dquote +:+ "...").
Definition creatingEvent (name : string) (total : Z) : TransferProgress.t :=
  TransferProgress.mk creating 0 total
    ("Creating " +:+ dquote +:+ name +:+ dquote +:+ " on "
     +:+ MusicProvider.name targetProvider +:+ "...").
Definition matchingEvent (total i : Z) (track : Track.t) : TransferProgress.t :=
  TransferProgress.mk matching (i + 1) total
    ("Matching: " +:+ Track.artist track +:+ " - " +:+ Track.name track).
Definition transferringEvent (matched : Z) : TransferProgress.t :=
  TransferProgress.mk transferring 0 matched ("Adding " +:+ show matched +:+ " tracks...").
Definition completeEvent (matched total added unmatched : Z) : TransferProgress.t :=
  TransferProgress.mk complete matched total
    ("Done! " +:+ show added +:+ " added, " +:+ show unmatched +:+ " unmatched.").

(** The description the target playlist is created with. *)
Definition descriptionFor (p : Playlist.t) : string :=
  or_else (Playlist.description p) ("Transferred from " +:+ MusicProvider.name sourceProvider).

(** The located playlist after step 2. *)
Definition updated (sourceTracks : list Track.t) (p : Playlist.t) : Playlist.t :=
  Playlist.set_trackCount (len sourceTracks) (Playlist.set_tracks sourceTracks p).

(** The events of the loop of step 4, for [results] the tracks matched
    from index [i] on, each with what [searchTrack] resolved to. *)
Fixpoint matchingEvents (total i : Z) (results : list (Track.t * option Track.t))
    : list Event :=
  match results with
  | [] => []
  | (track, found) :: results =>
      delivered (matchingEvent total i track)
      ++ [Invoke Target (SearchTrack targetToken track) (Found found)]
      ++ matchingEvents total (i + 1) results
  end.

(** The events of a run that returns. *)
Definition runEvents (listing : list Playlist.t) (p : Playlist.t) (targetPlaylistId : string)
    (results : list (Track.t * option Track.t)) (counts : Counts.t) : list Event :=
  let sourceTracks := results.*1 in
  let matched := omap snd results in
  delivered fetchingEvent
  ++ [Invoke Source (GetPlaylists sourceToken) (Playlists listing)]
  ++ delivered (readingEvent (Playlist.name p))
  ++ [Invoke Source (GetPlaylistTracks sourceToken playlistId) (Tracks sourceTracks)]
  ++ delivered (creatingEvent (Playlist.name p) (len sourceTracks))
  ++ [Invoke Target (CreatePlaylist targetToken (Playlist.name p) (Some (descriptionFor p)))
        (PlaylistId targetPlaylistId)]
  ++ matchingEvents (len sourceTracks) 0 results
  ++ delivered (transferringEvent (len matched))
  ++ [Invoke Target (AddTracks targetToken targetPlaylistId matched) (Counted counts)]
  ++ delivered (completeEvent (len matched) (len sourceTracks) (Counts.added counts)
                  (len (omap missed results))).
End Engine.

(** The progress events of a trace, in order. *)
Definition progress_of (evs : list Event) : list TransferProgress.t :=
  omap (λ e, match e with Progress p => Some p | _ => None end) evs.

(** The [searchTrack] calls on the target adapter that resolved, in order:
    the track searched for and what was found. *)
Definition searches (evs : list Event) : list (Track.t * option Track.t) :=
  omap (λ e, match e with
             | Invoke Target (SearchTrack _ track) (Found found) => Some (track, found)
             | _ => None
             end) evs.

(** The [createPlaylist] calls on the target adapter, in order: the token,
    the name and the description passed. *)
Definition created (evs : list Event) : list (string * string * option string) :=
  omap (λ e, match e with
             | Invoke Target (CreatePlaylist token name description) _ =>
                 Some (token, name, description)
             | _ => None
             end) evs.

(** A part of the engine that only adds to the trace, and adds no
    [createPlaylist] call. *)
Definition creates_nothing {W A} (m : M (@State W) A) : Prop :=
  ∀ st r st', m st = (r, st') → ∃ evs, trace st' = trace st ++ evs ∧ created evs = [].
End Engine.

(** ** The HTTP layer under the adapters *)

(** [encodeURIComponent]: every byte outside [A-Z a-z 0-9 - _ . ! ~ * ' ( )]
    becomes [%XX]. *)
Definition unreserved (c : ascii) : bool :=
  let n := N_of_ascii c in
  ((65 <=? n) && (n <=? 90) || (97 <=? n) && (n <=? 122) || (48 <=? n) && (n <=? 57)
   || bool_decide (c ∈ ["-"; "_"; "."; "!"; "~"; "*"; "'"; "("; ")"]%char))%N.

Definition hexdigit (n : N) : ascii :=
  (if n <? 10 then ascii_of_N (48 + n) else ascii_of_N (55 + n))%N.

Fixpoint encodeURIComponent (s : string) : string :=
  match s with
  | "" => ""
  | String c s =>
      let n := N_of_ascii c in
      (if unreserved c then String c ""
       else String "%" (String (hexdigit (n / 16)) (String (hexdigit (n mod 16)) "")))
      +:+ encodeURIComponent s
  end.

(** [String.prototype.trim]: the white space and line terminators of
    ECMAScript, as UTF-8. [strip] takes one of them off the front of [s] as
    long as there is one; each takes at least one byte, so the length of [s]
    is fuel enough. *)
Definition whitespace : list string :=
  let b := λ n : N, String (ascii_of_N n) "" in
  let e2 := λ m n : N, b 226%N +:+ b m +:+ b n in
  [b 9; b 10; b 11; b 12; b 13; b 32; b 194 +:+ b 160; b 225 +:+ b 154 +:+ b 128]%N
  ++ ((λ n, e2 128 (128 + n)) <$> [0; 1; 2; 3; 4; 5; 6; 7; 8; 9; 10])%N
  ++ [e2 128 168; e2 128 169; e2 128 175; e2 129 159;
      b 227 +:+ b 128 +:+ b 128; b 239 +:+ b 187 +:+ b 191]%N.

Fixpoint strip (ws : list string) (fuel : nat) (s : string) : string :=
  match fuel with
  | O => s
  | S fuel =>
      match list_find (λ w, String.prefix w s = true) ws with
      | Some (_, w) =>
          strip ws fuel
            (String.substring (String.length w) (String.length s - String.length w) s)
      | None => s
      end
  end.

Definition trim (s : string) : string :=
  let s := strip whitespace (String.length s) s in
  String.rev (strip (String.rev <$> whitespace) (String.length s) (String.rev s)).

Module Http.
Inductive Method := GET | POST.

(** A request body before it is serialized: [JSON.stringify] of an object
    of strings, arrays and objects, or a [URLSearchParams]. *)
#[local] Unset Elimination Schemes.
Inductive Json :=
| JString (s : string)
| JArray (xs : list Json)
| JObject (fields : list (string * Json)).
#[local] Set Elimination Schemes.

Inductive Payload :=
| AsJson (j : Json)
| AsForm (fields : list (string * string)).

Record Request := mkRequest {
  url : string;
  method : Method;
  headers : list (string * string);
  body : option Payload
}.

(** A response whose body decodes to a [B]; [json = None] is a body that
    is not JSON, on which [response.json()] rejects. *)
Record Response (B : Type) := mkResponse {
  ok : bool;
  status : Z;
  json : option B
}.
Arguments mkResponse {B}.
Arguments ok {B}.
Arguments status {B}.
Arguments json {B}.

Section Net.
(** The platform: its state [P] and how it answers a request. A [Threw]
    answer is [fetch] rejecting (the request did not get through). *)
Context {P B : Type}.
Variable respond : Request → M P (Response B).

(** The adapter's side: the platform, and the requests sent so far. *)
Record Net := mkNet {
  platform : P;
  sent : list Request
}.

Definition fetch (req : Request) : M Net (Response B) := λ n,
  let '(r, p) := respond req (platform n) in
  (r, mkNet p (sent n ++ [req])).

(** [response.json()], when it settles. *)
Definition parsed (response : Response B) : Result B :=
  match json response with
  | Some data => Ok data
  | None => Threw (SyntaxError "Unexpected token in JSON")
  end.

Definition decode (response : Response B) : M Net B := settled (parsed response).

(** A promise that is not awaited where it is made: how it settles is
    looked at later. *)
Definition attempt {A} (m : M Net A) : M Net (Result A) := λ n,
  let '(r, n') := m n in (Ok r, n').
End Net.
Arguments Net P : clear implicits.
Arguments mkNet {P}.
Arguments platform {P}.
Arguments sent {P}.

Definition bearer (token : string) : string * string :=
  ("Authorization", "Bearer " +:+ token).
Definition content_type (t : string) : string * string := ("Content-Type", t).
End Http.

(** ** The adapters ([src/lib/providers/]) *)

(** Each adapter reads a few members of the decoded body. The body is given
    the shape the adapter reads it at. A member is an [option] wherever the
    code guards it with [?.] or [||], and also wherever the code reads a
    member of it without a guard: there [None] makes the adapter throw the
    [TypeError] of reading from nothing. [None] is a member that is missing
    or [null]; for the body itself and for an element of an array, which JSON
    cannot leave out, it is [null]. A member that is only copied into the
    result has the type of the field it is copied to. A value of another
    kind where the code reads an object or an array (a number where it maps
    over an array) is not in the model. *)

Module SpotifyProvider.
Record Artist := mkArtist { artist_name : string }.
Record Album := mkAlbum { album_name : option string }.
Record ExternalIds := mkExternalIds { ext_isrc : option string }.
Record Item := mkItem {
  item_id : string;
  item_name : string;
  artists : option (list (option Artist));
  album : option Album;
  duration_ms : Z;
  external_ids : option ExternalIds
}.
Record Page := mkPage { items : option (list (option Item)) }.
Record Body := mkBody { tracks : option Page }.

(** [data.tracks?.items?.length > 0], and then [data.tracks.items[0]]. *)
Definition first_item (data : Body) : option (option Item) :=
  page ← tracks data; items ← items page; head items.

(** An entry of [data.items] in [getPlaylists], and the object literal that
    [getPlaylists] maps it to; [item.tracks.total] is read without a
    guard. *)
Record Image := mkImage { image_url : option string }.
Record Total := mkTotal { total : Z }.
Record PlaylistItem := mkPlaylistItem {
  pl_id : string;
  pl_name : string;
  pl_description : option string;
  pl_tracks : option Total;
  images : option (list Image)
}.

Definition toPlaylist (item : option PlaylistItem) : Result Playlist.t :=
  item ← member "null" item "id";
  tracks ← member "undefined" (pl_tracks item) "total";
  mret (Playlist.mk (pl_id item) (pl_name item)
          (Some (or_else (pl_description item) ""))
          (total tracks)
          []
          (images ← images item; image ← head images; image_url image)).

(** The object literal both branches of [searchTrack] return, for
    [t = data.tracks.items[0]]: [t.artists.map((a) => a.name)] reads
    [t.artists] and every [a] without a guard. *)
Definition toTrack (t : option Item) : Result Track.t :=
  t ← member "null" t "id";
  artists ← member "undefined" (artists t) "map";
  names ← mapM (λ a : option Artist, a ← member "null" a "name"; mret (artist_name a))
             artists;
  mret (Track.mk (item_id t) (item_name t)
          (String.concat ", " names)
          (or_else (album t ≫= album_name) "")
          (duration_ms t)
          (external_ids t ≫= ext_isrc)).

(** What a branch of [searchTrack] makes of the decoded body: the first
    hit, if there is one. *)
Definition found (data : option Body) : Result (option Track.t) :=
  data ← member "null" data "tracks";
  match first_item data with
  | Some t => t ← toTrack t; mret (Some t)
  | None => mret None
  end.

(** [await response.json()] and then the branch. *)
Definition received (response : Http.Response (option Body)) : Result (option Track.t) :=
  data ← Http.parsed response; found data.

(** Where a lookup of [Promise.all] stands when a round is over: it
    resolved; it rejected, [at_] the [fetch] of the first round (0), the
    body of its response (1), the [fetch] of the second round (2) or the
    body of that response (3); or the ISRC lookup had no hit and the text
    search is to follow. *)
Inductive Lookup :=
| Resolved (hit : option Track.t)
| Failed (at_ : nat) (e : Exn)
| Waiting.

(** The first lookup that rejected at [at_]. *)
Definition failedAt (at_ : nat) (lookups : list Lookup) : option Exn :=
  head (omap (λ lookup, match lookup with
                        | Failed k e => if decide (k = at_) then Some e else None
                        | _ => None
                        end) lookups).

(** What [Promise.all] rejects with: the rejection that comes first in
    time. *)
Definition rejection (lookups : list Lookup) : option Exn :=
  match failedAt 0 lookups, failedAt 1 lookups, failedAt 2 lookups, failedAt 3 lookups with
  | Some e, _, _, _ | None, Some e, _, _ | None, None, Some e, _
  | None, None, None, Some e => Some e
  | None, None, None, None => None
  end.

Definition hit_of (lookup : Lookup) : option Track.t :=
  match lookup with Resolved hit => hit | _ => None end.

Section SpotifyProvider.
Context {P : Type}.
Variable respond : Http.Request → M P (Http.Response (option Body)).
Local Abbreviation fetch := (Http.fetch respond).

Definition search (q token : string) : Http.Request :=
  Http.mkRequest ("https://api.spotify.com/v1/search?q=" +:+ q +:+ "&type=track&limit=1")
    Http.GET [Http.bearer token] None.

(** The two requests of [searchTrack]. *)
Definition byIsrc (token : string) (track : Track.t) : Http.Request :=
  search ("isrc:" +:+ default "" (Track.isrc track)) token.

Definition byText (token : string) (track : Track.t) : Http.Request :=
  let q := "track:" +:+ Track.name track +:+ " artist:" +:+ Track.artist track in
  search (encodeURIComponent q) token.

(** The name + artist search that [searchTrack] falls back to. *)
Definition searchByText (token : string) (track : Track.t) : M (Http.Net P) (option Track.t) :=
  response ← fetch (byText token track);
  data ← Http.decode response;
  settled (found data).

Definition searchTrack (token : string) (track : Track.t) : M (Http.Net P) (option Track.t) :=
  (* Try ISRC first (most accurate) *)
  if truthy (Track.isrc track) then
    response ← fetch (byIsrc token track);
    data ← Http.decode response;
    hit ← settled (found data);
    match hit with
    | Some t => mret (Some t)
    | None => searchByText token track
    end
  else searchByText token track.

Definition add (playlistId token : string) (batch : list string) : Http.Request :=
  Http.mkRequest ("https://api.spotify.com/v1/playlists/" +:+ playlistId +:+ "/tracks")
    Http.POST [Http.bearer token; Http.content_type "application/json"]
    (Some (Http.AsJson (Http.JObject [("uris", Http.JArray (Http.JString <$> batch))]))).

(** The loop [for (let i = 0; i < validUris.length; i += 100)], entered
    at index [i]. *)
Equations? addBatches (token playlistId : string) (validUris : list string)
    (i : nat) (added failed : Z) : M (Http.Net P) Counts.t
    by wf (length validUris - i)%nat lt :=
  addBatches token playlistId validUris i added failed with decide (i < length validUris)%nat => {
    | left _ =>
        let batch := take 100 (drop i validUris) in
        response ← fetch (add playlistId token batch);
        if Http.ok response
        then addBatches token playlistId validUris (i + 100) (added + len batch) failed
        else addBatches token playlistId validUris (i + 100) added (failed + len batch)
    | right _ => mret (Counts.mk added failed) }.
Proof. all: lia. Qed.

(** [Promise.all(tracks.map(async (track) => ...))]. The calls of
    [searchTrack] are all started before the first of them is awaited:
    each runs up to its first [await], that is, makes its first request,
    in the order of [tracks]. The promises of [fetch] are taken to
    settle in the order the requests were made, so the lookups go on in
    step: in the first round every one of them gets its answer and looks
    at it, in the second round those that found nothing for an ISRC
    make the text search. A lookup that rejects stops none of the
    others; [Promise.all] rejects with the rejection that came first. *)
Definition firstRound (token : string) (track : Track.t) : M (Http.Net P) Lookup :=
  let byIsrc_ := truthy (Track.isrc track) in
  r ← Http.attempt (fetch (if byIsrc_ then byIsrc token track else byText token track));
  mret match r with
       | Threw e => Failed 0 e
       | Ok response =>
           match received response with
           | Threw e => Failed 1 e
           | Ok (Some t) => Resolved (Some t)
           | Ok None => if byIsrc_ then Waiting else Resolved None
           end
       end.

Definition secondRound (token : string) (lookup : Track.t * Lookup)
    : M (Http.Net P) Lookup :=
  match lookup.2 with
  | Waiting =>
      r ← Http.attempt (fetch (byText token lookup.1));
      mret match r with
           | Threw e => Failed 2 e
           | Ok response =>
               match received response with
               | Threw e => Failed 3 e
               | Ok hit => Resolved hit
               end
           end
  | settled_ => mret settled_
  end.

Definition lookups (token : string) (tracks : list Track.t)
    : M (Http.Net P) (list (option Track.t)) :=
  first ← mapM (firstRound token) tracks;
  second ← mapM (secondRound token) (zip tracks first);
  match rejection second with
  | Some e => throw e
  | None => mret (hit_of <$> second)
  end.

Definition addTracks (token playlistId : string) (tracks : list Track.t)
    : M (Http.Net P) Counts.t :=
  (* First, resolve all tracks to Spotify URIs *)
  hits ← lookups token tracks;
  let uris := fmap (M := list) (fmap (M := option)
                (λ hit, "spotify:track:" +:+ Track.id hit)) hits in
  let validUris := omap id uris in
  let failed := len uris - len validUris in
  (* Batch add in groups of 100 *)
  addBatches token playlistId validUris 0 0 failed.
End SpotifyProvider.
End SpotifyProvider.

Module YouTubeMusicProvider.
Record ItemId := mkItemId { videoId : string }.
Record Item := mkItem { item_id : option ItemId }.
Record Body := mkBody { items : option (list (option Item)) }.

(** [data.items?.length > 0], and then [data.items[0]]. *)
Definition first_item (data : Body) : option (option Item) :=
  items ← items data; head items.

(** What [searchTrack] makes of the decoded body: [item.id.videoId] reads
    [item] and [item.id] without a guard. *)
Definition found (track : Track.t) (data : option Body) : Result (option Track.t) :=
  data ← member "null" data "items";
  match first_item data with
  | Some item =>
      item ← member "null" item "id";
      id ← member "undefined" (item_id item) "videoId";
      mret (Some (Track.mk (videoId id) (Track.name track) (Track.artist track) "" 0 None))
  | None => mret None
  end.

Section YouTubeMusicProvider.
Context {P : Type}.
Variable respond : Http.Request → M P (Http.Response (option Body)).
Local Abbreviation fetch := (Http.fetch respond).

Definition search (q token : string) : Http.Request :=
  Http.mkRequest ("https://www.googleapis.com/youtube/v3/search?part=snippet&q=" +:+ q
                  +:+ "&type=video&videoCategoryId=10&maxResults=1")
    Http.GET [Http.bearer token] None.

(** The request of [searchTrack]. *)
Definition byText (token : string) (track : Track.t) : Http.Request :=
  let q := if truthy (Some (Track.artist track))
           then Track.artist track +:+ " " +:+ Track.name track
           else Track.name track in
  search (encodeURIComponent q) token.

Definition searchTrack (token : string) (track : Track.t) : M (Http.Net P) (option Track.t) :=
  response ← fetch (byText token track);
  data ← Http.decode response;
  settled (found track data).

Definition add (playlistId token videoId : string) : Http.Request :=
  Http.mkRequest "https://www.googleapis.com/youtube/v3/playlistItems?part=snippet"
    Http.POST [Http.bearer token; Http.content_type "application/json"]
    (Some (Http.AsJson (Http.JObject
       [("snippet", Http.JObject
           [("playlistId", Http.JString playlistId);
            ("resourceId", Http.JObject [("videoId", Http.JString videoId);
                                         ("kind", Http.JString "youtube#video")])])]))).

(** The loop [for (const track of tracks)] with its two counters. *)
Fixpoint addEach (token playlistId : string) (tracks : list Track.t) (added failed : Z)
    : M (Http.Net P) Counts.t :=
  match tracks with
  | [] => mret (Counts.mk added failed)
  | track :: tracks =>
      found ← searchTrack token track;
      match found with
      | None => addEach token playlistId tracks added (failed + 1)
      | Some found =>
          response ← fetch (add playlistId token (Track.id found));
          if Http.ok response
          then addEach token playlistId tracks (added + 1) failed
          else addEach token playlistId tracks added (failed + 1)
      end
  end.

Definition addTracks (token playlistId : string) (tracks : list Track.t)
    : M (Http.Net P) Counts.t :=
  addEach token playlistId tracks 0 0.
End YouTubeMusicProvider.
End YouTubeMusicProvider.

Module KKBoxProvider.
Record Named := mkNamed { named_name : option string }.
Record Item := mkItem {
  item_id : string;
  title : option string;
  item_name : string;
  artist : option Named;
  album : option Named;
  duration : option Z;
  item_isrc : option string
}.
Record Page := mkPage { page_data : option (list (option Item)) }.
Record Body := mkBody { tracks : option Page }.

(** [tracks?.length > 0], and then [tracks[0]], for
    [tracks = data.tracks?.data]. *)
Definition first_item (data : Body) : option (option Item) :=
  page ← tracks data; tracks ← page_data page; head tracks.

(** [(result.duration || 0) * 1000]: a missing or zero duration is 0. *)
Definition toTrack (result : Item) : Track.t :=
  Track.mk (item_id result)
    (or_else (title result) (item_name result))
    (or_else (artist result ≫= named_name) "")
    (or_else (album result ≫= named_name) "")
    (default 0 (duration result) * 1000)
    (item_isrc result).

(** What [searchTrack] makes of the decoded body: [result.id] reads
    [result] without a guard. *)
Definition found (data : option Body) : Result (option Track.t) :=
  data ← member "null" data "tracks";
  match first_item data with
  | Some result => result ← member "null" result "id"; mret (Some (toTrack result))
  | None => mret None
  end.

Section KKBoxProvider.
Context {P : Type}.
Variable KKBOX_TERRITORY : string.
Variable respond : Http.Request → M P (Http.Response (option Body)).
Local Abbreviation fetch := (Http.fetch respond).

Definition search (query token : string) : Http.Request :=
  Http.mkRequest ("https://api.kkbox.com/v1.1/search?q=" +:+ query
                  +:+ "&type=track&territory=" +:+ KKBOX_TERRITORY +:+ "&limit=1")
    Http.GET [Http.bearer token] None.

(** The request of [searchTrack]. *)
Definition byText (token : string) (track : Track.t) : Http.Request :=
  let query := trim (Track.name track +:+ " " +:+ Track.artist track) in
  search (encodeURIComponent query) token.

Definition searchTrack (token : string) (track : Track.t) : M (Http.Net P) (option Track.t) :=
  response ← fetch (byText token track);
  if negb (Http.ok response) then mret None
  else
    data ← Http.decode response;
    settled (found data).

Definition add (playlistId token trackIds : string) : Http.Request :=
  Http.mkRequest ("https://api.kkbox.com/v1.1/playlists/" +:+ playlistId +:+ "/tracks")
    Http.POST [Http.bearer token; Http.content_type "application/x-www-form-urlencoded"]
    (Some (Http.AsForm [("ids", trackIds)])).

(** The first loop of [addTracks]: resolve tracks to KKBox ids. *)
Fixpoint resolve (token : string) (tracks resolvedTracks : list Track.t) (failed : Z)
    : M (Http.Net P) (list Track.t * Z) :=
  match tracks with
  | [] => mret (resolvedTracks, failed)
  | track :: tracks =>
      found ← searchTrack token track;
      match found with
      | Some found => resolve token tracks (resolvedTracks ++ [found]) failed
      | None => resolve token tracks resolvedTracks (failed + 1)
      end
  end.

Definition addTracks (token playlistId : string) (tracks : list Track.t)
    : M (Http.Net P) Counts.t :=
  '(resolvedTracks, failed) ← resolve token tracks [] 0;
  if bool_decide (len resolvedTracks > 0) then
    let trackIds := String.concat "," (Track.id <$> resolvedTracks) in
    response ← fetch (add playlistId token trackIds);
    if Http.ok response
    then mret (Counts.mk (len resolvedTracks) failed)
    else mret (Counts.mk 0 (failed + len resolvedTracks))
  else mret (Counts.mk 0 failed).
End KKBoxProvider.
End KKBoxProvider.

Module AppleMusicProvider.
Record Attributes := mkAttributes {
  attr_name : string;
  artistName : string;
  albumName : option string;
  durationInMillis : Z;
  attr_isrc : option string
}.
Record Song := mkSong { song_id : string; attributes : option Attributes }.
Record Songs := mkSongs { songs_data : option (list (option Song)) }.
Record Results := mkResults { songs : option Songs }.
(** The ISRC filter answers with [data], the text search with [results]. *)
Record Body := mkBody { data : option (list (option Song)); results : option Results }.

Definition APPLE_API_BASE : string := "https://api.music.apple.com/v1".

(** [data.data?.length > 0], and then [data.data[0]]. *)
Definition first_by_isrc (body : Body) : option (option Song) :=
  songs ← data body; head songs.

(** [songs?.length > 0], and then [songs[0]], for
    [songs = data.results?.songs?.data]. *)
Definition first_by_text (body : Body) : option (option Song) :=
  results ← results body; page ← songs results; songs ← songs_data page; head songs.

(** The object literal both branches return: [song.attributes.name] reads
    [song] and [song.attributes] without a guard. *)
Definition toTrack (song : option Song) : Result Track.t :=
  song ← member "null" song "id";
  attributes ← member "undefined" (attributes song) "name";
  mret (Track.mk (song_id song)
          (attr_name attributes)
          (artistName attributes)
          (or_else (albumName attributes) "")
          (durationInMillis attributes)
          (attr_isrc attributes)).

(** What the two branches of [searchTrack] make of the decoded body. *)
Definition foundByIsrc (body : option Body) : Result (option Track.t) :=
  body ← member "null" body "data";
  match first_by_isrc body with
  | Some song => song ← toTrack song; mret (Some song)
  | None => mret None
  end.

Definition foundByText (body : option Body) : Result (option Track.t) :=
  body ← member "null" body "results";
  match first_by_text body with
  | Some song => song ← toTrack song; mret (Some song)
  | None => mret None
  end.

Section AppleMusicProvider.
Context {P : Type}.
(** [generateDeveloperToken()]: signs a token with the clock and the key
    of the process; what it returns, or throws, is the platform's. *)
Variable generateDeveloperToken : M P string.
Variable respond : Http.Request → M P (Http.Response (option Body)).
Local Abbreviation fetch := (Http.fetch respond).

Definition getHeaders (userToken : string) : M (Http.Net P) (list (string * string)) := λ n,
  let '(r, p) := generateDeveloperToken (Http.platform n) in
  (match r with
   | Ok developerToken =>
       Ok [Http.bearer developerToken; ("Music-User-Token", userToken);
           Http.content_type "application/json"]
   | Threw e => Threw e
   end, Http.mkNet p (Http.sent n)).

Definition byIsrc (isrc : string) (headers : list (string * string)) : Http.Request :=
  Http.mkRequest (APPLE_API_BASE +:+ "/catalog/us/songs?filter[isrc]=" +:+ isrc)
    Http.GET headers None.

Definition byText (q : string) (headers : list (string * string)) : Http.Request :=
  Http.mkRequest (APPLE_API_BASE +:+ "/catalog/us/search?term=" +:+ q +:+ "&types=songs&limit=1")
    Http.GET headers None.

(** The request of the text search for a track. *)
Definition textSearch (headers : list (string * string)) (track : Track.t)
    : Http.Request :=
  let q := Track.artist track +:+ " " +:+ Track.name track in
  byText (encodeURIComponent q) headers.

(** The text search that [searchTrack] falls back to. *)
Definition searchByText (headers : list (string * string)) (track : Track.t)
    : M (Http.Net P) (option Track.t) :=
  response ← fetch (textSearch headers track);
  if negb (Http.ok response) then mret None
  else
    data ← Http.decode response;
    settled (foundByText data).

Definition searchTrack (token : string) (track : Track.t) : M (Http.Net P) (option Track.t) :=
  headers ← getHeaders token;
  (* Try ISRC first *)
  if truthy (Track.isrc track) then
    response ← fetch (byIsrc (default "" (Track.isrc track)) headers);
    if Http.ok response then
      data ← Http.decode response;
      hit ← settled (foundByIsrc data);
      match hit with
      | Some song => mret (Some song)
      | None => searchByText headers track
      end
    else searchByText headers track
  else searchByText headers track.

Definition add (playlistId : string) (headers : list (string * string))
    (resolvedTracks : list Track.t) : Http.Request :=
  Http.mkRequest (APPLE_API_BASE +:+ "/me/library/playlists/" +:+ playlistId +:+ "/tracks")
    Http.POST headers
    (Some (Http.AsJson (Http.JObject
       [("data", Http.JArray
           ((λ t, Http.JObject [("id", Http.JString (Track.id t));
                                ("type", Http.JString "songs")]) <$> resolvedTracks))]))).

(** The first loop of [addTracks]: resolve tracks to catalog ids. *)
Fixpoint resolve (token : string) (tracks resolvedTracks : list Track.t) (failed : Z)
    : M (Http.Net P) (list Track.t * Z) :=
  match tracks with
  | [] => mret (resolvedTracks, failed)
  | track :: tracks =>
      found ← searchTrack token track;
      match found with
      | Some found => resolve token tracks (resolvedTracks ++ [found]) failed
      | None => resolve token tracks resolvedTracks (failed + 1)
      end
  end.

Definition addTracks (token playlistId : string) (tracks : list Track.t)
    : M (Http.Net P) Counts.t :=
  '(resolvedTracks, failed) ← resolve token tracks [] 0;
  if bool_decide (len resolvedTracks > 0) then
    headers ← getHeaders token;
    response ← fetch (add playlistId headers resolvedTracks);
    if Http.ok response
    then mret (Counts.mk (len resolvedTracks) failed)
    else mret (Counts.mk 0 (failed + len resolvedTracks))
  else mret (Counts.mk 0 failed).
End AppleMusicProvider.
End AppleMusicProvider.

(** ** What the properties of the adapters speak of *)

(** The transport failed with [e]: [fetch] rejected with it, or the body of
    a response was not JSON when it was decoded. *)
Definition transport_failure {P B} (respond : Http.Request → M P (Http.Response B))
    (e : Exn) : Prop :=
  ∃ req p p',
    respond req p = (Threw e, p') ∨
    ∃ response, respond req p = (Ok response, p') ∧ Http.json response = None
                ∧ e = SyntaxError "Unexpected token in JSON".

(** The platform answered with a body that decodes and that the adapter
    cannot read: [reading] the decoded body throws [e]. *)
Definition unreadable_body {P B A} (respond : Http.Request → M P (Http.Response B))
    (reading : B → Result A → Prop) (e : Exn) : Prop :=
  ∃ req p response p' data,
    respond req p = (Ok response, p') ∧ Http.json response = Some data ∧
    reading data (Threw e).

(** The same two, for a call that left the state [n']: the request they
    speak of is the last one the call sent, and the platform is left as the
    answer to it left it. *)
Definition failed_at {P B} (respond : Http.Request → M P (Http.Response B))
    (n' : Http.Net P) (e : Exn) : Prop :=
  ∃ req p,
    last (Http.sent n') = Some req ∧
    (respond req p = (Threw e, Http.platform n') ∨
     ∃ response, respond req p = (Ok response, Http.platform n') ∧
                 Http.json response = None ∧ e = SyntaxError "Unexpected token in JSON").

Definition unreadable_at {P B A} (respond : Http.Request → M P (Http.Response B))
    (reading : B → Result A → Prop) (n' : Http.Net P) (e : Exn) : Prop :=
  ∃ req p response data,
    last (Http.sent n') = Some req ∧
    respond req p = (Ok response, Http.platform n') ∧
    Http.json response = Some data ∧
    reading data (Threw e).





(** The counts [addTracks] resolves to: every input track is in one of them. *)
Definition counts_add_up {S} (addTracks : string → string → list Track.t → M S Counts.t)
    : Prop :=
  ∀ token playlistId tracks s counts s',
    addTracks token playlistId tracks s = (Ok counts, s') →
    0 ≤ Counts.added counts ∧ 0 ≤ Counts.failed counts ∧
    Counts.added counts + Counts.failed counts = len tracks.

(** On the empty list [addTracks] resolves to [{added: 0, failed: 0}] and
    leaves the platform and the list of requests sent as they were. *)
Definition adds_nothing_on_empty {S} (addTracks : string → string → list Track.t → M S Counts.t)
    : Prop :=
  ∀ token playlistId s, addTracks token playlistId [] s = (Ok (Counts.mk 0 0), s).

(** ** A scenario: three tracks, two of them on the target platform *)

Module Scenario.
Definition alpha : Track.t :=
  Track.mk "s1" "Alpha" "Ann" "First" 181000 (Some "USRC17607839").
Definition beta : Track.t :=
  Track.mk "s2" "Beta" "Bob" "Second" 202000 None.
Definition gamma : Track.t :=
  Track.mk "s3" "Gamma" "Cy" "Third" 223000 (Some "GBAYE0601498").

(** The listing of the source: the first playlist is what the Spotify
    adapter builds from [untitled], an item without a description. *)
Definition untitled : SpotifyProvider.PlaylistItem :=
  SpotifyProvider.mkPlaylistItem "p0" "Mixtape" None (Some (SpotifyProvider.mkTotal 3)) None.
Definition mixtape : Playlist.t :=
  Playlist.mk "p0" "Mixtape" (Some "") 3 [] None.
Definition roadtrip : Playlist.t :=
  Playlist.mk "p1" "Road trip" (Some "For the car") 7 [] (Some "https://img.example/p1").

(** The world counts the playlists created on the target. *)
Definition source : MusicProvider.t nat :=
  MusicProvider.mk "Spotify"
    (λ _, mret [mixtape; roadtrip])
    (λ _ _, mret [alpha; beta; gamma])
    (λ _ _ _, throw (Error "read only"))
    (λ _ _ _, throw (Error "read only"))
    (λ _ _, mret None).

Definition onTarget (t : Track.t) : Track.t :=
  Track.mk ("k-" +:+ Track.id t) (Track.name t) (Track.artist t) (Track.album t)
    (Track.durationMs t) (Track.isrc t).

Definition target : MusicProvider.t nat :=
  MusicProvider.mk "KKBox"
    (λ _, mret [])
    (λ _ _, mret [])
    (λ _ _ _ created, (Ok ("new-" +:+ show (Z.of_nat created)), S created))
    (λ _ _ tracks, mret (Counts.mk (len tracks) 0))
    (λ _ t, mret (if String.eqb (Track.name t) "Beta" then None else Some (onTarget t))).

(** A bulk add that fails for every track. *)
Definition rejectAll : string → string → list Track.t → M nat Counts.t :=
  λ _ _ tracks, mret (Counts.mk 0 (len tracks)).

Definition quiet : TransferProgress.t → M nat () := λ _, mret ().

Abbreviation run target playlistId :=
  (Engine.transferPlaylist source target "source-token" "target-token" playlistId
     (Some quiet) (Engine.init 0%nat)).

(** Platforms for the adapters. Each has two recordings of a song: the one
    with the ISRC asked for, which a request that names this ISRC gets, and
    another one, which every other search gets. A request to add tracks is
    accepted. *)
Definition asked : Track.t :=
  Track.mk "s9" "Song" "Band" "Album" 200000 (Some "USRC17607839").

Definition names_isrc (req : Http.Request) : bool :=
  bool_decide (is_Some (String.index 0 "USRC17607839" (Http.url req))).

Definition answer {B} (exact other : B) : Http.Request → M () (Http.Response B) := λ req,
  match Http.method req with
  | Http.GET =>
      mret (Http.mkResponse true 200 (Some (if names_isrc req then exact else other)))
  | Http.POST => mret (Http.mkResponse true 201 None)
  end.

(** A platform that answers every request with status 500 and a body
    that is not JSON. *)
Definition down {B} : Http.Request → M () (Http.Response B) := λ _,
  mret (Http.mkResponse false 500 None).


Definition start : Http.Net () := Http.mkNet () [].

Definition spotifyItem (id isrc : string) : option SpotifyProvider.Body :=
  Some (SpotifyProvider.mkBody (Some (SpotifyProvider.mkPage (Some
    [Some (SpotifyProvider.mkItem id "Song" (Some [Some (SpotifyProvider.mkArtist "Band")])
             (Some (SpotifyProvider.mkAlbum (Some "Album")))
             200000 (Some (SpotifyProvider.mkExternalIds (Some isrc))))])))).
Definition spotify :=
  answer (spotifyItem "exact" "USRC17607839") (spotifyItem "cover" "GBAAA0000001").

Definition youtubeItem (id : string) : option YouTubeMusicProvider.Body :=
  Some (YouTubeMusicProvider.mkBody
    (Some [Some (YouTubeMusicProvider.mkItem (Some (YouTubeMusicProvider.mkItemId id)))])).
Definition youtube := answer (youtubeItem "exact") (youtubeItem "cover").

Definition kkboxItem (id isrc : string) : option KKBoxProvider.Body :=
  Some (KKBoxProvider.mkBody (Some (KKBoxProvider.mkPage (Some
    [Some (KKBoxProvider.mkItem id None "Song" (Some (KKBoxProvider.mkNamed (Some "Band")))
             (Some (KKBoxProvider.mkNamed (Some "Album"))) (Some 200) (Some isrc))])))).
Definition kkbox :=
  answer (kkboxItem "exact" "USRC17607839") (kkboxItem "cover" "GBAAA0000001").


Definition appleSong (id isrc : string) : option AppleMusicProvider.Song :=
  Some (AppleMusicProvider.mkSong id
    (Some (AppleMusicProvider.mkAttributes "Song" "Band" (Some "Album") 200000 (Some isrc)))).
Definition apple :=
  answer (Some (AppleMusicProvider.mkBody (Some [appleSong "exact" "USRC17607839"]) None))
         (Some (AppleMusicProvider.mkBody None
            (Some (AppleMusicProvider.mkResults (Some (AppleMusicProvider.mkSongs
               (Some [appleSong "cover" "GBAAA0000001"]))))))).


Definition developerToken : M () string := mret "developer-token".
End Scenario.

From Stdlib Require DecimalZ.

(** ** Reading the adapter calls off a trace *)

(** The methods called on the two adapters, in order, without what they
    answered; and with it. *)
Definition calls (evs : list Event) : list (Side * Call) :=
  omap (λ e, match e with Invoke side call _ => Some (side, call) | Progress _ => None end) evs.

Definition invocations (evs : list Event) : list (Side * Call * Answer) :=
  omap (λ e, match e with
             | Invoke side call answer => Some (side, call, answer)
             | Progress _ => None
             end) evs.

(** The adapter calls of a trace that rejected, each with the error. *)
Definition rejected (evs : list Event) : list (Side * Call * Exn) :=
  omap (λ e, match e with
             | Invoke side call (Rejected e) => Some (side, call, e)
             | _ => None
             end) evs.

(** The events of a trace that are adapter calls. *)
Definition is_call (e : Event) : bool :=
  match e with Invoke _ _ _ => true | Progress _ => false end.

(** How a run that rejects with [e] came to its end, leaving the world
    [w']: the callback threw [e] on the progress event it was handed, or a
    call of an adapter rejected with [e]. [stop] is the last event of the
    trace, [next] the event a run that goes on has at this place. *)
Inductive Stopped {W} (onProgress : option (TransferProgress.t → M W ())) (e : Exn) (w' : W)
    : Event → Event → Prop :=
| callback_threw callback p w :
    onProgress = Some callback → callback p w = (Threw e, w') →
    Stopped onProgress e w' (Progress p) (Progress p)
| call_rejected side call answer :
    Stopped onProgress e w' (Invoke side call (Rejected e)) (Invoke side call answer).

(** The state of a run without the progress events of its trace. *)
Definition unobserved {W} (st : @Engine.State W) : @Engine.State W :=
  Engine.mkState (Engine.world st) (Engine.playlists st) (filter is_call (Engine.trace st)).

(** [m'] does on a state without progress events what [m] does on the state
    with them. *)
Definition unseen {W A} (m m' : M (@Engine.State W) A) : Prop :=
  ∀ st, m' (unobserved st) = ((m st).1, unobserved (m st).2).

(** The calls a run makes from start to end, for the playlist located, the
    tracks read, the id of the playlist created and the tracks found. *)
Definition protocol (sourceToken targetToken playlistId name : string)
    (description : option string) (sourceTracks : list Track.t) (targetPlaylistId : string)
    (matched : list Track.t) : list (Side * Call) :=
  [(Source, GetPlaylists sourceToken);
   (Source, GetPlaylistTracks sourceToken playlistId);
   (Target, CreatePlaylist targetToken name description)]
  ++ ((λ track, (Target, SearchTrack targetToken track)) <$> sourceTracks)
  ++ [(Target, AddTracks targetToken targetPlaylistId matched)].

(** The same calls, each with what it resolved to: the listing, the tracks
    read, the id of the playlist created, what each search found and the
    counts. [results] pairs each source track with what was found for it. *)
Definition conversation (sourceToken targetToken playlistId : string)
    (listing : list Playlist.t) (name : string) (description : option string)
    (results : list (Track.t * option Track.t)) (targetPlaylistId : string)
    (counts : Counts.t) : list (Side * Call * Answer) :=
  [(Source, GetPlaylists sourceToken, Playlists listing);
   (Source, GetPlaylistTracks sourceToken playlistId, Tracks results.*1);
   (Target, CreatePlaylist targetToken name description, PlaylistId targetPlaylistId)]
  ++ ((λ r, (Target, SearchTrack targetToken r.1, Found r.2)) <$> results)
  ++ [(Target, AddTracks targetToken targetPlaylistId (omap snd results), Counted counts)].

(** A target on which the search for the third track of the scenario is
    rejected. *)
Module Outage.
Definition limited : Exn := Error "rate limited".

Definition target : MusicProvider.t nat :=
  MusicProvider.mk "KKBox"
    (MusicProvider.getPlaylists Scenario.target)
    (MusicProvider.getPlaylistTracks Scenario.target)
    (MusicProvider.createPlaylist Scenario.target)
    (MusicProvider.addTracks Scenario.target)
    (λ token t, if String.eqb (Track.name t) "Gamma" then throw limited
                else MusicProvider.searchTrack Scenario.target token t).

(** The scenario without a progress callback. *)
Abbreviation unheard target playlistId :=
  (Engine.transferPlaylist Scenario.source target "source-token" "target-token" playlistId
     None (Engine.init 0%nat)).
End Outage.

(** ** Reading the requests an adapter sent *)

(** A request that only reads: a [GET] without a body. *)
Definition lookup (req : Http.Request) : Prop :=
  Http.method req = Http.GET ∧ Http.body req = None.

Definition is_post (req : Http.Request) : bool :=
  match Http.method req with Http.POST => true | Http.GET => false end.

(** Whatever its outcome, [m] sends at most [most] requests, and all of them
    only read. *)
Definition reads {P A} (most : nat) (m : M (Http.Net P) A) : Prop :=
  ∀ n r n', m n = (r, n') →
    ∃ reqs, Http.sent n' = Http.sent n ++ reqs ∧ Forall lookup reqs ∧ (length reqs ≤ most)%nat.

Definition only_reads {P} (most : nat)
    (searchTrack : string → Track.t → M (Http.Net P) (option Track.t)) : Prop :=
  ∀ token track, reads most (searchTrack token track).


(** A lookup of the Spotify adapter that is to go on with the text search. *)
Definition awaits_text (lookup : SpotifyProvider.Lookup) : bool :=
  match lookup with SpotifyProvider.Waiting => true | _ => false end.

(** A run of [addTracks] of the YouTube Music adapter that resolves, told
    track by track: from state [n] it sends [reqs], counts [added] and
    [failed], and leaves state [n']. A track is searched for; if it is not
    found it is counted as failed; if it is found, the request that adds
    what was found is sent next, and the track is counted by the status of
    the answer. *)
Inductive OneByOne {P}
    (respond : Http.Request → M P (Http.Response (option YouTubeMusicProvider.Body)))
    (token playlistId : string)
    : list Track.t → Http.Net P → list Http.Request → Z → Z → Http.Net P → Prop :=
| all_done n : OneByOne respond token playlistId [] n [] 0 0 n
| not_found track tracks n n1 reqs added failed n' :
    YouTubeMusicProvider.searchTrack respond token track n = (Ok None, n1) →
    OneByOne respond token playlistId tracks n1 reqs added failed n' →
    OneByOne respond token playlistId (track :: tracks) n
      (YouTubeMusicProvider.byText token track :: reqs) added (failed + 1) n'
| found_and_added track tracks n found n1 response p2 reqs added failed n' :
    YouTubeMusicProvider.searchTrack respond token track n = (Ok (Some found), n1) →
    respond (YouTubeMusicProvider.add playlistId token (Track.id found)) (Http.platform n1)
      = (Ok response, p2) →
    OneByOne respond token playlistId tracks
      (Http.mkNet p2
         (Http.sent n1 ++ [YouTubeMusicProvider.add playlistId token (Track.id found)]))
      reqs added failed n' →
    OneByOne respond token playlistId (track :: tracks) n
      (YouTubeMusicProvider.byText token track
       :: YouTubeMusicProvider.add playlistId token (Track.id found) :: reqs)
      (if Http.ok response then added + 1 else added)
      (if Http.ok response then failed else failed + 1) n'.

(** [addTracks] adds with one request. When it resolves, it has called
    [searchTrack] for every track, in order, each call from the state the
    one before left; the calls sent [lookups], which only read. The tracks
    that resolved are what the calls found. If there are none, nothing else
    is sent and all tracks are counted as failed. Otherwise one more request
    is sent, [bulk] for the tracks that resolved, and by the status of its
    answer the tracks that resolved are counted as added all together, or
    all tracks as failed. *)
Definition adds_in_bulk {P B} (respond : Http.Request → M P (Http.Response B))
    (searchTrack : string → Track.t → M (Http.Net P) (option Track.t))
    (bulk : string → string → list Track.t → Http.Request → Prop)
    (addTracks : string → string → list Track.t → M (Http.Net P) Counts.t) : Prop :=
  ∀ token playlistId tracks n counts n',
    addTracks token playlistId tracks n = (Ok counts, n') →
    ∃ hits n1 lookups,
      mapM (searchTrack token) tracks n = (Ok hits, n1) ∧
      Http.sent n1 = Http.sent n ++ lookups ∧ Forall lookup lookups ∧
      let resolvedTracks := omap id hits in
      match resolvedTracks with
      | [] => n' = n1 ∧ counts = Counts.mk 0 (len tracks)
      | _ =>
          ∃ req p response,
            bulk token playlistId resolvedTracks req ∧
            Http.sent n' = Http.sent n1 ++ [req] ∧
            respond req p = (Ok response, Http.platform n') ∧
            counts = if Http.ok response
                     then Counts.mk (len resolvedTracks) (len tracks - len resolvedTracks)
                     else Counts.mk 0 (len tracks)
      end.

(** A playlist of 150 recordings of the song asked for. *)
Definition long_playlist : list Track.t := replicate 150 Scenario.asked.

(** ** The file-level functions of the adapters *)

(** *** [parseDuration] ([src/lib/providers/youtube.ts]) *)

Module Duration.
(** [\d]: one of the ten ASCII digits, as the digit it stands for. *)
Definition digit (c : ascii) : option (Decimal.uint → Decimal.uint) :=
  match c with
  | "0" => Some Decimal.D0 | "1" => Some Decimal.D1 | "2" => Some Decimal.D2
  | "3" => Some Decimal.D3 | "4" => Some Decimal.D4 | "5" => Some Decimal.D5
  | "6" => Some Decimal.D6 | "7" => Some Decimal.D7 | "8" => Some Decimal.D8
  | "9" => Some Decimal.D9 | _ => None
  end%char.

(** The digits [s] starts with, and what follows them: as a string, which
    is what [(\d+)] captures when there is one digit at least, and as a
    decimal number. *)
Fixpoint digits (s : string) : string * string :=
  match s with
  | String c s' =>
      if bool_decide (is_Some (digit c))
      then let '(ds, rest) := digits s' in (String c ds, rest)
      else ("", s)
  | "" => ("", "")
  end.

Fixpoint numeral (s : string) : Decimal.uint :=
  match s with
  | String c s' =>
      match digit c with
      | Some d => d (numeral s')
      | None => Decimal.Nil
      end
  | "" => Decimal.Nil
  end.

(** A JavaScript number is an IEEE 754 double. The numbers of
    [parseDuration] are integers that are not negative; [double n] is the
    double nearest to the integer [n]: [n] itself when 53 bits hold it,
    and otherwise [n] rounded to 53 significant bits, to the nearest, and
    to the even one of two that are equally near. From 2^1024 on (a
    component of more than 308 digits) JavaScript has [Infinity], which
    no integer stands for: there [double] still rounds, and nothing is
    said of such a duration. *)
Definition double (n : Z) : Z :=
  let e := Z.log2 n - 52 in
  if e <=? 0 then n
  else
    let q := Z.shiftr n e in
    let r := n mod 2 ^ e in
    let half := 2 ^ (e - 1) in
    let up := (half <? r) || ((r =? half) && Z.odd q) in
    (if up then q + 1 else q) * 2 ^ e.

(** [a * b] and [a + b] on numbers: the exact result, rounded. *)
Definition mul (a b : Z) : Z := double (a * b).
Definition add (a b : Z) : Z := double (a + b).

(** [parseInt(s, 10)] for a string that starts with a digit, as all the
    strings are that [parseDuration] passes: the number value of the
    integer its leading digits write. (The standard lets an implementation
    replace by 0 every digit after the twentieth significant one; the
    model rounds the numeral as it is written.) *)
Definition parseInt (s : string) : Z := double (Z.of_uint (numeral s)).

(** A letter of the pattern under the flag [i]: the letter itself, which is
    written in upper case, or its lower case. *)
Definition letter (l c : ascii) : bool :=
  Ascii.eqb c l || Ascii.eqb c (ascii_of_N (N_of_ascii l + 32)).

(** [(?:(\d+)L)?] at the front of [s]: the digits captured, if the group
    matches, and what is left of [s]. The group matches exactly when [s]
    starts with one digit or more followed by the letter: [\d+] can give
    back digits, but what then follows is a digit, not the letter. *)
Definition group (l : ascii) (s : string) : option string * string :=
  match digits s with
  | (String d ds, String c rest) =>
      if letter l c then (Some (String d ds), rest) else (None, s)
  | _ => (None, s)
  end.

(** [duration.match(/^PT(?:(\d+)H)?(?:(\d+)M)?(?:(\d+)S)?$/i)]: the three
    captures, or [None] for no match. A group that matched leaves nothing
    that a later group or the end could match in another way, so the first
    way to match is the only one. *)
Definition pattern (duration : string) : option (option string * option string * option string) :=
  match duration with
  | String p (String t s) =>
      if letter "P" p && letter "T" t then
        let '(h, s) := group "H" s in
        let '(m, s) := group "M" s in
        let '(sec, s) := group "S" s in
        match s with
        | "" => Some (h, m, sec)
        | _ => None
        end
      else None
  | _ => None
  end.

Definition parseDuration (duration : string) : Z :=
  match pattern duration with
  | None => 0
  | Some (h, m, s) =>
      let h := parseInt (or_else h "0") in
      let m := parseInt (or_else m "0") in
      let s := parseInt (or_else s "0") in
      mul (add (mul (add (mul h 60) m) 60) s) 1000
  end.

(** An ISO 8601 duration of hours, minutes and seconds, each of them
    optional, as the videos resource writes [contentDetails.duration]. *)
Definition component (n : option N) (l : string) : string :=
  match n with
  | Some n => show (Z.of_N n) +:+ l
  | None => ""
  end.

Definition iso8601 (h m s : option N) : string :=
  "PT" +:+ component h "H" +:+ component m "M" +:+ component s "S".
End Duration.

(** *** [base64url] ([src/lib/providers/apple-music.ts]) *)

Module Base64.
Definition alphabet : string :=
  "ABCDEFGHIJKLMNOPQRSTUVWXYZabcdefghijklmnopqrstuvwxyz0123456789+/".

(** The character that stands for the six bits [i]. *)
Definition sextet (i : N) : ascii :=
  default "="%char (String.get (N.to_nat i) alphabet).

(** [b.toString('base64')] for the bytes [b]: three bytes make four
    characters; the one or two bytes that are left over make two or three,
    and [=] fills the four. *)
Fixpoint base64 (b : string) : string :=
  match b with
  | "" => ""
  | String x "" =>
      let x := N_of_ascii x in
      String (sextet (x / 4)) (String (sextet (x mod 4 * 16)) "==")
  | String x (String y "") =>
      let x := N_of_ascii x in
      let y := N_of_ascii y in
      String (sextet (x / 4)) (String (sextet (x mod 4 * 16 + y / 16))
        (String (sextet (y mod 16 * 4)) "="))
  | String x (String y (String z b)) =>
      let x := N_of_ascii x in
      let y := N_of_ascii y in
      let z := N_of_ascii z in
      String (sextet (x / 4)) (String (sextet (x mod 4 * 16 + y / 16))
        (String (sextet (y mod 16 * 4 + z / 64)) (String (sextet (z mod 64))
           (base64 b))))
  end%N.

(** [s.replace(/c/g, t)] for a pattern [c] that is one character. *)
Fixpoint replace (c : ascii) (t : string) (s : string) : string :=
  match s with
  | "" => ""
  | String x s => (if Ascii.eqb x c then t else String x "") +:+ replace c t s
  end.

(** A string is its bytes here, so [Buffer.from(data)] is [data]. *)
Definition base64url (data : string) : string :=
  replace "/" "_" (replace "+" "-" (replace "=" "" (base64 data))).

(** What the three replacements make of one character of [base64]. *)
Definition url (c : ascii) : string :=
  replace "/" "_" (replace "+" "-" (replace "=" "" (String c ""))).

(** The characters of the URL-safe alphabet: letters, digits, [-], [_]. *)
Definition urlsafe (c : ascii) : bool :=
  let n := N_of_ascii c in
  ((65 <=? n) && (n <=? 90) || (97 <=? n) && (n <=? 122) || (48 <=? n) && (n <=? 57)
   || (n =? 45) || (n =? 95))%N.

(** Every character of [s] passes the test [f]. *)
Fixpoint every (f : ascii → bool) (s : string) : bool :=
  match s with
  | "" => true
  | String c s => f c && every f s
  end.

(** Reading the bytes back: the six bits a character of the URL-safe
    alphabet stands for, and the bytes that four, three or two characters
    hold. *)
Definition bits (c : ascii) : option N :=
  let n := N_of_ascii c in
  (if (65 <=? n) && (n <=? 90) then Some (n - 65)
   else if (97 <=? n) && (n <=? 122) then Some (n - 71)
   else if (48 <=? n) && (n <=? 57) then Some (n + 4)
   else if n =? 45 then Some 62
   else if n =? 95 then Some 63
   else None)%N.

Fixpoint bytes (s : string) : option string :=
  match s with
  | "" => Some ""
  | String a (String b "") =>
      a ← bits a; b ← bits b;
      Some (String (ascii_of_N (a * 4 + b / 16)) "")
  | String a (String b (String c "")) =>
      a ← bits a; b ← bits b; c ← bits c;
      Some (String (ascii_of_N (a * 4 + b / 16))
              (String (ascii_of_N (b mod 16 * 16 + c / 4)) ""))
  | String a (String b (String c (String d s))) =>
      a ← bits a; b ← bits b; c ← bits c; d ← bits d; rest ← bytes s;
      Some (String (ascii_of_N (a * 4 + b / 16))
              (String (ascii_of_N (b mod 16 * 16 + c / 4))
                 (String (ascii_of_N (c mod 4 * 64 + d)) rest)))
  | _ => None
  end%N.
End Base64.

(** ** Reading and creating playlists ([src/lib/providers/]) *)

(** [while (url) { ...; url = next }], entered with a [url] that is not
    empty, and [do { ... } while (pageToken)]: [body] is one pass of the
    loop, which gives the items it pushes on the array and the next value of
    the loop variable; the loop ends when that is missing or empty. [fuel]
    bounds the passes: [None] is a loop still running when the fuel is
    spent. *)
Fixpoint paged {St X} (body : string → M St (list X * option string)) (fuel : nat)
    (url : string) (pushed : list X) (s : St) : option (Result (list X) * St) :=
  match fuel with
  | O => None
  | S fuel =>
      match body url s with
      | (Ok (items, next), s1) =>
          if truthy next then paged body fuel (default "" next) (pushed ++ items) s1
          else Some (Ok (pushed ++ items), s1)
      | (Threw e, s1) => Some (Threw e, s1)
      end
  end.

(** [s.replace(pattern, by)] for a pattern that is a string: the first
    occurrence only. *)
Definition replaceFirst (pattern by_ s : string) : string :=
  match String.index 0 pattern s with
  | Some k =>
      String.substring 0 k s +:+ by_
      +:+ String.substring (k + String.length pattern)
            (String.length s - (k + String.length pattern)) s
  | None => s
  end.

(** [s.split(sep)] for a separator that is not empty, read from the left:
    [skip] characters of a separator just found are still to pass. The
    pieces are never none. *)
Fixpoint split_from (sep : string) (skip : nat) (s : string) : list string :=
  match s with
  | "" => [""]
  | String c s' =>
      match skip with
      | S skip => split_from sep skip s'
      | O =>
          if String.prefix sep s
          then "" :: split_from sep (String.length sep - 1) s'
          else match split_from sep 0 s' with
               | piece :: pieces => String c piece :: pieces
               | [] => [String c ""]
               end
      end
  end.

Definition split (sep s : string) : list string := split_from sep 0 s.

Module SpotifyPlaylists.
Import SpotifyProvider.

(** The bodies [getPlaylists] and [getPlaylistTracks] read. [data.items]
    is mapped without a guard; [data.next] ends the loop when it is
    [null]. *)
Record Listing := mkListing {
  listed : option (list (option PlaylistItem));
  listing_next : option string
}.
Record Entry := mkEntry { track : option Item }.
Record Contents := mkContents {
  entries : option (list (option Entry));
  contents_next : option string
}.

(** What a pass of [getPlaylists] pushes, and the next url. *)
Definition playlistsOf (data : option Listing) : Result (list Playlist.t * option string) :=
  data ← member "null" data "items";
  items ← member "undefined" (listed data) "map";
  playlists ← mapM toPlaylist items;
  mret (playlists, listing_next data).

(** What a pass of [getPlaylistTracks] pushes: [filter] reads [item.track]
    of every entry and leaves out the entries without a track, then [map]
    makes a track of each one left. *)
Definition tracksOf (data : option Contents) : Result (list Track.t * option string) :=
  data ← member "null" data "items";
  items ← member "undefined" (entries data) "filter";
  kept ← mapM (λ item : option Entry, item ← member "null" item "track"; mret (track item))
            items;
  tracks ← mapM (λ t, toTrack (Some t)) (omap id kept);
  mret (tracks, contents_next data).

Section SpotifyPlaylists.
Context {P : Type}.
Variable listings : Http.Request → M P (Http.Response (option Listing)).
Variable contents : Http.Request → M P (Http.Response (option Contents)).

Definition get (url token : string) : Http.Request :=
  Http.mkRequest url Http.GET [Http.bearer token] None.

(** One pass of the loop of [getPlaylists]. *)
Definition playlistsPage (token nextUrl : string)
    : M (Http.Net P) (list Playlist.t * option string) :=
  response ← Http.fetch listings (get nextUrl token);
  data ← Http.decode response;
  settled (playlistsOf data).

Definition getPlaylists (fuel : nat) (token : string) :=
  paged (playlistsPage token) fuel "https://api.spotify.com/v1/me/playlists?limit=50" [].

(** One pass of the loop of [getPlaylistTracks]. *)
Definition tracksPage (token nextUrl : string)
    : M (Http.Net P) (list Track.t * option string) :=
  response ← Http.fetch contents (get nextUrl token);
  data ← Http.decode response;
  settled (tracksOf data).

Definition getPlaylistTracks (fuel : nat) (token playlistId : string) :=
  paged (tracksPage token) fuel
    ("https://api.spotify.com/v1/playlists/" +:+ playlistId +:+ "/tracks?limit=100") [].
End SpotifyPlaylists.
End SpotifyPlaylists.

Module YouTubeMusicPlaylists.
Import Duration.

Record Thumbnail := mkThumbnail { thumbnail_url : option string }.
Record Thumbnails := mkThumbnails { default_ : option Thumbnail }.
Record Snippet := mkSnippet {
  snippet_title : string;
  snippet_description : option string;
  thumbnails : option Thumbnails
}.
Record ContentDetails := mkContentDetails { itemCount : Z }.
Record PlaylistItem := mkPlaylistItem {
  pl_id : string;
  snippet : option Snippet;
  contentDetails : option ContentDetails
}.
Record Listing := mkListing {
  listed : option (list (option PlaylistItem));
  listing_nextPageToken : option string
}.

(** An entry of a playlist: [item.snippet.resourceId.videoId] and
    [item.snippet.title]. *)
Record ResourceId := mkResourceId { videoId : string }.
Record EntrySnippet := mkEntrySnippet {
  resourceId : option ResourceId;
  entry_title : option string
}.
Record Entry := mkEntry { entry_snippet : option EntrySnippet }.
Record Contents := mkContents {
  entries : option (list (option Entry));
  contents_nextPageToken : option string
}.

(** A video: [v.id] and [v.contentDetails.duration]. *)
Record VideoDetails := mkVideoDetails { duration : option string }.
Record Video := mkVideo { video_id : string; video_details : option VideoDetails }.
Record Videos := mkVideos { videos : option (list (option Video)) }.

Record Created := mkCreated { created_id : string }.

Definition toPlaylist (item : option PlaylistItem) : Result Playlist.t :=
  item ← member "null" item "id";
  snippet ← member "undefined" (snippet item) "title";
  contentDetails ← member "undefined" (contentDetails item) "itemCount";
  mret (Playlist.mk (pl_id item) (snippet_title snippet)
          (snippet_description snippet)
          (itemCount contentDetails)
          []
          (thumbnails ← thumbnails snippet; thumbnail ← default_ thumbnails;
           thumbnail_url thumbnail)).

(** What a pass of [getPlaylists] pushes, and the next page token. *)
Definition playlistsOf (data : option Listing) : Result (list Playlist.t * option string) :=
  data ← member "null" data "items";
  items ← member "undefined" (listed data) "map";
  playlists ← mapM toPlaylist items;
  mret (playlists, Some (or_else (listing_nextPageToken data) "")).

(** [item.snippet.resourceId.videoId] *)
Definition videoIdOf (item : option Entry) : Result string :=
  item ← member "null" item "snippet";
  snippet ← member "undefined" (entry_snippet item) "resourceId";
  resourceId ← member "undefined" (resourceId snippet) "videoId";
  mret (videoId resourceId).

(** [data.items.map((item) => item.snippet.resourceId.videoId)] *)
Definition videoIdsOf (data : option Contents) : Result (list string) :=
  data ← member "null" data "items";
  items ← member "undefined" (entries data) "map";
  mapM videoIdOf items.

(** [new Map()] filled with [videoMap.set(v.id, v)] for the videos in
    order, and [videoMap.get(videoId)]: the last video of that id. *)
Definition videoMap_get (videoId : string) (videoMap : list Video) : option Video :=
  snd <$> list_find (λ v, video_id v = videoId) (reverse videoMap).

(** The name and the artist that a title is taken for: [Artist - Track]. *)
Definition artistOf (title : string) : string :=
  let parts := split " - " title in
  if bool_decide (len parts > 1) then trim (default "" (head parts)) else "".

Definition nameOf (title : string) : string :=
  let parts := split " - " title in
  if bool_decide (len parts > 1) then trim (String.concat " - " (drop 1 parts)) else title.

(** The track pushed for an entry of the playlist;
    [parseDuration(video.contentDetails.duration)] reads
    [video.contentDetails] without a guard, and [parseDuration] calls
    [match] on what it is given. *)
Definition toTrack (videoMap : list Video) (item : option Entry) : Result Track.t :=
  videoId ← videoIdOf item;
  item ← member "null" item "snippet";
  snippet ← member "undefined" (entry_snippet item) "title";
  let video := videoMap_get videoId videoMap in
  let title := or_else (entry_title snippet) "" in
  durationMs ← match video with
               | Some video =>
                   details ← member "undefined" (video_details video) "duration";
                   duration ← member "undefined" (duration details) "match";
                   mret (parseDuration duration)
               | None => mret 0
               end;
  mret (Track.mk videoId (nameOf title) (artistOf title) "" durationMs None).

(** What a pass of [getPlaylistTracks] pushes, for the entries and the
    videos it was answered with, and the next page token. *)
Definition tracksOf (data : option Contents) (videoData : option Videos)
    : Result (list Track.t * option string) :=
  videoData ← member "null" videoData "items";
  videoMap ← mapM (λ v : option Video, member "null" v "id") (default [] (videos videoData));
  data ← member "null" data "items";
  items ← member "undefined" (entries data) "map";
  tracks ← mapM (toTrack videoMap) items;
  mret (tracks, Some (or_else (contents_nextPageToken data) "")).

Section YouTubeMusicPlaylists.
Context {P : Type}.
Variable listings : Http.Request → M P (Http.Response (option Listing)).
Variable contents : Http.Request → M P (Http.Response (option Contents)).
Variable details : Http.Request → M P (Http.Response (option Videos)).
Variable playlists : Http.Request → M P (Http.Response (option Created)).

Definition get (url token : string) : Http.Request :=
  Http.mkRequest url Http.GET [Http.bearer token] None.

(** [${pageToken ? `&pageToken=${pageToken}` : ''}] *)
Definition page (pageToken : string) : string :=
  if truthy (Some pageToken) then "&pageToken=" +:+ pageToken else "".

Definition playlistsPage (token pageToken : string)
    : M (Http.Net P) (list Playlist.t * option string) :=
  let url := "https://www.googleapis.com/youtube/v3/playlists"
             +:+ "?part=snippet,contentDetails&mine=true&maxResults=50"
             +:+ page pageToken in
  response ← Http.fetch listings (get url token);
  data ← Http.decode response;
  settled (playlistsOf data).

Definition getPlaylists (fuel : nat) (token : string) :=
  paged (playlistsPage token) fuel "" [].

Definition tracksPage (token playlistId pageToken : string)
    : M (Http.Net P) (list Track.t * option string) :=
  let url := "https://www.googleapis.com/youtube/v3/playlistItems?part=snippet&playlistId="
             +:+ playlistId +:+ "&maxResults=50" +:+ page pageToken in
  response ← Http.fetch contents (get url token);
  data ← Http.decode response;
  (* Get video IDs for duration lookup *)
  videoIds ← settled (videoIdsOf data);
  (* Fetch video details for duration *)
  let videoUrl := "https://www.googleapis.com/youtube/v3/videos?part=contentDetails,snippet&id="
                  +:+ String.concat "," videoIds in
  videoRes ← Http.fetch details (get videoUrl token);
  videoData ← Http.decode videoRes;
  settled (tracksOf data videoData).

Definition getPlaylistTracks (fuel : nat) (token playlistId : string) :=
  paged (tracksPage token playlistId) fuel "" [].

Definition create (token name : string) (description : option string) : Http.Request :=
  Http.mkRequest "https://www.googleapis.com/youtube/v3/playlists?part=snippet,status"
    Http.POST [Http.bearer token; Http.content_type "application/json"]
    (Some (Http.AsJson (Http.JObject
       [("snippet", Http.JObject [("title", Http.JString name);
                                  ("description", Http.JString (or_else description ""))]);
        ("status", Http.JObject [("privacyStatus", Http.JString "private")])]))).

Definition createPlaylist (token name : string) (description : option string)
    : M (Http.Net P) string :=
  response ← Http.fetch playlists (create token name description);
  data ← Http.decode response;
  settled (data ← member "null" data "id"; mret (created_id data)).
End YouTubeMusicPlaylists.
End YouTubeMusicPlaylists.

Module KKBoxPlaylists.
Import KKBoxProvider.

Record Image := mkImage { image_url : option string }.
Record PlaylistItem := mkPlaylistItem {
  pl_id : string;
  pl_title : option string;
  pl_name : string;
  pl_description : option string;
  track_count : option Z;
  images : option (list Image)
}.
Record Paging := mkPaging { next : option string }.
Record Listing := mkListing {
  listed : option (list (option PlaylistItem));
  listing_paging : option Paging
}.

(** A track of a playlist: [item.duration] is multiplied without a guard. *)
Record Entry := mkEntry {
  entry_id : string;
  entry_title : option string;
  entry_name : string;
  entry_artist : option Named;
  entry_album : option Named;
  entry_duration : Z;
  entry_isrc : option string
}.
Record Contents := mkContents {
  entries : option (list (option Entry));
  contents_paging : option Paging
}.

Record Created := mkCreated { created_id : string }.

Definition toPlaylist (item : PlaylistItem) : Playlist.t :=
  Playlist.mk (pl_id item)
    (or_else (pl_title item) (pl_name item))
    (Some (or_else (pl_description item) ""))
    (default 0 (track_count item))
    []
    (images ← images item; image ← head images; image_url image).

Definition entryTrack (item : Entry) : Track.t :=
  Track.mk (entry_id item)
    (or_else (entry_title item) (entry_name item))
    (or_else (entry_artist item ≫= named_name) "")
    (or_else (entry_album item ≫= named_name) "")
    (entry_duration item * 1000)
    (entry_isrc item).

(** What a pass pushes, and the next url: [(data.data || []).map(...)]
    reads [item.id] of every item. *)
Definition playlistsOf (data : option Listing) : Result (list Playlist.t * option string) :=
  data ← member "null" data "data";
  playlists ← mapM (λ item : option PlaylistItem,
                      item ← member "null" item "id"; mret (toPlaylist item))
                 (default [] (listed data));
  mret (playlists, listing_paging data ≫= next).

Definition tracksOf (data : option Contents) : Result (list Track.t * option string) :=
  data ← member "null" data "data";
  tracks ← mapM (λ item : option Entry,
                   item ← member "null" item "id"; mret (entryTrack item))
              (default [] (entries data));
  mret (tracks, contents_paging data ≫= next).

Section KKBoxPlaylists.
Context {P : Type}.
Variable KKBOX_TERRITORY : string.
Variable listings : Http.Request → M P (Http.Response (option Listing)).
Variable contents : Http.Request → M P (Http.Response (option Contents)).
Variable playlists : Http.Request → M P (Http.Response (option Created)).

Definition get (url token : string) : Http.Request :=
  Http.mkRequest url Http.GET [Http.bearer token] None.

Definition playlistsPage (token nextUrl : string)
    : M (Http.Net P) (list Playlist.t * option string) :=
  response ← Http.fetch listings (get nextUrl token);
  if negb (Http.ok response)
  then throw (Error ("KKBox API error: " +:+ show (Http.status response)))
  else
    data ← Http.decode response;
    settled (playlistsOf data).

Definition getPlaylists (fuel : nat) (token : string) :=
  paged (playlistsPage token) fuel
    ("https://api.kkbox.com/v1.1/me/playlists?territory=" +:+ KKBOX_TERRITORY
     +:+ "&limit=50") [].

Definition tracksPage (token nextUrl : string)
    : M (Http.Net P) (list Track.t * option string) :=
  response ← Http.fetch contents (get nextUrl token);
  if negb (Http.ok response)
  then throw (Error ("KKBox API error: " +:+ show (Http.status response)))
  else
    data ← Http.decode response;
    settled (tracksOf data).

Definition getPlaylistTracks (fuel : nat) (token playlistId : string) :=
  paged (tracksPage token) fuel
    ("https://api.kkbox.com/v1.1/playlists/" +:+ playlistId +:+ "/tracks?territory="
     +:+ KKBOX_TERRITORY +:+ "&limit=50") [].

Definition create (token name : string) (description : option string) : Http.Request :=
  Http.mkRequest "https://api.kkbox.com/v1.1/me/playlists"
    Http.POST [Http.bearer token; Http.content_type "application/x-www-form-urlencoded"]
    (Some (Http.AsForm [("title", name); ("description", or_else description "")])).

Definition createPlaylist (token name : string) (description : option string)
    : M (Http.Net P) string :=
  response ← Http.fetch playlists (create token name description);
  if negb (Http.ok response)
  then throw (Error ("Failed to create playlist: " +:+ show (Http.status response)))
  else
    data ← Http.decode response;
    settled (data ← member "null" data "id"; mret (created_id data)).
End KKBoxPlaylists.
End KKBoxPlaylists.

Module AppleMusicPlaylists.
Import AppleMusicProvider.

Record Description := mkDescription { standard : option string }.
Record Artwork := mkArtwork { artwork_url : option string }.
Record PlaylistAttributes := mkPlaylistAttributes {
  pl_name : string;
  pl_description : option Description;
  trackCount : option Z;
  artwork : option Artwork
}.
Record PlaylistItem := mkPlaylistItem {
  pl_id : string;
  pl_attributes : option PlaylistAttributes
}.
Record Listing := mkListing {
  listed : option (list (option PlaylistItem));
  listing_next : option string
}.

Record EntryAttributes := mkEntryAttributes {
  entry_name : string;
  entry_artistName : option string;
  entry_albumName : option string;
  entry_durationInMillis : option Z;
  entry_isrc : option string
}.
Record Entry := mkEntry { entry_id : string; entry_attributes : option EntryAttributes }.
Record Contents := mkContents {
  entries : option (list (option Entry));
  contents_next : option string
}.

Record Resource := mkResource { resource_id : string }.
Record Created := mkCreated { created : option (list (option Resource)) }.

Definition toPlaylist (item : option PlaylistItem) : Result Playlist.t :=
  item ← member "null" item "id";
  attributes ← member "undefined" (pl_attributes item) "name";
  mret (Playlist.mk (pl_id item)
          (pl_name attributes)
          (Some (or_else (pl_description attributes ≫= standard) ""))
          (default 0 (trackCount attributes))
          []
          (replaceFirst "{w}x{h}" "300x300"
             <$> (artwork ← artwork attributes; artwork_url artwork))).

Definition entryTrack (item : option Entry) : Result Track.t :=
  item ← member "null" item "id";
  attributes ← member "undefined" (entry_attributes item) "name";
  mret (Track.mk (entry_id item)
          (entry_name attributes)
          (or_else (entry_artistName attributes) "")
          (or_else (entry_albumName attributes) "")
          (default 0 (entry_durationInMillis attributes))
          (entry_isrc attributes)).

(** [data.next ? `${APPLE_API_BASE}${data.next}` : null] *)
Definition following (next : option string) : option string :=
  if truthy next then Some (APPLE_API_BASE +:+ default "" next) else None.

(** What a pass pushes, and the next url. *)
Definition playlistsOf (data : option Listing) : Result (list Playlist.t * option string) :=
  data ← member "null" data "data";
  playlists ← mapM toPlaylist (default [] (listed data));
  mret (playlists, following (listing_next data)).

Definition tracksOf (data : option Contents) : Result (list Track.t * option string) :=
  data ← member "null" data "data";
  tracks ← mapM entryTrack (default [] (entries data));
  mret (tracks, following (contents_next data)).

(** [data.data[0].id]: reads [data.data] and its first element without a
    guard; an array without elements has [undefined] there. *)
Definition createdId (data : option Created) : Result string :=
  data ← member "null" data "data";
  resources ← member "undefined" (created data) "0";
  match head resources with
  | Some resource => resource ← member "null" resource "id"; mret (resource_id resource)
  | None => Threw (unreadable "undefined" "id")
  end.

Section AppleMusicPlaylists.
Context {P : Type}.
Variable generateDeveloperToken : M P string.
Variable listings : Http.Request → M P (Http.Response (option Listing)).
Variable contents : Http.Request → M P (Http.Response (option Contents)).
Variable playlists : Http.Request → M P (Http.Response (option Created)).

Local Abbreviation getHeaders := (getHeaders generateDeveloperToken).

Definition get (url : string) (headers : list (string * string)) : Http.Request :=
  Http.mkRequest url Http.GET headers None.

Definition playlistsPage (token url : string)
    : M (Http.Net P) (list Playlist.t * option string) :=
  headers ← getHeaders token;
  response ← Http.fetch listings (get url headers);
  if negb (Http.ok response)
  then throw (Error ("Apple Music API error: " +:+ show (Http.status response)))
  else
    data ← Http.decode response;
    settled (playlistsOf data).

Definition getPlaylists (fuel : nat) (token : string) :=
  paged (playlistsPage token) fuel (APPLE_API_BASE +:+ "/me/library/playlists?limit=25") [].

Definition tracksPage (token url : string)
    : M (Http.Net P) (list Track.t * option string) :=
  headers ← getHeaders token;
  response ← Http.fetch contents (get url headers);
  if negb (Http.ok response)
  then throw (Error ("Apple Music API error: " +:+ show (Http.status response)))
  else
    data ← Http.decode response;
    settled (tracksOf data).

Definition getPlaylistTracks (fuel : nat) (token playlistId : string) :=
  paged (tracksPage token) fuel
    (APPLE_API_BASE +:+ "/me/library/playlists/" +:+ playlistId +:+ "/tracks?limit=100") [].

Definition create (name : string) (description : option string)
    (headers : list (string * string)) : Http.Request :=
  Http.mkRequest (APPLE_API_BASE +:+ "/me/library/playlists")
    Http.POST headers
    (Some (Http.AsJson (Http.JObject
       [("attributes", Http.JObject
           [("name", Http.JString name);
            ("description", Http.JString (or_else description ""))])]))).

Definition createPlaylist (token name : string) (description : option string)
    : M (Http.Net P) string :=
  headers ← getHeaders token;
  response ← Http.fetch playlists (create name description headers);
  if negb (Http.ok response)
  then throw (Error ("Failed to create playlist: " +:+ show (Http.status response)))
  else
    data ← Http.decode response;
    settled (createdId data).
End AppleMusicPlaylists.
End AppleMusicPlaylists.

(** *** What the properties of the loops speak of *)

(** The passes of a loop that runs to its end: from [url] in state [s], the
    passes push [pages], one list per pass, each with the url of the pass,
    and leave state [s']. Each pass but the last names a next url that is not
    empty. *)
Inductive Passes {St X} (body : string → M St (list X * option string))
    : string → St → list (string * list X) → St → Prop :=
| last_pass url s items next s' :
    body url s = (Ok (items, next), s') → truthy next = false →
    Passes body url s [(url, items)] s'
| next_pass url s items next s1 pages s' :
    body url s = (Ok (items, next), s1) → truthy next = true →
    Passes body (default "" next) s1 pages s' →
    Passes body url s ((url, items) :: pages) s'.

(** What the passes pushed, in order. *)
Definition pushed_by {X} (pages : list (string * list X)) : list X :=
  concat (snd <$> pages).

(** The passes of a loop up to one that throws [e], at the url [stop] and
    leaving state [s']. *)
Inductive Breaks {St X} (body : string → M St (list X * option string)) (e : Exn)
    : string → St → nat → string → St → Prop :=
| breaks_here url s s' :
    body url s = (Threw e, s') → Breaks body e url s 0 url s'
| breaks_later url s items next s1 n stop s' :
    body url s = (Ok (items, next), s1) → truthy next = true →
    Breaks body e (default "" next) s1 n stop s' →
    Breaks body e url s (S n) stop s'.

(** A listing as [getPlaylists] has to give it: no tracks in the entries. *)
Definition bare (playlists : list Playlist.t) : Prop :=
  Forall (λ p, Playlist.tracks p = []) playlists.

(** A pass that returns has sent one request and read the items of the
    body that was decoded: what it pushes is made of them one by one, in
    order, as [entry] says. *)
Definition made_of {P B I X} (respond : Http.Request → M P (Http.Response (option B)))
    (items : B → list (option I)) (entry : I → X → Prop)
    (body : string → M (Http.Net P) (list X * option string)) : Prop :=
  ∀ url n pushed next n',
    body url n = (Ok (pushed, next), n') →
    ∃ req p response data,
      Http.sent n' = Http.sent n ++ [req] ∧
      respond req p = (Ok response, Http.platform n') ∧
      Http.json response = Some (Some data) ∧
      Forall2 (λ item x, ∃ i, item = Some i ∧ entry i x) (items data) pushed.

(** A loop that reads page by page: when it returns, it returns what its
    passes pushed, in order, and nothing of it when a pass threw; and when
    the passes come to an end, or to a pass that throws, the loop does so
    with any fuel that is enough for them. *)
Definition page_by_page {St X} (body : string → M St (list X * option string))
    (url : string) (loop : nat → St → option (Result (list X) * St)) : Prop :=
  (∀ fuel s xs s',
     loop fuel s = Some (Ok xs, s') →
     ∃ pages, Passes body url s pages s' ∧ xs = pushed_by pages ∧ (length pages ≤ fuel)%nat) ∧
  (∀ fuel s pages s',
     Passes body url s pages s' → (length pages ≤ fuel)%nat →
     loop fuel s = Some (Ok (pushed_by pages), s')) ∧
  (∀ fuel s e s',
     loop fuel s = Some (Threw e, s') →
     ∃ n stop, Breaks body e url s n stop s' ∧ (n < fuel)%nat) ∧
  (∀ fuel s e n stop s',
     Breaks body e url s n stop s' → (n < fuel)%nat → loop fuel s = Some (Threw e, s')).

(** Whatever its outcome, a pass sends the one request [request url]. *)
Definition one_request {P A} (request : string → Http.Request)
    (body : string → M (Http.Net P) A) : Prop :=
  ∀ url n r n', body url n = (r, n') → Http.sent n' = Http.sent n ++ [request url].

(** A platform for the Spotify adapter that serves a playlist in two pages:
    the first names the second, an entry of the second has no track. *)
Module TwoPages.
Definition first : string := "https://api.spotify.com/v1/playlists/p1/tracks?limit=100".
Definition second : string := "https://api.spotify.com/v1/playlists/p1/tracks?offset=100".

Definition item (id name : string) : SpotifyProvider.Item :=
  SpotifyProvider.mkItem id name (Some [Some (SpotifyProvider.mkArtist "Band")]) None 1000
    None.

Definition contents : Http.Request → M () (Http.Response (option SpotifyPlaylists.Contents)) :=
  λ req,
  if String.eqb (Http.url req) first then
    mret (Http.mkResponse true 200 (Some (Some (SpotifyPlaylists.mkContents
            (Some [Some (SpotifyPlaylists.mkEntry (Some (item "a" "A")));
                   Some (SpotifyPlaylists.mkEntry (Some (item "b" "B")))])
            (Some second)))))
  else if String.eqb (Http.url req) second then
    mret (Http.mkResponse true 200 (Some (Some (SpotifyPlaylists.mkContents
            (Some [Some (SpotifyPlaylists.mkEntry None);
                   Some (SpotifyPlaylists.mkEntry (Some (item "c" "C")))])
            None))))
  else mret (Http.mkResponse false 404 None).

(** A platform for the KKBox adapter that answers with status 401. *)
Definition denied {B} : Http.Request → M () (Http.Response B) := λ _,
  mret (Http.mkResponse false 401 None).

(** A platform for the YouTube Music adapter: one page with two entries,
    and the details of the first of them only. *)
Definition entry (videoId title : string) : option YouTubeMusicPlaylists.Entry :=
  Some (YouTubeMusicPlaylists.mkEntry (Some (YouTubeMusicPlaylists.mkEntrySnippet
          (Some (YouTubeMusicPlaylists.mkResourceId videoId)) (Some title)))).

Definition entries
    : Http.Request → M () (Http.Response (option YouTubeMusicPlaylists.Contents)) :=
  λ _, mret (Http.mkResponse true 200 (Some (Some (YouTubeMusicPlaylists.mkContents
               (Some [entry "v1" "Band - Song - Live"; entry "v2" "Untitled"]) None)))).
Definition details
    : Http.Request → M () (Http.Response (option YouTubeMusicPlaylists.Videos)) :=
  λ _, mret (Http.mkResponse true 200 (Some (Some (YouTubeMusicPlaylists.mkVideos
               (Some [Some (YouTubeMusicPlaylists.mkVideo "v1"
                              (Some (YouTubeMusicPlaylists.mkVideoDetails
                                       (Some "PT3M25S"))))]))))).

(** A page of the YouTube Music platform whose second entry has no
    snippet. *)
Definition broken
    : Http.Request → M () (Http.Response (option YouTubeMusicPlaylists.Contents)) :=
  λ _, mret (Http.mkResponse true 200 (Some (Some (YouTubeMusicPlaylists.mkContents
               (Some [entry "v1" "Band - Song - Live";
                      Some (YouTubeMusicPlaylists.mkEntry None)]) None)))).
End TwoPages.




(** A listing of the Spotify platform in one page; the second playlist has a
    description and a picture. *)
Definition one_page : Http.Request → M () (Http.Response (option SpotifyPlaylists.Listing)) :=
  λ _,
  mret (Http.mkResponse true 200 (Some (Some (SpotifyPlaylists.mkListing
          (Some [Some (SpotifyProvider.mkPlaylistItem "p0" "Mixtape" None
                         (Some (SpotifyProvider.mkTotal 3)) None);
                 Some (SpotifyProvider.mkPlaylistItem "p1" "Road trip" (Some "For the car")
                         (Some (SpotifyProvider.mkTotal 7))
                         (Some [SpotifyProvider.mkImage (Some "https://img.example/p1")]))])
          None)))).

(** ** The registry ([src/lib/providers/index.ts]) and the routes
    ([src/app/api/]) *)

(** What a route answers: [NextResponse.json(body, { status })], or the
    event stream of the transfer route, whose chunks are
    [data: ${JSON.stringify(x)}\n\n] for the values [x] listed, after which
    the stream is closed. *)
Inductive Chunk :=
| ProgressChunk (progress : TransferProgress.t)
| CompleteChunk (result : TransferResult.t)
| ErrorChunk (error : string).

Inductive Answered :=
| Failure (error : string)
| Listing (playlists : list Playlist.t)
| Providers (providers : list (string * string)).

Inductive Reply :=
| Json (status : Z) (body : Answered)
| EventStream (chunks : list Chunk).

(** [error.message]; every value of [Exn] is an [Error]. *)
Definition message (e : Exn) : string :=
  match e with Error m | TypeError m | SyntaxError m => m end.

(** The body of a transfer request after destructuring: a member that is
    missing is [None]. *)
Module TransferRequest.
Record t := mk {
  sourceProvider : option string;
  targetProvider : option string;
  sourceToken : option string;
  targetToken : option string;
  playlistId : option string
}.
End TransferRequest.

(** What [Headers.get] makes of the value of a header: the value without
    the HTTP white space (tab, line feed, carriage return, space) at its
    start and at its end. *)
Definition http_whitespace (c : ascii) : bool :=
  (Ascii.eqb c "009" || Ascii.eqb c "010" || Ascii.eqb c "013" || Ascii.eqb c " ")%char.

Fixpoint strip_leading (s : string) : string :=
  match s with
  | String c s' => if http_whitespace c then strip_leading s' else s
  | "" => ""
  end.

Fixpoint strip_trailing (s : string) : string :=
  match s with
  | String c s' =>
      match strip_trailing s' with
      | "" => if http_whitespace c then "" else String c ""
      | rest => String c rest
      end
  | "" => ""
  end.

Definition normalize (value : string) : string := strip_trailing (strip_leading value).

Module Routes.
Section Routes.
Context {W : Type}.
(** [new SpotifyProvider()] and the other three instances. *)
Variables spotify youtube apple kkbox : MusicProvider.t W.

(** [new Map([...])]: the entries in the order given; the keys differ. *)
Definition providers : list (string * MusicProvider.t W) :=
  [("spotify", spotify); ("youtube-music", youtube); ("apple-music", apple);
   ("kkbox", kkbox)].

Definition getProvider (name : string) : option (MusicProvider.t W) :=
  entry ← list_find (λ entry, entry.1 = name) providers; Some entry.2.2.

Definition getProviderList : list (string * string) :=
  (λ entry, (entry.1, MusicProvider.name entry.2)) <$> providers.

(** [GET] of [api/providers]; [getProviderList] does not throw. *)
Definition providersRoute : Reply := Json 200 (Providers getProviderList).

(** The world of a run that streams: the world of the adapters, and the
    chunks that [controller.enqueue] was given. *)
Definition Streaming : Type := W * list Chunk.

Definition aside {A} (m : M W A) : M Streaming A := λ s,
  let '(r, w) := m s.1 in (r, (w, s.2)).

Definition enqueue (chunk : Chunk) : M Streaming () := λ s,
  (Ok (), (s.1, s.2 ++ [chunk])).

(** An adapter at work beside the stream. *)
Definition streaming (provider : MusicProvider.t W) : MusicProvider.t Streaming :=
  MusicProvider.mk (MusicProvider.name provider)
    (λ token, aside (MusicProvider.getPlaylists provider token))
    (λ token playlistId, aside (MusicProvider.getPlaylistTracks provider token playlistId))
    (λ token name description,
       aside (MusicProvider.createPlaylist provider token name description))
    (λ token playlistId tracks,
       aside (MusicProvider.addTracks provider token playlistId tracks))
    (λ token track, aside (MusicProvider.searchTrack provider token track)).

(** [start(controller)] of the stream of the transfer route. *)
Definition start (sourceProvider targetProvider : MusicProvider.t W)
    (sourceToken targetToken playlistId : string) (w : W) : list Chunk * W :=
  let '(r, st) :=
    Engine.transferPlaylist (streaming sourceProvider) (streaming targetProvider)
      sourceToken targetToken playlistId
      (Some (λ progress, enqueue (ProgressChunk progress)))
      (Engine.init (w, [])) in
  let '(w, chunks) := Engine.world st in
  match r with
  | Ok result => (chunks ++ [CompleteChunk result], w)
  | Threw error => (chunks ++ [ErrorChunk (message error)], w)
  end.

(** [POST] of [api/transfer]. [body] is [None] when [request.json()]
    rejects or resolves to [null], which cannot be destructured; any other
    value is read member by member, a member it does not have being
    [undefined]. The members that are there are strings. *)
Definition transfer (body : option TransferRequest.t) (w : W) : Reply * W :=
  match body with
  | None => (Json 500 (Failure "Transfer failed"), w)
  | Some body =>
      if negb (truthy (TransferRequest.sourceProvider body))
         || negb (truthy (TransferRequest.targetProvider body))
         || negb (truthy (TransferRequest.sourceToken body))
         || negb (truthy (TransferRequest.targetToken body))
         || negb (truthy (TransferRequest.playlistId body))
      then (Json 400 (Failure ("Missing required fields: sourceProvider, targetProvider, "
                               +:+ "sourceToken, targetToken, playlistId")), w)
      else
        match getProvider (default "" (TransferRequest.sourceProvider body)),
              getProvider (default "" (TransferRequest.targetProvider body)) with
        | Some sourceProvider, Some targetProvider =>
            let '(chunks, w) :=
              start sourceProvider targetProvider
                (default "" (TransferRequest.sourceToken body))
                (default "" (TransferRequest.targetToken body))
                (default "" (TransferRequest.playlistId body)) w in
            (EventStream chunks, w)
        | _, _ => (Json 400 (Failure "Invalid provider specified"), w)
        end
  end.

(** [GET] of [api/playlists/[provider]], for the value of the
    [authorization] header as the client sent it, if there is one;
    [request.headers.get] gives the value with the white space around it
    taken off. *)
Definition playlists (provider : string) (authorization : option string) (w : W)
    : Reply * W :=
  match getProvider provider with
  | None => (Json 404 (Failure "Provider not found"), w)
  | Some provider =>
      match normalize <$> authorization with
      | Some authHeader =>
          if String.prefix "Bearer " authHeader then
            let token := String.substring 7 (String.length authHeader - 7) authHeader in
            match MusicProvider.getPlaylists provider token w with
            | (Ok playlists, w) => (Json 200 (Listing playlists), w)
            | (Threw _, w) => (Json 500 (Failure "Failed to fetch playlists"), w)
            end
          else (Json 401 (Failure "Bearer token required"), w)
      | None => (Json 401 (Failure "Bearer token required"), w)
      end
  end.
End Routes.
End Routes.

(** A callback that does nothing. *)
Definition idle {W} : TransferProgress.t → M W () := λ _, mret ().

(** The chunk that ends the stream of a run. *)
Definition closing (r : Result TransferResult.t) : Chunk :=
  match r with
  | Ok result => CompleteChunk result
  | Threw error => ErrorChunk (message error)
  end.

(** The ids of the registry, and a request that names two of them and has
    the two tokens and the id of the playlist. *)
Definition ids : list string := ["spotify"; "youtube-music"; "apple-music"; "kkbox"].

Definition complete_request (body : option TransferRequest.t) : Prop :=
  ∃ sourceProvider targetProvider sourceToken targetToken playlistId,
    body = Some (TransferRequest.mk (Some sourceProvider) (Some targetProvider)
                   (Some sourceToken) (Some targetToken) (Some playlistId)) ∧
    sourceProvider ∈ ids ∧ targetProvider ∈ ids ∧
    sourceToken ≠ "" ∧ targetToken ≠ "" ∧ playlistId ≠ "".

(** The state of a run that streams, without the stream. *)
Definition beside {W} (st : @Engine.State (W * list Chunk)) : @Engine.State W :=
  Engine.mkState (Engine.world st).1 (Engine.playlists st) (Engine.trace st).

(** The stream holds the progress events of the trace. *)
Definition in_step {W} (st : @Engine.State (W * list Chunk)) : Prop :=
  (Engine.world st).2 = ProgressChunk <$> Engine.progress_of (Engine.trace st).

(** [m'] does beside a stream, and with every progress event put on it,
    what [m] does. *)
Definition streams {W A} (m' : M (@Engine.State (W * list Chunk)) A)
    (m : M (@Engine.State W) A) : Prop :=
  ∀ st, in_step st → m (beside st) = ((m' st).1, beside (m' st).2) ∧ in_step (m' st).2.

(** The registry of the scenario: its source as Spotify, its target as
    KKBox. *)
Module Served.
Definition body : TransferRequest.t :=
  TransferRequest.mk (Some "spotify") (Some "kkbox") (Some "source-token")
    (Some "target-token") (Some "p1").

Abbreviation post body :=
  (Routes.transfer Scenario.source Scenario.source Scenario.source Scenario.target
     body 0%nat).

Definition failing : MusicProvider.t nat :=
  MusicProvider.mk "Spotify"
    (λ _, throw (Error "401 from upstream: token expired"))
    (MusicProvider.getPlaylistTracks Scenario.source)
    (MusicProvider.createPlaylist Scenario.source)
    (MusicProvider.addTracks Scenario.source)
    (MusicProvider.searchTrack Scenario.source).
End Served.

(** * Properties *)

(** ** The monad *)

Lemma bind_inv {S A B} (m : M S A) (k : A → M S B) s r s' :
  (m ≫= k) s = (r, s') →
  (∃ e, m s = (Threw e, s') ∧ r = Threw e) ∨ (∃ a s1, m s = (Ok a, s1) ∧ k a s1 = (r, s')).
Proof.
  unfold mbind, M_bind. destruct (m s) as [[a|e] s1]; [eauto|].
  intros [= <- <-]. eauto.
Qed.

Lemma bind_Ok {S A B} (m : M S A) (k : A → M S B) s b s' :
  (m ≫= k) s = (Ok b, s') → ∃ a s1, m s = (Ok a, s1) ∧ k a s1 = (Ok b, s').
Proof. intros [(e & _ & [=])|H]%bind_inv. exact H. Qed.

Lemma bind_Threw {S A B} (m : M S A) (k : A → M S B) s e s' :
  m s = (Threw e, s') → (m ≫= k) s = (Threw e, s').
Proof. unfold mbind, M_bind. by intros ->. Qed.

Lemma bind_step {S A B} (m : M S A) (k : A → M S B) s a s1 :
  m s = (Ok a, s1) → (m ≫= k) s = k a s1.
Proof. unfold mbind, M_bind. by intros ->. Qed.

(** ** The engine *)

Section engine_facts.
Context {W : Type}.
Variables sourceProvider targetProvider : MusicProvider.t W.
Variables sourceToken targetToken playlistId : string.
Variable onProgress : option (TransferProgress.t → M W ()).

Local Abbreviation notify := (Engine.notify onProgress).
Local Abbreviation delivered := (Engine.delivered onProgress).
Local Abbreviation matchTracks := (Engine.matchTracks targetProvider targetToken onProgress).
Local Abbreviation matchingEvents := (Engine.matchingEvents targetToken onProgress).
Local Abbreviation transferPlaylist :=
  (Engine.transferPlaylist sourceProvider targetProvider sourceToken targetToken playlistId
     onProgress).
Local Abbreviation runEvents :=
  (Engine.runEvents sourceProvider targetProvider sourceToken targetToken playlistId
     onProgress).
Local Abbreviation updated := Engine.updated.

(** Whatever the callback does, the event was handed to it, and the
    listing is as it was. *)
Lemma notify_any p (st st' : Engine.State) r :
  notify p st = (r, st') →
  Engine.playlists st' = Engine.playlists st ∧
  Engine.trace st' = Engine.trace st ++ delivered p.
Proof.
  unfold Engine.notify, Engine.delivered. destruct onProgress as [callback|].
  - intros [(e & He & _)|(? & s1 & He & H)]%bind_inv; [discriminate|].
    unfold Engine.emit, Engine.on_world in *.
    destruct (callback p _) as [r' w] eqn:?. by simplify_eq/=.
  - intros [= <- <-]. by rewrite app_nil_r.
Qed.

Lemma notify_run p (st : Engine.State) r w' :
  Engine.heard onProgress p (Engine.world st) = (r, w') →
  notify p st = (r, Engine.mkState w' (Engine.playlists st) (Engine.trace st ++ delivered p)).
Proof.
  unfold Engine.notify, Engine.heard, Engine.delivered. destruct onProgress as [callback|].
  - intros H. unfold mbind, M_bind, Engine.emit, Engine.on_world. simpl. by rewrite H.
  - intros [= <- <-]. destruct st. simpl. by rewrite app_nil_r.
Qed.

Lemma invoke_run {A} side call (answer : A → Answer) (m : M W A) (st : Engine.State) r w' :
  m (Engine.world st) = (r, w') →
  Engine.invoke side call answer m st =
    (r, Engine.mkState w' (Engine.playlists st)
          (Engine.trace st ++
             [Invoke side call match r with Ok a => answer a | Threw e => Rejected e end])).
Proof. unfold Engine.invoke. by intros ->. Qed.

Lemma invoke_any {A} side call (answer : A → Answer) (m : M W A) (st st' : Engine.State) r :
  Engine.invoke side call answer m st = (r, st') →
  m (Engine.world st) = (r, Engine.world st') ∧
  Engine.playlists st' = Engine.playlists st ∧
  Engine.trace st' = Engine.trace st ++
    [Invoke side call match r with Ok a => answer a | Threw e => Rejected e end].
Proof.
  unfold Engine.invoke. destruct (m _) as [r' w]. intros [= -> <-]. simpl. auto.
Qed.

(** The loop of step 4 when it runs to its end. *)
Lemma matchTracks_Ok total rest :
  ∀ i matched unmatched (st st' : Engine.State) matched' unmatched',
    matchTracks total i rest matched unmatched st = (Ok (matched', unmatched'), st') →
    ∃ results,
      results.*1 = rest ∧
      matched' = matched ++ omap snd results ∧
      unmatched' = unmatched ++ omap missed results ∧
      Engine.playlists st' = Engine.playlists st ∧
      Engine.trace st' = Engine.trace st ++ matchingEvents total i results.
Proof.
  induction rest as [|track rest IH]; intros i matched unmatched st st' matched' unmatched' H.
  - injection H as <- <- <-. exists []. by rewrite !app_nil_r.
  - simpl in H.
    apply bind_Ok in H as (? & s1 & (Hp1 & Ht1)%notify_any & H).
    apply bind_Ok in H as (found & s2 & (_ & Hp2 & Ht2)%invoke_any & H).
    destruct found as [found|]; apply IH in H as (results & <- & -> & -> & Hp & Ht).
    + exists ((track, Some found) :: results). simpl.
      rewrite Hp, Hp2, Hp1, Ht, Ht2, Ht1, <- !app_assoc. done.
    + exists ((track, None) :: results). simpl.
      rewrite Hp, Hp2, Hp1, Ht, Ht2, Ht1, <- !app_assoc. done.
Qed.

(** A run that returns: the listing, the playlist located in it, and the
    whole trace. *)
Lemma transfer_Ok (st st' : Engine.State) r :
  transferPlaylist st = (Ok r, st') →
  ∃ listing i p targetPlaylistId results counts,
    list_find (λ p, Playlist.id p = playlistId) listing = Some (i, p) ∧
    r = TransferResult.mk (updated results.*1 p) targetPlaylistId (omap snd results)
          (omap missed results) (len results.*1) ∧
    Engine.playlists st' = <[i := updated results.*1 p]> listing ∧
    Engine.trace st' = Engine.trace st ++ runEvents listing p targetPlaylistId results counts.
Proof.
  unfold Engine.transferPlaylist. intros H.
  apply bind_Ok in H as (? & s1 & (Hp1 & Ht1)%notify_any & H).
  apply bind_Ok in H as (listing & s2 & (_ & Hp2 & Ht2)%invoke_any & H).
  apply bind_Ok in H as (? & s3 & Hh & H).
  destruct (list_find _ listing) as [[i p]|] eqn:Hfind; [|discriminate].
  pose proof Hfind as (Hi & _)%list_find_Some.
  pose proof (lookup_lt_Some _ _ _ Hi) as Hlt.
  apply list_lookup_total_correct in Hi.
  injection Hh as _ <-.
  apply bind_Ok in H as (name & s4 & [= <- <-] & H); simpl in H.
  apply bind_Ok in H as (? & s5 & (Hp5 & Ht5)%notify_any & H).
  apply bind_Ok in H as (sourceTracks & s6 & (_ & Hp6 & Ht6)%invoke_any & H).
  apply bind_Ok in H as (? & s7 & [= _ <-] & H).
  apply bind_Ok in H as (? & s8 & [= _ <-] & H); simpl in H.
  apply bind_Ok in H as (name' & s9 & [= <- <-] & H); simpl in H.
  apply bind_Ok in H as (? & s10 & (Hp10 & Ht10)%notify_any & H).
  apply bind_Ok in H as (name'' & s11 & [= <- <-] & H).
  apply bind_Ok in H as (description & s12 & [= <- <-] & H).
  apply bind_Ok in H as (targetPlaylistId & s13 & (_ & Hp13 & Ht13)%invoke_any & H).
  apply bind_Ok in H as ([matched unmatched] & s14 & Hloop & H).
  apply matchTracks_Ok in Hloop as (results & <- & -> & -> & Hp14 & Ht14).
  apply bind_Ok in H as (? & s15 & (Hp15 & Ht15)%notify_any & H).
  apply bind_Ok in H as (counts & s16 & (_ & Hp16 & Ht16)%invoke_any & H).
  apply bind_Ok in H as (? & s17 & (Hp17 & Ht17)%notify_any & H).
  apply bind_Ok in H as (sp & s18 & [= <- <-] & H).
  injection H as <- <-.
  simpl in *.
  assert (Engine.playlists s10 = <[i := updated results.*1 p]> listing) as Hp.
  { rewrite Hp10, Hp6, Hp5, Hi.
    rewrite list_lookup_total_insert_eq by done.
    by rewrite list_insert_insert_eq. }
  assert (Engine.playlists s10 !!! i = updated results.*1 p) as Hi'.
  { rewrite Hp. by apply list_lookup_total_insert_eq. }
  exists listing, i, p, targetPlaylistId, results, counts.
  rewrite Hp17, Hp16, Hp15, Hp14, Hp13, Hi', Hp.
  split_and!; try done.
  rewrite Ht17, Ht16, Ht15, Ht14, Ht13, Ht10, Ht6, Ht5, Ht2, Ht1, Hi', Hp6, Hp5, Hi.
  rewrite list_lookup_total_insert_eq by (by rewrite length_insert).
  rewrite list_lookup_total_insert_eq by done.
  unfold Engine.runEvents. rewrite <- !app_assoc. done.
Qed.
End engine_facts.

(** ** Reading a trace *)

Section trace_facts.
Context {W : Type}.
Variables sourceProvider targetProvider : MusicProvider.t W.
Variables sourceToken targetToken playlistId : string.
Variable onProgress : option (TransferProgress.t → M W ()).

Local Abbreviation delivered := (Engine.delivered onProgress).
Local Abbreviation matchingEvents := (Engine.matchingEvents targetToken onProgress).

Lemma searches_delivered p : Engine.searches (delivered p) = [].
Proof. unfold Engine.delivered. by destruct onProgress. Qed.

Lemma created_delivered p : Engine.created (delivered p) = [].
Proof. unfold Engine.delivered. by destruct onProgress. Qed.

Lemma searches_matchingEvents total results :
  ∀ i, Engine.searches (matchingEvents total i results) = results.
Proof.
  induction results as [|[track found] results IH]; intros i; [done|]. simpl.
  unfold Engine.searches in *. rewrite omap_app, (searches_delivered _). simpl.
  by rewrite IH.
Qed.

Lemma searches_runEvents listing p targetPlaylistId results counts :
  Engine.searches
    (Engine.runEvents sourceProvider targetProvider sourceToken targetToken playlistId
       onProgress listing p targetPlaylistId results counts) = results.
Proof.
  unfold Engine.runEvents, Engine.searches.
  rewrite !omap_app, !(searches_delivered _), (searches_matchingEvents _ _ _). simpl.
  by rewrite app_nil_r.
Qed.
End trace_facts.

Lemma progress_of_matchingEvents {W} targetToken (callback : TransferProgress.t → M W ())
    total results :
  ∀ i, Engine.progress_of (Engine.matchingEvents targetToken (Some callback) total i results)
       = imap (λ k track, Engine.matchingEvent total (i + Z.of_nat k) track) results.*1.
Proof.
  induction results as [|[track found] results IH]; intros i; [done|]. simpl.
  rewrite Z.add_0_r. f_equal.
  unfold Engine.progress_of in *. rewrite IH. apply imap_ext. intros k t _. simpl.
  f_equal. lia.
Qed.

Lemma hits_and_misses (results : list (Track.t * option Track.t)) :
  len (omap snd results) + len (omap missed results) = len results.
Proof.
  unfold len, missed. induction results as [|[track [found|]] results IH]; csimpl in *; lia.
Qed.

(** ** The claims on the engine *)

Section engine_claims.
Context {W : Type}.
Variables sourceProvider targetProvider : MusicProvider.t W.
Variables sourceToken targetToken playlistId : string.

Local Abbreviation transferPlaylist :=
  (Engine.transferPlaylist sourceProvider targetProvider sourceToken targetToken playlistId).

(** C1. A run that returns a result has handed to [onProgress] exactly:
    fetching, reading, creating, one matching event per source track in
    source order (current the 1-based index, total the source track count,
    the message naming artist and track), transferring, complete. The
    source tracks are what [getPlaylistTracks] resolved to. *)
Theorem progress_sequence callback (w : W) r st' :
  transferPlaylist (Some callback) (Engine.init w) = (Ok r, st') →
  let sourcePlaylist := TransferResult.sourcePlaylist r in
  let sourceTracks := Playlist.tracks sourcePlaylist in
  let total := len sourceTracks in
  let matched := len (TransferResult.matched r) in
  let unmatched := len (TransferResult.unmatched r) in
  Invoke Source (GetPlaylistTracks sourceToken playlistId) (Tracks sourceTracks)
    ∈ Engine.trace st' ∧
  ∃ added,
    Engine.progress_of (Engine.trace st') =
      [TransferProgress.mk fetching 0 0 "Fetching playlist details...";
       TransferProgress.mk reading 0 0
         ("Reading tracks from " +:+ dquote +:+ Playlist.name sourcePlaylist +:+ dquote
          +:+ "...");
       TransferProgress.mk creating 0 total
         ("Creating " +:+ dquote +:+ Playlist.name sourcePlaylist +:+ dquote +:+ " on "
          +:+ MusicProvider.name targetProvider +:+ "...")]
      ++ imap (λ i track,
                 TransferProgress.mk matching (Z.of_nat i + 1) total
                   ("Matching: " +:+ Track.artist track +:+ " - " +:+ Track.name track))
           sourceTracks
      ++ [TransferProgress.mk transferring 0 matched
            ("Adding " +:+ show matched +:+ " tracks...");
          TransferProgress.mk complete matched total
            ("Done! " +:+ show added +:+ " added, " +:+ show unmatched +:+ " unmatched.")].
Proof.
  intros (listing & i & p & tid & results & counts & Hfind & -> & _ & Ht)%transfer_Ok.
  simpl in *. rewrite Ht. split.
  - unfold Engine.runEvents. set_solver.
  - exists (Counts.added counts).
    unfold Engine.runEvents, Engine.progress_of. rewrite !omap_app. simpl.
    f_equal. f_equal. f_equal. f_equal.
    apply (progress_of_matchingEvents targetToken callback _ results 0).
Qed.

(** C2. In a run that returns a result, every source track is in exactly
    one of [matched] (what [searchTrack] found for it) and [unmatched] (the
    track itself, when [searchTrack] found nothing), both in source order,
    and the two lengths add up to [totalTracks], the length of the list
    that [getPlaylistTracks] resolved to. *)
Theorem matched_or_unmatched onProgress (w : W) r st' :
  transferPlaylist onProgress (Engine.init w) = (Ok r, st') →
  ∃ sourceTracks,
    Invoke Source (GetPlaylistTracks sourceToken playlistId) (Tracks sourceTracks)
      ∈ Engine.trace st' ∧
    let results := Engine.searches (Engine.trace st') in
    results.*1 = sourceTracks ∧
    TransferResult.matched r = omap snd results ∧
    TransferResult.unmatched r = omap missed results ∧
    TransferResult.totalTracks r = len sourceTracks ∧
    len (TransferResult.matched r) + len (TransferResult.unmatched r)
      = TransferResult.totalTracks r.
Proof.
  intros (listing & i & p & tid & results & counts & Hfind & -> & _ & Ht)%transfer_Ok.
  exists results.*1. simpl in *. rewrite Ht, searches_runEvents.
  split_and!; try done.
  - unfold Engine.runEvents. set_solver.
  - rewrite hits_and_misses. unfold len. by rewrite length_fmap.
Qed.

(** C10. A run that returns a result has written the [tracks] and the
    [trackCount] of the located playlist, and nothing else: the other
    fields of the located playlist, and every other playlist of the
    listing, are as [getPlaylists] resolved them. *)
Theorem only_tracks_written onProgress (w : W) r st' :
  transferPlaylist onProgress (Engine.init w) = (Ok r, st') →
  ∃ listing i p sourceTracks,
    Invoke Source (GetPlaylists sourceToken) (Playlists listing) ∈ Engine.trace st' ∧
    Invoke Source (GetPlaylistTracks sourceToken playlistId) (Tracks sourceTracks)
      ∈ Engine.trace st' ∧
    list_find (λ p, Playlist.id p = playlistId) listing = Some (i, p) ∧
    let sourcePlaylist := TransferResult.sourcePlaylist r in
    Playlist.tracks sourcePlaylist = sourceTracks ∧
    Playlist.trackCount sourcePlaylist = len sourceTracks ∧
    Playlist.id sourcePlaylist = Playlist.id p ∧
    Playlist.name sourcePlaylist = Playlist.name p ∧
    Playlist.description sourcePlaylist = Playlist.description p ∧
    Playlist.imageUrl sourcePlaylist = Playlist.imageUrl p ∧
    Engine.playlists st' !! i = Some sourcePlaylist ∧
    length (Engine.playlists st') = length listing ∧
    ∀ j, j ≠ i → Engine.playlists st' !! j = listing !! j.
Proof.
  intros (listing & i & p & tid & results & counts & Hfind & -> & Hp & Ht)%transfer_Ok.
  exists listing, i, p, results.*1. simpl in *. rewrite Ht, Hp.
  pose proof Hfind as (Hi%lookup_lt_Some & _)%list_find_Some.
  split_and!; try done.
  - unfold Engine.runEvents. set_solver.
  - unfold Engine.runEvents. set_solver.
  - by apply list_lookup_insert_eq.
  - by rewrite length_insert.
  - intros j Hj. by apply list_lookup_insert_ne.
Qed.

(** C3. When the listing that [getPlaylists] resolves to has no playlist
    with the requested id, the run fails with the not-found error; the only
    progress event handed over is the fetching one, and no method of the
    target adapter is called: the only call is [getPlaylists] on the
    source. *)
Theorem playlist_not_found onProgress (w w1 w2 : W) listing :
  Engine.heard onProgress Engine.fetchingEvent w = (Ok (), w1) →
  MusicProvider.getPlaylists sourceProvider sourceToken w1 = (Ok listing, w2) →
  Forall (λ p, Playlist.id p ≠ playlistId) listing →
  ∃ st',
    transferPlaylist onProgress (Engine.init w)
      = (Threw (Error ("Playlist " +:+ playlistId +:+ " not found")), st') ∧
    Engine.world st' = w2 ∧
    Engine.trace st' =
      Engine.delivered onProgress Engine.fetchingEvent
      ++ [Invoke Source (GetPlaylists sourceToken) (Playlists listing)] ∧
    (∀ p, Progress p ∈ Engine.trace st' → TransferProgress.phase p = fetching) ∧
    (∀ call answer, Invoke Target call answer ∉ Engine.trace st').
Proof.
  intros Hheard Hlist Hnone.
  apply (list_find_None (λ p, Playlist.id p = playlistId)) in Hnone.
  eexists. split.
  - unfold Engine.transferPlaylist.
    erewrite bind_step by (apply notify_run; exact Hheard).
    erewrite bind_step by (apply invoke_run; exact Hlist).
    erewrite bind_step by reflexivity.
    rewrite Hnone. reflexivity.
  - simpl. split_and!; try done.
    + intros p. unfold Engine.delivered.
      destruct onProgress; simpl; intros H;
        repeat (apply elem_of_cons in H as [H|H]; [by simplify_eq/=|]);
        by apply elem_of_nil in H.
    + intros call answer. unfold Engine.delivered.
      destruct onProgress; simpl; intros H;
        repeat (apply elem_of_cons in H as [H|H]; [by simplify_eq/=|]);
        by apply elem_of_nil in H.
Qed.
End engine_claims.

(** ** Where the target playlist is created *)

Section creation.
Context {W : Type}.
Variables sourceProvider targetProvider : MusicProvider.t W.
Variables sourceToken targetToken playlistId : string.
Variable onProgress : option (TransferProgress.t → M W ()).

Local Abbreviation State := (@Engine.State W).
Local Abbreviation creates_nothing := Engine.creates_nothing.

Lemma creates_nothing_ret {A} (a : A) : creates_nothing (mret a : M State A).
Proof. intros st r st' [= <- <-]. exists []. by rewrite app_nil_r. Qed.

Lemma creates_nothing_throw {A} e : creates_nothing (throw e : M State A).
Proof. intros st r st' [= <- <-]. exists []. by rewrite app_nil_r. Qed.

Lemma creates_nothing_bind {A B} (m : M State A) (k : A → M State B) :
  creates_nothing m → (∀ a, creates_nothing (k a)) → creates_nothing (m ≫= k).
Proof.
  intros Hm Hk st r st' [(e & H & ->)|(a & s1 & H & H')]%bind_inv.
  - by apply Hm in H.
  - apply Hm in H as (evs & E & Hevs). apply Hk in H' as (evs' & E' & Hevs').
    exists (evs ++ evs'). rewrite E', E, app_assoc. split; [done|].
    unfold Engine.created in *. by rewrite omap_app, Hevs, Hevs'.
Qed.

Lemma creates_nothing_notify p : creates_nothing (Engine.notify onProgress p).
Proof.
  intros st r st' (_ & E)%notify_any. eexists. split; [exact E|]. apply created_delivered.
Qed.

Lemma creates_nothing_invoke {A} side call (answer : A → Answer) (m : M W A) :
  (∀ a, Engine.created [Invoke side call a] = []) →
  creates_nothing (Engine.invoke side call answer m).
Proof. intros Hc st r st' (_ & _ & E)%invoke_any. eexists. split; [exact E|]. apply Hc. Qed.

Lemma creates_nothing_field {A} i (f : Playlist.t → A) :
  Engine.creates_nothing (W := W) (Engine.field i f).
Proof. intros st r st' [= <- <-]. exists []. by rewrite app_nil_r. Qed.

Lemma creates_nothing_assign i f : Engine.creates_nothing (W := W) (Engine.assign i f).
Proof. intros st r st' [= <- <-]. exists []. simpl. by rewrite app_nil_r. Qed.

Lemma creates_nothing_hold ps : Engine.creates_nothing (W := W) (Engine.hold ps).
Proof. intros st r st' [= <- <-]. exists []. simpl. by rewrite app_nil_r. Qed.

Lemma creates_nothing_matchTracks total rest :
  ∀ i matched unmatched,
    creates_nothing
      (Engine.matchTracks targetProvider targetToken onProgress total i rest matched unmatched).
Proof.
  induction rest as [|track rest IH]; intros i matched unmatched; simpl.
  - apply creates_nothing_ret.
  - apply creates_nothing_bind; [apply creates_nothing_notify|intros _].
    apply creates_nothing_bind; [by apply creates_nothing_invoke|intros [found|]]; apply IH.
Qed.


Create HintDb creation.
#[local] Hint Resolve creates_nothing_ret creates_nothing_throw creates_nothing_notify
  creates_nothing_field creates_nothing_assign creates_nothing_hold
  creates_nothing_matchTracks : creation.



End creation.

(** ** What the result depends on *)

Section result.
Context {W : Type}.
Variables sourceProvider targetProvider : MusicProvider.t W.
Variables sourceToken targetToken playlistId : string.
Variable onProgress : option (TransferProgress.t → M W ()).

Local Ltac lockstep H1 H2 E1 E2 :=
  apply bind_Ok in H1 as (? & ? & E1 & H1);
  apply bind_Ok in H2 as (? & ? & E2 & H2);
  let E := fresh in pose proof (eq_trans (eq_sym E1) E2) as E;
  injection E as ? ?; subst; clear E1 E2.

(** C6. Two runs from the same world with the same adapters, apart from
    what [addTracks] of the target does and resolves to, return the same
    result when both return one: the counts of [addTracks] are not in the
    result, and [matched] is what the searches found. *)
Theorem result_ignores_counts add' (w : W) r1 st1 r2 st2 :
  Engine.transferPlaylist sourceProvider targetProvider
    sourceToken targetToken playlistId onProgress (Engine.init w) = (Ok r1, st1) →
  Engine.transferPlaylist sourceProvider (MusicProvider.with_addTracks add' targetProvider)
    sourceToken targetToken playlistId onProgress (Engine.init w) = (Ok r2, st2) →
  r1 = r2.
Proof.
  unfold Engine.transferPlaylist. generalize (Engine.init w). intros s H1 H2.
  lockstep H1 H2 E1 E2.
  lockstep H1 H2 E1 E2.
  lockstep H1 H2 E1 E2.
  destruct (list_find _ _) as [[i p]|]; [|discriminate].
  do 10 (lockstep H1 H2 E1 E2).
  lockstep H1 H2 E1 E2.
  match goal with
  | x : (list Track.t * list Track.t)%type |- _ => destruct x as [matched unmatched]
  end.
  lockstep H1 H2 E1 E2.
  apply bind_Ok in H1 as (c1 & s1' & (_ & Hp1 & _)%invoke_any & H1).
  apply bind_Ok in H2 as (c2 & s2' & (_ & Hp2 & _)%invoke_any & H2).
  apply bind_Ok in H1 as (? & s1'' & (Hp1' & _)%notify_any & H1).
  apply bind_Ok in H2 as (? & s2'' & (Hp2' & _)%notify_any & H2).
  apply bind_Ok in H1 as (? & ? & [= <- <-] & [= <- <-]).
  apply bind_Ok in H2 as (? & ? & [= <- <-] & [= <- <-]).
  by rewrite Hp1', Hp1, Hp2', Hp2.
Qed.
End result.

(** ** The scenario, run *)

Lemma progress_sequence_witness :
  ∃ r st',
    Scenario.run Scenario.target "p1" = (Ok r, st') ∧
    TransferProgress.phase <$> Engine.progress_of (Engine.trace st') =
      [fetching; reading; creating; matching; matching; matching; transferring; complete] ∧
    TransferProgress.current <$> Engine.progress_of (Engine.trace st') = [0; 0; 0; 1; 2; 3; 0; 2] ∧
    TransferProgress.total <$> Engine.progress_of (Engine.trace st') = [0; 0; 3; 3; 3; 3; 2; 3].
Proof.
  eassert (Scenario.run Scenario.target "p1" = (Ok _, _)) as H by (vm_compute; reflexivity).
  eexists _, _. split; [exact H|].
  pose proof (progress_sequence _ _ _ _ _ _ _ _ _ H) as Hp.
  cbv zeta in Hp. destruct Hp as (_ & added & Hp).
  rewrite Hp. vm_compute. split_and!; reflexivity.
Defined.

Lemma matched_or_unmatched_witness :
  ∃ r st',
    Scenario.run Scenario.target "p1" = (Ok r, st') ∧
    TransferResult.matched r
      = [Scenario.onTarget Scenario.alpha; Scenario.onTarget Scenario.gamma] ∧
    TransferResult.unmatched r = [Scenario.beta] ∧
    TransferResult.totalTracks r = 3.
Proof.
  eassert (Scenario.run Scenario.target "p1" = (Ok _, _)) as H by (vm_compute; reflexivity).
  eexists _, _. split; [exact H|].
  pose proof (matched_or_unmatched _ _ _ _ _ _ _ _ _ H) as Hp.
  cbv zeta in Hp. destruct Hp as (tracks & _ & _ & Hm & Hu & _ & Hsum).
  rewrite Hm, Hu. vm_compute. split_and!; reflexivity.
Defined.

Lemma only_tracks_written_witness :
  ∃ r st',
    Scenario.run Scenario.target "p1" = (Ok r, st') ∧
    Engine.playlists st' !! 0%nat = Some Scenario.mixtape ∧
    Engine.playlists st' !! 1%nat = Some (TransferResult.sourcePlaylist r) ∧
    Playlist.description (TransferResult.sourcePlaylist r) = Some "For the car".
Proof.
  eassert (Scenario.run Scenario.target "p1" = (Ok _, _)) as H by (vm_compute; reflexivity).
  eexists _, _. split; [exact H|].
  pose proof (only_tracks_written _ _ _ _ _ _ _ _ _ H) as Hp.
  cbv zeta in Hp. destruct Hp as (listing & i & p & tracks & _).
  vm_compute. split_and!; reflexivity.
Defined.

Lemma playlist_not_found_witness :
  Engine.heard (Some Scenario.quiet) Engine.fetchingEvent 0%nat = (Ok (), 0%nat) ∧
  MusicProvider.getPlaylists Scenario.source "source-token" 0%nat
    = (Ok [Scenario.mixtape; Scenario.roadtrip], 0%nat) ∧
  Forall (λ p, Playlist.id p ≠ "p9") [Scenario.mixtape; Scenario.roadtrip] ∧
  ∃ st',
    Scenario.run Scenario.target "p9" = (Threw (Error "Playlist p9 not found"), st') ∧
    Engine.trace st' =
      [Progress Engine.fetchingEvent;
       Invoke Source (GetPlaylists "source-token")
         (Playlists [Scenario.mixtape; Scenario.roadtrip])].
Proof.
  assert (Forall (λ p, Playlist.id p ≠ "p9") [Scenario.mixtape; Scenario.roadtrip]) as Hno
    by (repeat constructor; discriminate).
  split_and!; [done|done|exact Hno|].
  destruct (playlist_not_found Scenario.source Scenario.target "source-token" "target-token"
              "p9" (Some Scenario.quiet) 0%nat 0%nat 0%nat _ eq_refl eq_refl Hno)
    as (st' & H & _ & Ht & _).
  exists st'. split; [exact H|exact Ht].
Defined.

Lemma result_ignores_counts_witness :
  ∃ r1 st1 r2 st2,
    Scenario.run Scenario.target "p1" = (Ok r1, st1) ∧
    Scenario.run (MusicProvider.with_addTracks Scenario.rejectAll Scenario.target) "p1"
      = (Ok r2, st2) ∧
    Invoke Target (AddTracks "target-token" "new-0" (TransferResult.matched r1))
      (Counted (Counts.mk 2 0)) ∈ Engine.trace st1 ∧
    Invoke Target (AddTracks "target-token" "new-0" (TransferResult.matched r2))
      (Counted (Counts.mk 0 2)) ∈ Engine.trace st2 ∧
    r1 = r2.
Proof.
  eassert (Scenario.run Scenario.target "p1" = (Ok _, _)) as H1 by (vm_compute; reflexivity).
  eassert (Scenario.run (MusicProvider.with_addTracks Scenario.rejectAll Scenario.target) "p1"
           = (Ok _, _)) as H2 by (vm_compute; reflexivity).
  eexists _, _, _, _. split; [exact H1|]. split; [exact H2|].
  split_and!;
    [vm_compute; repeat first [apply list_elem_of_here|apply list_elem_of_further]..|].
  exact (result_ignores_counts _ _ _ _ _ _ _ _ _ _ _ _ H1 H2).
Defined.

(** ** The adapters *)

Lemma mapM_Ok_length {S A B} (f : A → M S B) (l : list A) :
  ∀ s ys s', mapM f l s = (Ok ys, s') → length ys = length l.
Proof.
  induction l as [|x l IH]; intros s ys s' H.
  - by injection H as <- _.
  - simpl in H.
    apply bind_Ok in H as (y & s1 & _ & H).
    apply bind_Ok in H as (k & s2 & Hk%IH & H).
    injection H as <- _. simpl. by rewrite Hk.
Qed.

Lemma omap_id_length {A} (l : list (option A)) : (length (omap id l) ≤ length l)%nat.
Proof. induction l as [|[x|] l IH]; csimpl; lia. Qed.

Section spotify_facts.
Context {P : Type}.
Variable respond : Http.Request → M P (Http.Response (option SpotifyProvider.Body)).

(** The loop over the batches counts every uri from index [i] on, once. *)
Lemma addBatches_Ok token playlistId validUris i added failed n counts n' :
  0 ≤ added → 0 ≤ failed →
  SpotifyProvider.addBatches respond token playlistId validUris i added failed n = (Ok counts, n') →
  0 ≤ Counts.added counts ∧ 0 ≤ Counts.failed counts ∧
  Counts.added counts + Counts.failed counts
    = added + failed + Z.of_nat (length validUris - i).
Proof.
  revert n counts n'.
  funelim (SpotifyProvider.addBatches respond token playlistId validUris i added failed);
    intros n0 counts n' Ha Hf Hrun.
  - apply bind_Ok in Hrun as (response & n1 & _ & Hrun).
    assert (len (take 100 (drop i validUris)) = Z.of_nat (100 `min` (length validUris - i)))
      as Hbatch by (unfold len; by rewrite length_take, length_drop).
    destruct (Http.ok response).
    + destruct (H response n1 _ _ _ ltac:(unfold len in *; lia) Hf Hrun) as (? & ? & ?). lia.
    + destruct (H0 response n1 _ _ _ Ha ltac:(unfold len in *; lia) Hrun) as (? & ? & ?). lia.
  - injection Hrun as <- _. simpl. lia.
Qed.

Lemma lookups_Ok token tracks n hits n' :
  SpotifyProvider.lookups respond token tracks n = (Ok hits, n') →
  length hits = length tracks.
Proof.
  unfold SpotifyProvider.lookups. intros H.
  apply bind_Ok in H as (first & n1 & Hfirst%mapM_Ok_length & H).
  apply bind_Ok in H as (second & n2 & Hsecond%mapM_Ok_length & H).
  destruct (SpotifyProvider.rejection second); [discriminate|].
  injection H as <- _. rewrite length_fmap, Hsecond, length_zip. lia.
Qed.

Lemma spotify_counts : counts_add_up (SpotifyProvider.addTracks respond).
Proof.
  intros token playlistId tracks n counts n' H. unfold SpotifyProvider.addTracks in H.
  apply bind_Ok in H as (hits & n1 & Hhits%lookups_Ok & H).
  pose proof (omap_id_length
                (fmap (M := list) (fmap (M := option)
                   (λ hit, "spotify:track:" +:+ Track.id hit)) hits)) as Hle.
  rewrite length_fmap in Hle.
  apply addBatches_Ok in H; unfold len in *; rewrite ?length_fmap in *; lia.
Qed.

Lemma spotify_empty : adds_nothing_on_empty (SpotifyProvider.addTracks respond).
Proof.
  intros token playlistId n. unfold SpotifyProvider.addTracks, SpotifyProvider.lookups.
  simpl. unfold mbind, M_bind, mret, M_ret. simpl. by simp addBatches.
Qed.
End spotify_facts.

Section youtube_facts.
Context {P : Type}.
Variable respond : Http.Request → M P (Http.Response (option YouTubeMusicProvider.Body)).

Lemma addEach_Ok token playlistId tracks :
  ∀ added failed n counts n',
    0 ≤ added → 0 ≤ failed →
    YouTubeMusicProvider.addEach respond token playlistId tracks added failed n = (Ok counts, n') →
    0 ≤ Counts.added counts ∧ 0 ≤ Counts.failed counts ∧
    Counts.added counts + Counts.failed counts = added + failed + len tracks.
Proof.
  unfold len. induction tracks as [|track tracks IH]; intros added failed n counts n' Ha Hf H.
  - injection H as <- _. simpl. lia.
  - simpl in H. apply bind_Ok in H as ([found|] & n1 & _ & H).
    + apply bind_Ok in H as (response & n2 & _ & H).
      destruct (Http.ok response); apply IH in H; simpl; lia.
    + apply IH in H; simpl; lia.
Qed.

Lemma youtube_counts : counts_add_up (YouTubeMusicProvider.addTracks respond).
Proof.
  intros token playlistId tracks n counts n' H. by apply addEach_Ok in H.
Qed.

Lemma youtube_empty : adds_nothing_on_empty (YouTubeMusicProvider.addTracks respond).
Proof. done. Qed.
End youtube_facts.

Section kkbox_facts.
Context {P : Type}.
Variable KKBOX_TERRITORY : string.
Variable respond : Http.Request → M P (Http.Response (option KKBoxProvider.Body)).

Lemma kkbox_resolve_Ok token tracks :
  ∀ resolvedTracks failed n resolvedTracks' failed' n',
    KKBoxProvider.resolve KKBOX_TERRITORY respond token tracks resolvedTracks failed n
      = (Ok (resolvedTracks', failed'), n') →
    failed ≤ failed' ∧
    len resolvedTracks' + failed' = len resolvedTracks + failed + len tracks.
Proof.
  unfold len. induction tracks as [|track tracks IH];
    intros resolvedTracks failed n resolvedTracks' failed' n' H.
  - injection H as <- <- _. simpl. lia.
  - simpl in H. apply bind_Ok in H as ([found|] & n1 & _ & H); apply IH in H.
    + rewrite length_app in H. simpl in *. lia.
    + simpl. lia.
Qed.

Lemma kkbox_counts : counts_add_up (KKBoxProvider.addTracks KKBOX_TERRITORY respond).
Proof.
  intros token playlistId tracks n counts n' H. unfold KKBoxProvider.addTracks in H.
  apply bind_Ok in H as ([resolvedTracks failed] & n1 & Hr%kkbox_resolve_Ok & H).
  unfold len in *. simpl in Hr. case_bool_decide.
  - apply bind_Ok in H as (response & n2 & _ & H).
    destruct (Http.ok response); injection H as <- _; simpl; lia.
  - injection H as <- _; simpl; lia.
Qed.

Lemma kkbox_empty : adds_nothing_on_empty (KKBoxProvider.addTracks KKBOX_TERRITORY respond).
Proof. done. Qed.
End kkbox_facts.

Section apple_facts.
Context {P : Type}.
Variable generateDeveloperToken : M P string.
Variable respond : Http.Request → M P (Http.Response (option AppleMusicProvider.Body)).

Lemma apple_resolve_Ok token tracks :
  ∀ resolvedTracks failed n resolvedTracks' failed' n',
    AppleMusicProvider.resolve generateDeveloperToken respond token tracks resolvedTracks failed n
      = (Ok (resolvedTracks', failed'), n') →
    failed ≤ failed' ∧
    len resolvedTracks' + failed' = len resolvedTracks + failed + len tracks.
Proof.
  unfold len. induction tracks as [|track tracks IH];
    intros resolvedTracks failed n resolvedTracks' failed' n' H.
  - injection H as <- <- _. simpl. lia.
  - simpl in H. apply bind_Ok in H as ([found|] & n1 & _ & H); apply IH in H.
    + rewrite length_app in H. simpl in *. lia.
    + simpl. lia.
Qed.

Lemma apple_counts :
  counts_add_up (AppleMusicProvider.addTracks generateDeveloperToken respond).
Proof.
  intros token playlistId tracks n counts n' H. unfold AppleMusicProvider.addTracks in H.
  apply bind_Ok in H as ([resolvedTracks failed] & n1 & Hr%apple_resolve_Ok & H).
  unfold len in *. simpl in Hr. case_bool_decide.
  - apply bind_Ok in H as (headers & n2 & _ & H).
    apply bind_Ok in H as (response & n3 & _ & H).
    destruct (Http.ok response); injection H as <- _; simpl; lia.
  - injection H as <- _; simpl; lia.
Qed.

Lemma apple_empty :
  adds_nothing_on_empty (AppleMusicProvider.addTracks generateDeveloperToken respond).
Proof. done. Qed.
End apple_facts.

(** *** [searchTrack] *)

Lemma settled_bind {S A C} (r : Result A) (k : A → M S C) s :
  (settled r ≫= k) s = match r with Ok a => k a s | Threw e => (Threw e, s) end.
Proof. unfold mbind, M_bind, settled. by destruct r. Qed.

Section http_facts.
Context {P B : Type}.
Variable respond : Http.Request → M P (Http.Response B).

Lemma fetch_inv req n r n' :
  Http.fetch respond req n = (r, n') →
  respond req (Http.platform n) = (r, Http.platform n') ∧
  n' = Http.mkNet (Http.platform n') (Http.sent n ++ [req]).
Proof.
  unfold Http.fetch. destruct (respond req _) as [r' p]. by intros [= -> <-].
Qed.

Lemma fetch_run req n r p' :
  respond req (Http.platform n) = (r, p') →
  Http.fetch respond req n = (r, Http.mkNet p' (Http.sent n ++ [req])).
Proof. unfold Http.fetch. by intros ->. Qed.

Lemma fetch_bind {A} req (k : Http.Response B → M (Http.Net P) A) n :
  (Http.fetch respond req ≫= k) n =
  match respond req (Http.platform n) with
  | (Ok response, p1) => k response (Http.mkNet p1 (Http.sent n ++ [req]))
  | (Threw e, p1) => (Threw e, Http.mkNet p1 (Http.sent n ++ [req]))
  end.
Proof.
  unfold mbind, M_bind, Http.fetch. by destruct (respond req _) as [[response|e] p1].
Qed.

Lemma decode_bind {A} (response : Http.Response B) (k : B → M (Http.Net P) A) n :
  (Http.decode response ≫= k) n =
  match Http.json response with
  | Some data => k data n
  | None => (Threw (SyntaxError "Unexpected token in JSON"), n)
  end.
Proof.
  unfold Http.decode, Http.parsed. rewrite settled_bind. by destruct (Http.json response).
Qed.

Lemma decode_inv (response : Http.Response B) (n : Http.Net P) r n' :
  Http.decode response n = (r, n') →
  n' = n ∧
  match Http.json response with
  | Some data => r = Ok data
  | None => r = Threw (SyntaxError "Unexpected token in JSON")
  end.
Proof.
  unfold Http.decode, Http.parsed, settled. destruct (Http.json response); by intros [= <- <-].
Qed.

Lemma decode_run (response : Http.Response B) data (n : Http.Net P) :
  Http.json response = Some data → Http.decode response n = (Ok data, n).
Proof. unfold Http.decode, Http.parsed, settled. by intros ->. Qed.

Lemma failed_fetch req p e p' :
  respond req p = (Threw e, p') → transport_failure respond e.
Proof. intros H. exists req, p, p'. by left. Qed.

Lemma failed_decode req p response p' :
  respond req p = (Ok response, p') → Http.json response = None →
  transport_failure respond (SyntaxError "Unexpected token in JSON").
Proof. intros H Hj. exists req, p, p'. right. by exists response. Qed.

Lemma failed_read {A} (reading : B → Result A → Prop) req p response p' data e :
  respond req p = (Ok response, p') → Http.json response = Some data →
  reading data (Threw e) → unreadable_body respond reading e.
Proof. intros H Hj Hr. by exists req, p, response, p', data. Qed.




(** The same for a call that has just sent [req]. *)
Lemma fetch_failed_at req (n : Http.Net P) e p' :
  respond req (Http.platform n) = (Threw e, p') →
  failed_at respond (Http.mkNet p' (Http.sent n ++ [req])) e.
Proof. intros H. exists req, (Http.platform n). split; [apply last_snoc|by left]. Qed.

Lemma decode_failed_at req (n : Http.Net P) response p' :
  respond req (Http.platform n) = (Ok response, p') → Http.json response = None →
  failed_at respond (Http.mkNet p' (Http.sent n ++ [req]))
    (SyntaxError "Unexpected token in JSON").
Proof.
  intros H Hj. exists req, (Http.platform n). split; [apply last_snoc|].
  right. by exists response.
Qed.

Lemma read_failed_at {A} (reading : B → Result A → Prop) req (n : Http.Net P) response p'
    data e :
  respond req (Http.platform n) = (Ok response, p') → Http.json response = Some data →
  reading data (Threw e) →
  unreadable_at respond reading (Http.mkNet p' (Http.sent n ++ [req])) e.
Proof.
  intros H Hj Hr. exists req, (Http.platform n), response, data.
  split; [apply last_snoc|done].
Qed.


Lemma decode_failure req n response n1 (n2 : Http.Net P) e n' :
  Http.fetch respond req n = (Ok response, n1) →
  Http.decode response n2 = (Threw e, n') →
  transport_failure respond e.
Proof.
  intros [H _]%fetch_inv [_ Hd]%decode_inv.
  destruct (Http.json response) eqn:Hj; [discriminate|]. injection Hd as ->.
  by eapply failed_decode.
Qed.
End http_facts.

(** The steps of a call, one by one. *)
Ltac steps :=
  repeat first [rewrite fetch_bind | rewrite decode_bind | rewrite settled_bind
               | progress cbv beta iota | progress cbn [Http.platform Http.sent]].
Ltac steps_in H :=
  repeat first [rewrite fetch_bind in H | rewrite decode_bind in H | rewrite settled_bind in H
               | progress cbv beta iota in H
               | progress cbn [Http.platform Http.sent] in H].
Tactic Notation "step" constr(E) := steps; rewrite E; steps.

(** Why a call rejected. *)
Ltac cause :=
  first [ left; by eauto using fetch_failed_at, decode_failed_at
        | right; left; eapply read_failed_at; [eassumption..|]; by eauto ].

Section spotify_search.
Context {P : Type}.
Variable respond : Http.Request → M P (Http.Response (option SpotifyProvider.Body)).
Import SpotifyProvider.

Local Abbreviation reading := (λ data r, found data = r).








End spotify_search.

Section youtube_search.
Context {P : Type}.
Variable respond : Http.Request → M P (Http.Response (option YouTubeMusicProvider.Body)).
Import YouTubeMusicProvider.

Local Abbreviation reading := (λ data r, ∃ track, found track data = r).



(** Whatever the track carries, one request is sent: the text search. *)
Lemma youtube_text_only token track n r n' :
  searchTrack respond token track n = (r, n') →
  Http.sent n' = Http.sent n ++
    [search
       (encodeURIComponent
          (if truthy (Some (Track.artist track))
           then Track.artist track +:+ " " +:+ Track.name track
           else Track.name track)) token].
Proof.
  unfold searchTrack. intros H. steps_in H. fold (byText token track).
  destruct (respond _ _) as [[response|e1] p1]; [|by injection H as _ <-].
  steps_in H. unfold settled in H.
  destruct (Http.json response); by injection H as _ <-.
Qed.


End youtube_search.

Section kkbox_search.
Context {P : Type}.
Variable KKBOX_TERRITORY : string.
Variable respond : Http.Request → M P (Http.Response (option KKBoxProvider.Body)).
Import KKBoxProvider.

Local Abbreviation reading := (λ data r, found data = r).
Local Abbreviation searchTrack := (searchTrack KKBOX_TERRITORY respond).
Local Abbreviation byText := (byText KKBOX_TERRITORY).






End kkbox_search.

Section apple_search.
Context {P : Type}.
Variable generateDeveloperToken : M P string.
Variable respond : Http.Request → M P (Http.Response (option AppleMusicProvider.Body)).
Import AppleMusicProvider.

Local Abbreviation reading := (λ data r, foundByIsrc data = r ∨ foundByText data = r).
Local Abbreviation no_token := (λ e, ∃ p p', generateDeveloperToken p = (Threw e, p')).
Local Abbreviation searchTrack := (searchTrack generateDeveloperToken respond).

Lemma getHeaders_inv token n r n' :
  getHeaders generateDeveloperToken token n = (r, n') →
  Http.sent n' = Http.sent n ∧
  match r with
  | Ok headers =>
      ∃ developerToken,
        generateDeveloperToken (Http.platform n) = (Ok developerToken, Http.platform n') ∧
        headers = [Http.bearer developerToken; ("Music-User-Token", token);
                   Http.content_type "application/json"]
  | Threw e => generateDeveloperToken (Http.platform n) = (Threw e, Http.platform n')
  end.
Proof.
  unfold getHeaders.
  destruct (generateDeveloperToken _) as [[developerToken|e] p].
  - intros [= <- <-]. eauto.
  - by intros [= <- <-].
Qed.










End apple_search.

(** ** The claims on the adapters *)

Section adapter_claims.
Context {P1 P2 P3 P4 : Type}.
Variable spotify : Http.Request → M P1 (Http.Response (option SpotifyProvider.Body)).
Variable youtube : Http.Request → M P2 (Http.Response (option YouTubeMusicProvider.Body)).
Variable KKBOX_TERRITORY : string.
Variable kkbox : Http.Request → M P3 (Http.Response (option KKBoxProvider.Body)).
Variable generateDeveloperToken : M P4 string.
Variable apple : Http.Request → M P4 (Http.Response (option AppleMusicProvider.Body)).


(** C5. Whenever [addTracks] of an adapter resolves, the two counts are
    not negative and add up to the number of input tracks. *)
Theorem addTracks_counts :
  counts_add_up (SpotifyProvider.addTracks spotify) ∧
  counts_add_up (YouTubeMusicProvider.addTracks youtube) ∧
  counts_add_up (KKBoxProvider.addTracks KKBOX_TERRITORY kkbox) ∧
  counts_add_up (AppleMusicProvider.addTracks generateDeveloperToken apple).
Proof.
  split_and!;
    [apply spotify_counts|apply youtube_counts|apply kkbox_counts|apply apple_counts].
Qed.


(** C8. On the empty list [addTracks] of an adapter sends no request and
    resolves to zero added, zero failed. *)
Theorem addTracks_empty :
  adds_nothing_on_empty (SpotifyProvider.addTracks spotify) ∧
  adds_nothing_on_empty (YouTubeMusicProvider.addTracks youtube) ∧
  adds_nothing_on_empty (KKBoxProvider.addTracks KKBOX_TERRITORY kkbox) ∧
  adds_nothing_on_empty (AppleMusicProvider.addTracks generateDeveloperToken apple).
Proof.
  split_and!;
    [apply spotify_empty|apply youtube_empty|apply kkbox_empty|apply apple_empty].
Qed.
End adapter_claims.

(** *** The adapters on the platforms of the scenario *)



Lemma addTracks_counts_witness :
  ∃ counts n',
    SpotifyProvider.addTracks Scenario.spotify "token" "playlist" [Scenario.asked; Scenario.alpha]
      Scenario.start = (Ok counts, n') ∧
    Counts.added counts + Counts.failed counts = 2.
Proof.
  eassert (SpotifyProvider.addTracks Scenario.spotify "token" "playlist"
             [Scenario.asked; Scenario.alpha] Scenario.start = (Ok _, _)) as H
    by (vm_compute; reflexivity).
  eexists _, _. split; [exact H|].
  exact (proj2 (proj2 (proj1 (addTracks_counts Scenario.spotify Scenario.youtube "TW"
                                Scenario.kkbox Scenario.developerToken Scenario.apple)
                         _ _ _ _ _ _ H))).
Defined.



(** ** Runs that are cut short *)

Lemma unsearched_fst (rest : list Track.t) : ((λ t, (t, None : option Track.t)) <$> rest).*1 = rest.
Proof. induction rest as [|t rest IH]; [done|]. csimpl. by f_equal. Qed.

Section engine_failures.
Context {W : Type}.
Variables sourceProvider targetProvider : MusicProvider.t W.
Variables sourceToken targetToken playlistId : string.
Variable onProgress : option (TransferProgress.t → M W ()).

Local Abbreviation notify := (Engine.notify onProgress).
Local Abbreviation delivered := (Engine.delivered onProgress).
Local Abbreviation matchTracks := (Engine.matchTracks targetProvider targetToken onProgress).
Local Abbreviation matchingEvents := (Engine.matchingEvents targetToken onProgress).
Local Abbreviation transferPlaylist :=
  (Engine.transferPlaylist sourceProvider targetProvider sourceToken targetToken playlistId
     onProgress).
Local Abbreviation runEvents :=
  (Engine.runEvents sourceProvider targetProvider sourceToken targetToken playlistId
     onProgress).

Local Ltac events :=
  unfold Engine.runEvents, Engine.fetchingEvent, Engine.readingEvent, Engine.creatingEvent,
    Engine.matchingEvent, Engine.transferringEvent, Engine.completeEvent in *.

(** Only a callback can make [onProgress?.(p)] throw, and the event was
    handed to it. *)
Lemma notify_Threw p (st st' : Engine.State) e :
  notify p st = (Threw e, st') →
  delivered p = [Progress p] ∧ Engine.trace st' = Engine.trace st ++ [Progress p] ∧
  Stopped onProgress e (Engine.world st') (Progress p) (Progress p).
Proof.
  intros H. pose proof H as (_ & Ht)%notify_any.
  unfold Engine.notify, Engine.delivered in *. destruct onProgress as [callback|]; [|done].
  split_and!; [done..|].
  unfold mbind, M_bind, Engine.emit, Engine.on_world in H. simpl in H.
  destruct (callback p (Engine.world st)) as [[[]|e'] w'] eqn:Hc; [done|].
  injection H as <- <-. by econstructor.
Qed.

(** The loop of step 4 when it is cut short: the events so far are the
    first events of a loop that runs to its end. *)
Lemma matchTracks_Threw total rest :
  ∀ i matched unmatched (st st' : Engine.State) e,
    matchTracks total i rest matched unmatched st = (Threw e, st') →
    ∃ results before stop next after,
      results.*1 = rest ∧
      matchingEvents total i results = before ++ next :: after ∧
      Engine.trace st' = Engine.trace st ++ before ++ [stop] ∧
      Stopped onProgress e (Engine.world st') stop next.
Proof.
  induction rest as [|track rest IH]; intros i matched unmatched st st' e H; [discriminate|].
  simpl in H.
  apply bind_inv in H as [(e' & H & [= <-])|(? & s1 & (_ & Ht1)%notify_any & H)].
  { apply notify_Threw in H as (Hd & Ht & Hs).
    exists ((track, None) :: ((λ t, (t, None)) <$> rest)), [],
      (Progress (Engine.matchingEvent total i track)).
    eexists _, _. simpl. events. rewrite unsearched_fst, Hd.
    split_and!; [done|reflexivity|done|exact Hs]. }
  apply bind_inv in H
    as [(e' & (_ & _ & Ht)%invoke_any & [= <-])|(found & s2 & (_ & _ & Ht2)%invoke_any & H)].
  { exists ((track, None) :: ((λ t, (t, None)) <$> rest)),
      (delivered (Engine.matchingEvent total i track)).
    eexists _, _, _. simpl. rewrite unsearched_fst.
    split_and!; [done|reflexivity| |constructor].
    rewrite Ht, Ht1, <- !app_assoc. reflexivity. }
  assert (∃ results before stop next after,
            results.*1 = rest ∧
            matchingEvents total (i + 1) results = before ++ next :: after ∧
            Engine.trace st' = Engine.trace s2 ++ before ++ [stop] ∧
            Stopped onProgress e (Engine.world st') stop next)
    as (results & before & stop & next & after & <- & Hev & Ht & Hs).
  { destruct found; eapply IH; exact H. }
  exists ((track, found) :: results),
    (delivered (Engine.matchingEvent total i track)
     ++ [Invoke Target (SearchTrack targetToken track) (Found found)] ++ before),
    stop, next, after.
  simpl. rewrite Hev, Ht, Ht2, Ht1, <- !app_assoc. done.
Qed.

(** A run that rejects: either the playlist was not in the listing, or the
    events so far are the first events of a run that returns, and the run
    stopped at the next one. Unless it stopped before the listing was
    there, [p] is the playlist located in it. *)
Lemma transfer_Threw (st st' : Engine.State) e :
  transferPlaylist st = (Threw e, st') →
  (∃ listing,
     e = Error ("Playlist " +:+ playlistId +:+ " not found") ∧
     list_find (λ p, Playlist.id p = playlistId) listing = None ∧
     Engine.trace st' = Engine.trace st ++ delivered Engine.fetchingEvent
       ++ [Invoke Source (GetPlaylists sourceToken) (Playlists listing)]) ∨
  (∃ listing p targetPlaylistId results counts before stop next after,
     runEvents listing p targetPlaylistId results counts = before ++ next :: after ∧
     Engine.trace st' = Engine.trace st ++ before ++ [stop] ∧
     Stopped onProgress e (Engine.world st') stop next ∧
     ((listing = [] ∧ (before = [] ∨ before = delivered Engine.fetchingEvent)) ∨
      ∃ i, list_find (λ p, Playlist.id p = playlistId) listing = Some (i, p))).
Proof.
  unfold Engine.transferPlaylist. intros H.
  pose (c0 := Counts.mk 0 0).
  apply bind_inv in H as [(e' & H & [= <-])|(? & s1 & (Hp1 & Ht1)%notify_any & H)].
  cbn [Engine.trace Engine.playlists Engine.world] in *.
  { apply notify_Threw in H as (Hd & Ht & Hs). right.
    exists [], inhabitant, "", [], c0, [], (Progress Engine.fetchingEvent).
    eexists _, _. events. rewrite Hd.
    split_and!; [reflexivity|done|exact Hs|left; auto]. }
  apply bind_inv in H
    as [(e' & (_ & _ & Ht)%invoke_any & [= <-])
       |(listing & s2 & (_ & Hp2 & Ht2)%invoke_any & H)].
  cbn [Engine.trace Engine.playlists Engine.world] in *.
  { right. exists [], inhabitant, "", [], c0, (delivered Engine.fetchingEvent).
    eexists _, _, _. unfold Engine.runEvents.
    split_and!; [reflexivity| |constructor|left; auto].
    rewrite Ht, Ht1, <- !app_assoc. reflexivity. }
  apply bind_inv in H as [(e' & [=] & _)|(? & s3 & Hh & H)].
  cbn [Engine.trace Engine.playlists Engine.world] in *.
  injection Hh as _ <-.
  destruct (list_find _ listing) as [[i p]|] eqn:Hfind; cycle 1.
  { left. exists listing. injection H as <- <-. simpl.
    by rewrite Ht2, Ht1, <- !app_assoc. }
  pose proof Hfind as (Hi & _)%list_find_Some.
  pose proof (lookup_lt_Some _ _ _ Hi) as Hlt.
  apply list_lookup_total_correct in Hi.
  assert (∀ before : list Event,
            (listing = [] ∧ (before = [] ∨ before = delivered Engine.fetchingEvent)) ∨
            ∃ i, list_find (λ p, Playlist.id p = playlistId) listing = Some (i, p))
    as Hlocated_p by (intros ?; right; by exists i).
  right. exists listing, p.
  apply bind_inv in H as [(e' & [=] & _)|(name & s4 & [= <- <-] & H)]; simpl in H.
  cbn [Engine.trace Engine.playlists Engine.world] in *.
  rewrite Hi in H.
  apply bind_inv in H as [(e' & H & [= <-])|(? & s5 & (Hp5 & Ht5)%notify_any & H)].
  cbn [Engine.trace Engine.playlists Engine.world] in *.
  { apply notify_Threw in H as (Hd & Ht & Hs). simpl in Hd, Ht.
    exists "", [], c0,
      (delivered Engine.fetchingEvent
       ++ [Invoke Source (GetPlaylists sourceToken) (Playlists listing)]),
      (Progress (Engine.readingEvent (Playlist.name p))).
    eexists _, _. events. rewrite Hd.
    split_and!; [rewrite <- !app_assoc; reflexivity| |exact Hs|apply Hlocated_p].
    rewrite Ht, Ht2, Ht1, <- !app_assoc. reflexivity. }
  apply bind_inv in H
    as [(e' & (_ & _ & Ht)%invoke_any & [= <-])
       |(sourceTracks & s6 & (_ & Hp6 & Ht6)%invoke_any & H)].
  cbn [Engine.trace Engine.playlists Engine.world] in *.
  { exists "", [], c0,
      (delivered Engine.fetchingEvent
       ++ [Invoke Source (GetPlaylists sourceToken) (Playlists listing)]
       ++ delivered (Engine.readingEvent (Playlist.name p))).
    eexists _, _, _. unfold Engine.runEvents.
    split_and!; [rewrite <- !app_assoc; reflexivity| |constructor|apply Hlocated_p].
    rewrite Ht, Ht5, Ht2, Ht1, <- !app_assoc. reflexivity. }
  apply bind_inv in H as [(e' & [=] & _)|(? & s7 & [= _ <-] & H)].
  cbn [Engine.trace Engine.playlists Engine.world] in *.
  apply bind_inv in H as [(e' & [=] & _)|(? & s8 & [= _ <-] & H)]; simpl in H.
  cbn [Engine.trace Engine.playlists Engine.world] in *.
  apply bind_inv in H as [(e' & [=] & _)|(name' & s9 & [= <- <-] & H)]; simpl in H.
  cbn [Engine.trace Engine.playlists Engine.world] in *.
  rewrite Hp6, Hp5 in H. simpl in H. rewrite Hi in H.
  rewrite list_lookup_total_insert_eq in H by (by rewrite length_insert).
  rewrite list_lookup_total_insert_eq in H by done.
  simpl in H.
  pose (unsearched := (λ t, (t, None : option Track.t)) <$> sourceTracks).
  pose (read :=
    delivered Engine.fetchingEvent
    ++ [Invoke Source (GetPlaylists sourceToken) (Playlists listing)]
    ++ delivered (Engine.readingEvent (Playlist.name p))
    ++ [Invoke Source (GetPlaylistTracks sourceToken playlistId) (Tracks sourceTracks)]).
  assert (Engine.trace s6 = Engine.trace st ++ read) as Hread.
  { unfold read. rewrite Ht6, Ht5, Ht2, Ht1, <- !app_assoc. reflexivity. }
  apply bind_inv in H as [(e' & H & [= <-])|(? & s10 & (Hp10 & Ht10)%notify_any & H)].
  cbn [Engine.trace Engine.playlists Engine.world] in *.
  { apply notify_Threw in H as (Hd & Ht & Hs). simpl in Hd, Ht.
    exists "", unsearched, c0, read,
      (Progress (Engine.creatingEvent targetProvider (Playlist.name p) (len sourceTracks))).
    eexists _, _. unfold unsearched. events. rewrite unsearched_fst, Hd.
    split_and!; [unfold read; rewrite <- !app_assoc; reflexivity| |exact Hs
                |apply Hlocated_p].
    rewrite Ht, Hread, <- !app_assoc. reflexivity. }
  apply bind_inv in H as [(e' & [=] & _)|(name'' & s11 & [= <- <-] & H)].
  cbn [Engine.trace Engine.playlists Engine.world] in *.
  apply bind_inv in H as [(e' & [=] & _)|(description & s12 & [= <- <-] & H)].
  cbn [Engine.trace Engine.playlists Engine.world] in *.
  simpl in H.
  assert (Engine.playlists s10 !!! i = Engine.updated sourceTracks p) as Hi10.
  { rewrite Hp10. by rewrite list_lookup_total_insert_eq by (by rewrite ?length_insert). }
  rewrite Hi10 in H. simpl in H.
  pose (located := read
    ++ delivered (Engine.creatingEvent targetProvider (Playlist.name p) (len sourceTracks))).
  assert (Engine.trace s10 = Engine.trace st ++ located) as Hlocated.
  { unfold located. rewrite Ht10, Hread, <- !app_assoc. reflexivity. }
  apply bind_inv in H
    as [(e' & (_ & _ & Ht)%invoke_any & [= <-])
       |(targetPlaylistId & s13 & (_ & Hp13 & Ht13)%invoke_any & H)].
  cbn [Engine.trace Engine.playlists Engine.world] in *.
  { exists "", unsearched, c0, located.
    eexists _, _, _. unfold Engine.runEvents, unsearched. rewrite unsearched_fst.
    split_and!; [unfold located, read; rewrite <- !app_assoc; reflexivity| |constructor
                |apply Hlocated_p].
    rewrite Ht, Hlocated, <- !app_assoc. reflexivity. }
  exists targetPlaylistId.
  pose (made := located
    ++ [Invoke Target
          (CreatePlaylist targetToken (Playlist.name p)
             (Some (Engine.descriptionFor sourceProvider p)))
          (PlaylistId targetPlaylistId)]).
  assert (Engine.trace s13 = Engine.trace st ++ made) as Hmade.
  { unfold made. rewrite Ht13, Hlocated, <- !app_assoc. reflexivity. }
  apply bind_inv in H as [(e' & H & [= <-])|([matched unmatched] & s14 & Hloop & H)].
  cbn [Engine.trace Engine.playlists Engine.world] in *.
  { apply matchTracks_Threw in H
      as (results & before & stop & next & after & <- & Hev & Ht & Hs).
    exists results, c0, (made ++ before), stop, next.
    eexists. unfold Engine.runEvents. rewrite Hev.
    split_and!; [unfold made, located, read; rewrite <- !app_assoc; reflexivity| |done
                |apply Hlocated_p].
    rewrite Ht, Hmade, <- !app_assoc. reflexivity. }
  apply matchTracks_Ok in Hloop as (results & <- & -> & -> & Hp14 & Ht14).
  exists results. simpl in H.
  pose (searched := made ++ matchingEvents (len results.*1) 0 results).
  assert (Engine.trace s14 = Engine.trace st ++ searched) as Hsearched.
  { unfold searched. rewrite Ht14, Hmade, <- !app_assoc. reflexivity. }
  apply bind_inv in H as [(e' & H & [= <-])|(? & s15 & (Hp15 & Ht15)%notify_any & H)].
  cbn [Engine.trace Engine.playlists Engine.world] in *.
  { apply notify_Threw in H as (Hd & Ht & Hs).
    exists c0, searched, (Progress (Engine.transferringEvent (len (omap snd results)))).
    eexists _, _. events. rewrite Hd.
    split_and!; [unfold searched, made, located, read; rewrite <- !app_assoc; reflexivity|
                |exact Hs|apply Hlocated_p].
    rewrite Ht, Hsearched, <- !app_assoc. reflexivity. }
  apply bind_inv in H
    as [(e' & (_ & _ & Ht)%invoke_any & [= <-])
       |(counts & s16 & (_ & Hp16 & Ht16)%invoke_any & H)].
  cbn [Engine.trace Engine.playlists Engine.world] in *.
  { exists c0, (searched ++ delivered (Engine.transferringEvent (len (omap snd results)))).
    eexists _, _, _. unfold Engine.runEvents.
    split_and!; [unfold searched, made, located, read; rewrite <- !app_assoc; reflexivity|
                |constructor|apply Hlocated_p].
    rewrite Ht, Ht15, Hsearched, <- !app_assoc. reflexivity. }
  exists counts.
  apply bind_inv in H as [(e' & H & [= <-])|(? & s17 & (Hp17 & Ht17)%notify_any & H)].
  cbn [Engine.trace Engine.playlists Engine.world] in *.
  { apply notify_Threw in H as (Hd & Ht & Hs).
    exists (searched ++ delivered (Engine.transferringEvent (len (omap snd results)))
            ++ [Invoke Target (AddTracks targetToken targetPlaylistId (omap snd results))
                  (Counted counts)]),
      (Progress (Engine.completeEvent (len (omap snd results)) (len results.*1)
                   (Counts.added counts) (len (omap missed results)))).
    eexists _, []. events. rewrite Hd.
    split_and!; [unfold searched, made, located, read; rewrite <- !app_assoc; reflexivity|
                |exact Hs|apply Hlocated_p].
    rewrite Ht, Ht16, Ht15, Hsearched, <- !app_assoc. reflexivity. }
  apply bind_inv in H as [(e' & [=] & _)|(? & s18 & _ & [=])].
Qed.
End engine_failures.

(** ** The calls a run makes *)

Section trace_calls.
Context {W : Type}.
Variables sourceProvider targetProvider : MusicProvider.t W.
Variables sourceToken targetToken playlistId : string.
Variable onProgress : option (TransferProgress.t → M W ()).

Local Abbreviation delivered := (Engine.delivered onProgress).
Local Abbreviation matchingEvents := (Engine.matchingEvents targetToken onProgress).
Local Abbreviation runEvents :=
  (Engine.runEvents sourceProvider targetProvider sourceToken targetToken playlistId
     onProgress).

Lemma invocations_delivered p : invocations (delivered p) = [].
Proof. unfold Engine.delivered. by destruct onProgress. Qed.

Lemma invocations_matchingEvents total results :
  ∀ i, invocations (matchingEvents total i results)
       = (λ r, (Target, SearchTrack targetToken r.1, Found r.2)) <$> results.
Proof.
  induction results as [|[track found] results IH]; intros i; [done|]. simpl.
  unfold invocations in *. rewrite omap_app, (invocations_delivered _). simpl.
  by rewrite IH.
Qed.

Lemma invocations_runEvents listing p targetPlaylistId results counts :
  invocations (runEvents listing p targetPlaylistId results counts) =
    [(Source, GetPlaylists sourceToken, Playlists listing);
     (Source, GetPlaylistTracks sourceToken playlistId, Tracks results.*1);
     (Target, CreatePlaylist targetToken (Playlist.name p)
                (Some (Engine.descriptionFor sourceProvider p)),
      PlaylistId targetPlaylistId)]
    ++ ((λ r, (Target, SearchTrack targetToken r.1, Found r.2)) <$> results)
    ++ [(Target, AddTracks targetToken targetPlaylistId (omap snd results), Counted counts)].
Proof.
  unfold Engine.runEvents, invocations.
  rewrite !omap_app, !(invocations_delivered _), (invocations_matchingEvents _ _ _). simpl.
  by rewrite ?app_nil_r.
Qed.

Lemma calls_invocations evs : calls evs = fst <$> invocations evs.
Proof.
  unfold calls, invocations. induction evs as [|[p|side call answer] evs IH]; csimpl; [done..|].
  by rewrite IH.
Qed.

Lemma calls_runEvents listing p targetPlaylistId results counts :
  calls (runEvents listing p targetPlaylistId results counts) =
    protocol sourceToken targetToken playlistId (Playlist.name p)
      (Some (Engine.descriptionFor sourceProvider p)) results.*1 targetPlaylistId
      (omap snd results).
Proof.
  rewrite calls_invocations, invocations_runEvents. unfold protocol.
  rewrite !fmap_app, <- !list_fmap_compose. done.
Qed.

Lemma rejected_invocations evs :
  rejected evs = omap (λ x, match x.2 with Rejected e => Some (x.1, e) | _ => None end)
                   (invocations evs).
Proof.
  unfold rejected, invocations.
  induction evs as [|[p|side call answer] evs IH]; csimpl; [done..|].
  rewrite IH. by destruct answer.
Qed.

Lemma rejected_runEvents listing p targetPlaylistId results counts :
  rejected (runEvents listing p targetPlaylistId results counts) = [].
Proof.
  rewrite rejected_invocations, invocations_runEvents, !omap_app. simpl.
  rewrite app_nil_r. induction results as [|r results IH]; [done|]. csimpl. exact IH.
Qed.

Lemma progress_of_unheard listing p targetPlaylistId results counts :
  onProgress = None →
  Engine.progress_of (runEvents listing p targetPlaylistId results counts) = [].
Proof.
  intros ->. unfold Engine.runEvents, Engine.progress_of. rewrite !omap_app. simpl.
  generalize 0 at 1. generalize (len results.*1).
  induction results as [|[track found] results IH]; intros total i; [done|].
  simpl. apply IH.
Qed.

Lemma calls_app (evs evs' : list Event) : calls (evs ++ evs') = calls evs ++ calls evs'.
Proof. apply omap_app. Qed.

Lemma calls_Stopped e w' stop next :
  Stopped onProgress e w' stop next → calls [stop] = calls [next].
Proof. by intros []. Qed.

Lemma invocations_app (evs evs' : list Event) :
  invocations (evs ++ evs') = invocations evs ++ invocations evs'.
Proof. apply omap_app. Qed.

Lemma conversation_runEvents listing p targetPlaylistId results counts :
  invocations (runEvents listing p targetPlaylistId results counts) =
    conversation sourceToken targetToken playlistId listing (Playlist.name p)
      (Some (Engine.descriptionFor sourceProvider p)) results targetPlaylistId counts.
Proof. apply invocations_runEvents. Qed.

Lemma calls_conversation listing name description results targetPlaylistId counts :
  (conversation sourceToken targetToken playlistId listing name description results
     targetPlaylistId counts).*1 =
    protocol sourceToken targetToken playlistId name description results.*1
      targetPlaylistId (omap snd results).
Proof.
  unfold conversation, protocol. rewrite !fmap_app, <- !list_fmap_compose. done.
Qed.
End trace_calls.

Section engine_extras.
Context {W : Type}.
Variables sourceProvider targetProvider : MusicProvider.t W.
Variables sourceToken targetToken playlistId : string.

Local Abbreviation transferPlaylist :=
  (Engine.transferPlaylist sourceProvider targetProvider sourceToken targetToken playlistId).

(** X1. A run that returns a result has called, in this order and nothing
    else: [getPlaylists] and [getPlaylistTracks] on the source, then on the
    target [createPlaylist] once, [searchTrack] once per source track in
    source order, and [addTracks] once, on the playlist that
    [createPlaylist] resolved to (the [targetPlaylistId] of the result) and
    with exactly the [matched] tracks of the result. Every call resolved. *)
Theorem calls_of_a_run onProgress (w : W) r st' :
  transferPlaylist onProgress (Engine.init w) = (Ok r, st') →
  let sourcePlaylist := TransferResult.sourcePlaylist r in
  let targetPlaylistId := TransferResult.targetPlaylistId r in
  ∃ listing description results counts,
    results.*1 = Playlist.tracks sourcePlaylist ∧
    omap snd results = TransferResult.matched r ∧
    invocations (Engine.trace st') =
      [(Source, GetPlaylists sourceToken, Playlists listing);
       (Source, GetPlaylistTracks sourceToken playlistId,
        Tracks (Playlist.tracks sourcePlaylist));
       (Target, CreatePlaylist targetToken (Playlist.name sourcePlaylist) description,
        PlaylistId targetPlaylistId)]
      ++ ((λ r, (Target, SearchTrack targetToken r.1, Found r.2)) <$> results)
      ++ [(Target, AddTracks targetToken targetPlaylistId (TransferResult.matched r),
           Counted counts)].
Proof.
  intros (listing & i & p & tid & results & counts & Hfind & -> & _ & Ht)%transfer_Ok.
  simpl in *. exists listing, (Some (Engine.descriptionFor sourceProvider p)), results, counts.
  rewrite Ht. split_and!; [done..|]. apply invocations_runEvents.
Qed.

(** X2. Whatever the outcome of a run, the adapter calls it has made are
    the first calls of the one sequence a run makes, each call made with
    what the calls before it resolved to: [getPlaylists], then
    [getPlaylistTracks] on the source, then on the target [createPlaylist]
    with the name of the playlist located in the listing that
    [getPlaylists] resolved to, [searchTrack] once for each of the tracks
    that [getPlaylistTracks] resolved to, in that order, and [addTracks]
    on the id that [createPlaylist] resolved to, with what the searches
    found. All calls resolved but, in a run that rejects on a call, the
    last one. So no method of the target is called before both reads of
    the source resolved, nothing is called twice but [searchTrack], and
    nothing is called after [addTracks]; and when the listing does not
    hold the playlist asked for, nothing is called after [getPlaylists]. *)
Theorem calls_in_order onProgress (w : W) r st' :
  transferPlaylist onProgress (Engine.init w) = (r, st') →
  ∃ listing p targetPlaylistId results counts resolved,
    let talk :=
      conversation sourceToken targetToken playlistId listing (Playlist.name p)
        (Some (Engine.descriptionFor sourceProvider p)) results targetPlaylistId counts in
    calls (Engine.trace st') `prefix_of`
      protocol sourceToken targetToken playlistId (Playlist.name p)
        (Some (Engine.descriptionFor sourceProvider p)) results.*1 targetPlaylistId
        (omap snd results) ∧
    resolved `prefix_of` talk ∧
    (invocations (Engine.trace st') = resolved ∨
     ∃ side call answer e,
       r = Threw e ∧
       invocations (Engine.trace st') = resolved ++ [(side, call, Rejected e)] ∧
       (resolved ++ [(side, call, answer)]) `prefix_of` talk) ∧
    match list_find (λ p, Playlist.id p = playlistId) listing with
    | Some (_, located) => located = p
    | None => calls (Engine.trace st') `prefix_of` [(Source, GetPlaylists sourceToken)]
    end.
Proof.
  destruct r as [r|e].
  - intros (listing & i & p & tid & results & counts & Hfind & -> & _ & Ht)%transfer_Ok.
    simpl in Ht. exists listing, p, tid, results, counts.
    eexists. cbv zeta. rewrite Ht, calls_runEvents, conversation_runEvents, Hfind.
    split_and!; [done|reflexivity|by left|done].
  - intros [(listing & _ & Hfind & Ht)|
            (listing & p & tid & results & counts & before & stop & next & after & Hrun & Ht
             & Hs & Hp)
           ]%transfer_Threw; simpl in Ht; rewrite Ht.
    + exists listing, inhabitant, "", [], (Counts.mk 0 0),
        [(Source, GetPlaylists sourceToken, Playlists listing)].
      cbv zeta. rewrite Hfind, calls_app, invocations_app.
      rewrite calls_invocations, !(invocations_delivered _). simpl.
      split_and!; [apply prefix_cons, prefix_nil|apply prefix_cons, prefix_nil|by left|done].
    + exists listing, p, tid, results, counts, (invocations before). cbv zeta.
      pose proof (conversation_runEvents sourceProvider targetProvider sourceToken
                    targetToken playlistId onProgress listing p tid results counts) as Htalk.
      rewrite Hrun, invocations_app in Htalk.
      assert (calls (before ++ [stop]) `prefix_of`
                protocol sourceToken targetToken playlistId (Playlist.name p)
                  (Some (Engine.descriptionFor sourceProvider p)) results.*1 tid
                  (omap snd results)) as Hcalls.
      { erewrite <- calls_runEvents, Hrun.
        change (next :: after) with ([next] ++ after).
        rewrite !calls_app, (calls_Stopped _ _ _ _ _ Hs).
        apply prefix_app, prefix_app_r. done. }
      split_and!; [exact Hcalls|rewrite <- Htalk; by apply prefix_app_r| |].
      * rewrite invocations_app. destruct Hs as [callback q w0 Hon Hthrew|side call answer].
        -- left. simpl. by rewrite app_nil_r.
        -- right. exists side, call, answer, e. split_and!; [done..|].
           rewrite <- Htalk. change (invocations (?x :: after)) with
             ([(side, call, answer)] ++ invocations after).
           rewrite app_assoc. by apply prefix_app_r.
      * destruct Hp as [[-> Hearly]|[i ->]]; [|done]. simpl.
        rewrite calls_app, (calls_Stopped _ _ _ _ _ Hs).
        unfold Engine.runEvents in Hrun. simpl in Hrun.
        destruct Hearly as [->| ->].
        -- unfold Engine.delivered in Hrun.
           destruct onProgress; simpl in Hrun; injection Hrun as <- _; simpl;
             [apply prefix_nil|apply prefix_cons, prefix_nil].
        -- apply app_inv_head in Hrun. injection Hrun as <- _.
           rewrite calls_invocations, (invocations_delivered _). simpl.
           apply prefix_cons, prefix_nil.
Qed.

(** X3. The engine catches nothing and retries nothing: when a call of an
    adapter rejects, that call is the last event of the run (no progress
    event and no adapter call follows it), no call before it rejected, and
    the run rejects with the error of that call. *)
Theorem rejection_ends_run onProgress (w : W) r st' side call e :
  transferPlaylist onProgress (Engine.init w) = (r, st') →
  Invoke side call (Rejected e) ∈ Engine.trace st' →
  r = Threw e ∧
  ∃ before,
    Engine.trace st' = before ++ [Invoke side call (Rejected e)] ∧ rejected before = [].
Proof.
  assert (∀ evs, rejected evs = [] → Invoke side call (Rejected e) ∉ evs) as Hclean.
  { intros evs. induction evs as [|ev evs IH]; intros Hevs Hin.
    - by apply elem_of_nil in Hin.
    - apply elem_of_cons in Hin as [<-|Hin]; [discriminate|].
      apply IH; [|done]. unfold rejected in *. csimpl in Hevs.
      by destruct ev as [|? ? []]. }
  destruct r as [r|e0].
  - intros (listing & i & p & tid & results & counts & Hfind & -> & _ & Ht)%transfer_Ok Hin.
    simpl in Ht. rewrite Ht in Hin. by apply Hclean in Hin; [|apply rejected_runEvents].
  - intros [(listing & _ & _ & Ht)|
            (listing & p & tid & results & counts & before & stop & next & after & Hrun & Ht
             & Hs & _)
           ]%transfer_Threw Hin; simpl in Ht; rewrite Ht in *.
    + exfalso. revert Hin. apply Hclean. unfold rejected. rewrite omap_app. simpl.
      rewrite app_nil_r. unfold Engine.delivered. by destruct onProgress.
    + assert (rejected before = []) as Hbefore.
      { pose proof (rejected_runEvents sourceProvider targetProvider sourceToken targetToken
                      playlistId onProgress listing p tid results counts) as Hno.
        rewrite Hrun in Hno. unfold rejected in *. rewrite omap_app in Hno.
        by apply app_eq_nil in Hno as [? _]. }
      apply elem_of_app in Hin as [Hin|Hin%list_elem_of_singleton].
      { by apply Hclean in Hin. }
      subst stop. inversion Hs; subst. split; [done|]. by exists before.
Qed.

(** X4. A run rejects for one of three reasons only. The listing that
    [getPlaylists] resolved to does not hold the playlist asked for: the
    error is the not-found error, that call is the last event of the run
    and no call rejected. Or a call of an adapter rejected with this
    error: it is the last event of the run. Or the progress callback threw
    this error on the event it was handed: that event is the last of the
    run, and the world is left as the callback left it. Without a callback
    the first two remain. *)
Theorem failure_causes onProgress (w : W) e st' :
  transferPlaylist onProgress (Engine.init w) = (Threw e, st') →
  (∃ listing,
     last (Engine.trace st')
       = Some (Invoke Source (GetPlaylists sourceToken) (Playlists listing)) ∧
     list_find (λ p, Playlist.id p = playlistId) listing = None ∧
     e = Error ("Playlist " +:+ playlistId +:+ " not found") ∧
     rejected (Engine.trace st') = [])
  ∨ (∃ side call, last (Engine.trace st') = Some (Invoke side call (Rejected e)))
  ∨ (∃ callback p w0,
       onProgress = Some callback ∧
       last (Engine.trace st') = Some (Progress p) ∧
       callback p w0 = (Threw e, Engine.world st')).
Proof.
  intros [(listing & -> & Hfind & Ht)|
          (listing & p & tid & results & counts & before & stop & next & after & Hrun & Ht
           & Hs & _)
         ]%transfer_Threw; simpl in Ht; rewrite Ht.
  - left. exists listing. rewrite last_snoc. split_and!; [done..|].
    unfold rejected. rewrite omap_app. simpl.
    rewrite app_nil_r. unfold Engine.delivered. by destruct onProgress.
  - right. rewrite last_snoc.
    destruct Hs as [callback q w0 Hon Hthrew|side call answer]; [right|left; eauto].
    by exists callback, q, w0.
Qed.
End engine_extras.

(** ** A callback that only watches *)

Section observation.
Context {W : Type}.
Variables sourceProvider targetProvider : MusicProvider.t W.
Variables sourceToken targetToken playlistId : string.
Variable callback : TransferProgress.t → M W ().
Hypothesis watches : ∀ p w, callback p w = (Ok (), w).

Local Abbreviation State := (@Engine.State W).

Lemma unseen_ret {A} (a : A) : unseen (W := W) (mret a) (mret a).
Proof. done. Qed.

Lemma unseen_throw {A} e : unseen (W := W) (A := A) (throw e) (throw e).
Proof. done. Qed.

Lemma unseen_bind {A B} (m m' : M State A) (k k' : A → M State B) :
  unseen m m' → (∀ a, unseen (k a) (k' a)) → unseen (m ≫= k) (m' ≫= k').
Proof.
  intros Hm Hk st. unfold mbind, M_bind. rewrite Hm.
  destruct (m st) as [[a|e] s1]; simpl; [apply Hk|done].
Qed.

Lemma unseen_notify p : unseen (Engine.notify (Some callback) p) (Engine.notify None p).
Proof.
  intros st. unfold Engine.notify, mbind, M_bind, Engine.emit, Engine.on_world. simpl.
  rewrite watches. unfold unobserved. simpl. rewrite filter_app. simpl.
  by rewrite app_nil_r.
Qed.

Lemma unseen_invoke {A} side call (answer : A → Answer) (m : M W A) :
  unseen (Engine.invoke side call answer m) (Engine.invoke side call answer m).
Proof.
  intros st. unfold Engine.invoke, unobserved. simpl.
  destruct (m _) as [r w']. simpl. by rewrite filter_app.
Qed.

Lemma unseen_field {A} i (f : Playlist.t → A) :
  unseen (W := W) (Engine.field i f) (Engine.field i f).
Proof. done. Qed.

Lemma unseen_assign i f : unseen (W := W) (Engine.assign i f) (Engine.assign i f).
Proof. done. Qed.

Lemma unseen_hold ps : unseen (W := W) (Engine.hold ps) (Engine.hold ps).
Proof. done. Qed.

Lemma unseen_matchTracks total rest :
  ∀ i matched unmatched,
    unseen
      (Engine.matchTracks targetProvider targetToken (Some callback) total i rest matched
         unmatched)
      (Engine.matchTracks targetProvider targetToken None total i rest matched unmatched).
Proof.
  induction rest as [|track rest IH]; intros i matched unmatched; simpl.
  - apply unseen_ret.
  - apply unseen_bind; [apply unseen_notify|intros _].
    apply unseen_bind; [apply unseen_invoke|intros [found|]]; apply IH.
Qed.

Local Ltac walk :=
  repeat first
    [ apply unseen_ret
    | apply unseen_bind;
      [first [apply unseen_notify|apply unseen_invoke|apply unseen_field|apply unseen_assign
             |apply unseen_matchTracks]
      |intros ?] ].

Lemma unseen_transferPlaylist :
  unseen
    (Engine.transferPlaylist sourceProvider targetProvider sourceToken targetToken playlistId
       (Some callback))
    (Engine.transferPlaylist sourceProvider targetProvider sourceToken targetToken playlistId
       None).
Proof.
  unfold Engine.transferPlaylist.
  apply unseen_bind; [apply unseen_notify|intros _].
  apply unseen_bind; [apply unseen_invoke|intros listing].
  apply unseen_bind; [apply unseen_hold|intros _].
  destruct (list_find _ listing) as [[i p]|]; [|apply unseen_throw].
  walk.
  match goal with x : (list Track.t * list Track.t)%type |- _ => destruct x end.
  walk.
Qed.

(** X5. Progress reporting is observation only: with a callback that
    returns and leaves the world alone, a run has the same outcome (the
    same result or the same error), leaves the same world and the same
    listing, and makes the same adapter calls with the same answers, as
    the run without a callback. *)
Theorem progress_is_observation (w : W) r st' :
  Engine.transferPlaylist sourceProvider targetProvider sourceToken targetToken playlistId
    (Some callback) (Engine.init w) = (r, st') →
  Engine.transferPlaylist sourceProvider targetProvider sourceToken targetToken playlistId
    None (Engine.init w) = (r, unobserved st').
Proof.
  intros H. pose proof (unseen_transferPlaylist (Engine.init w)) as Hsim.
  rewrite H in Hsim. exact Hsim.
Qed.
End observation.

(** ** The scenario and the outage, run *)

Lemma calls_of_a_run_witness :
  ∃ r st',
    Scenario.run Scenario.target "p1" = (Ok r, st') ∧
    TransferResult.targetPlaylistId r = "new-0" ∧
    calls (Engine.trace st') =
      protocol "source-token" "target-token" "p1" "Road trip" (Some "For the car")
        [Scenario.alpha; Scenario.beta; Scenario.gamma] "new-0"
        [Scenario.onTarget Scenario.alpha; Scenario.onTarget Scenario.gamma].
Proof.
  eassert (Scenario.run Scenario.target "p1" = (Ok _, _)) as H by (vm_compute; reflexivity).
  eexists _, _. split; [exact H|].
  pose proof (calls_of_a_run _ _ _ _ _ _ _ _ _ H) as Hp.
  cbv zeta in Hp. destruct Hp as (listing & description & results & counts & _ & _ & Hp).
  vm_compute. split_and!; reflexivity.
Defined.

Lemma calls_in_order_witness :
  ∃ st',
    Scenario.run Outage.target "p1" = (Threw Outage.limited, st') ∧
    ∃ listing p targetPlaylistId results counts resolved,
      resolved `prefix_of`
        conversation "source-token" "target-token" "p1" listing (Playlist.name p)
          (Some (Engine.descriptionFor Scenario.source p)) results targetPlaylistId counts ∧
      (invocations (Engine.trace st') = resolved ∨
       ∃ side call answer e,
         Threw (A := TransferResult.t) Outage.limited = Threw e ∧
         invocations (Engine.trace st') = resolved ++ [(side, call, Rejected e)] ∧
         (resolved ++ [(side, call, answer)]) `prefix_of`
           conversation "source-token" "target-token" "p1" listing (Playlist.name p)
             (Some (Engine.descriptionFor Scenario.source p)) results targetPlaylistId
             counts).
Proof.
  eassert (Scenario.run Outage.target "p1" = (Threw _, _)) as H by (vm_compute; reflexivity).
  eexists. split; [exact H|].
  destruct (calls_in_order _ _ _ _ _ _ _ _ _ H)
    as (listing & p & tid & results & counts & resolved & _ & Hpre & Hcalls & _).
  exists listing, p, tid, results, counts, resolved. split; [exact Hpre|exact Hcalls].
Defined.

Lemma rejection_ends_run_witness :
  ∃ r st',
    Scenario.run Outage.target "p1" = (r, st') ∧
    Invoke Target (SearchTrack "target-token" Scenario.gamma) (Rejected Outage.limited)
      ∈ Engine.trace st' ∧
    r = Threw Outage.limited.
Proof.
  eassert (Scenario.run Outage.target "p1" = (_, _)) as H by (vm_compute; reflexivity).
  eexists _, _. split; [exact H|].
  match goal with |- ?A ∧ _ => assert A as Hin end.
  { vm_compute. repeat first [apply list_elem_of_here|apply list_elem_of_further]. }
  split; [exact Hin|].
  exact (proj1 (rejection_ends_run _ _ _ _ _ _ _ _ _ _ _ _ H Hin)).
Defined.

Lemma failure_causes_witness :
  ∃ st',
    Outage.unheard Outage.target "p1" = (Threw Outage.limited, st') ∧
    ∃ side call, last (Engine.trace st') = Some (Invoke side call (Rejected Outage.limited)).
Proof.
  eassert (Outage.unheard Outage.target "p1" = (Threw _, _)) as H by (vm_compute; reflexivity).
  eexists. split; [exact H|].
  destruct (failure_causes _ _ _ _ _ _ _ _ _ H)
    as [(listing & _ & _ & Hnf & _)|[Hl|(callback & p & w0 & Hs & _)]];
    [discriminate Hnf|exact Hl|discriminate Hs].
Defined.

Lemma progress_is_observation_witness :
  (∀ p w, Scenario.quiet p w = (Ok (), w)) ∧
  ∃ r st',
    Scenario.run Scenario.target "p1" = (Ok r, st') ∧
    Outage.unheard Scenario.target "p1" = (Ok r, unobserved st').
Proof.
  assert (∀ p w, Scenario.quiet p w = (Ok (), w)) as Hq by reflexivity.
  split; [exact Hq|].
  eassert (Scenario.run Scenario.target "p1" = (Ok _, _)) as H by (vm_compute; reflexivity).
  eexists _, _. split; [exact H|].
  exact (progress_is_observation _ _ _ _ _ _ Hq _ _ _ H).
Defined.

(** ** The playlist a run creates *)



Section created.
Context {W : Type}.
Variables sourceProvider targetProvider : MusicProvider.t W.
Variables sourceToken targetToken playlistId : string.
Variable onProgress : option (TransferProgress.t → M W ()).

Local Abbreviation transferPlaylist :=
  (Engine.transferPlaylist sourceProvider targetProvider sourceToken targetToken playlistId
     onProgress).
Local Abbreviation runEvents :=
  (Engine.runEvents sourceProvider targetProvider sourceToken targetToken playlistId
     onProgress).




End created.




(** ** The requests of the adapters *)

Section reads_facts.
Context {P : Type}.

Lemma reads_ret {A} (a : A) : reads (P := P) 0 (mret a).
Proof. intros n r n' [= <- <-]. exists []. by rewrite app_nil_r. Qed.

Lemma reads_bind {A B} a b (m : M (Http.Net P) A) (k : A → M (Http.Net P) B) :
  reads a m → (∀ x, reads b (k x)) → reads (a + b) (m ≫= k).
Proof.
  intros Hm Hk n r n' [(e & H & ->)|(x & n1 & H & H')]%bind_inv.
  - apply Hm in H as (reqs & E & Hreqs & Hlen). exists reqs. split_and!; [done..|lia].
  - apply Hm in H as (reqs & E & Hreqs & Hlen).
    apply Hk in H' as (reqs' & E' & Hreqs' & Hlen').
    exists (reqs ++ reqs'). rewrite E', E, app_assoc, length_app.
    split_and!; [done|by apply Forall_app|lia].
Qed.

Lemma reads_weaken {A} a b (m : M (Http.Net P) A) : (a ≤ b)%nat → reads a m → reads b m.
Proof.
  intros Hab Hm n r n' H. apply Hm in H as (reqs & E & Hreqs & Hlen).
  exists reqs. split_and!; [done..|lia].
Qed.

Lemma reads_fetch {B} (respond : Http.Request → M P (Http.Response B)) req :
  lookup req → reads 1 (Http.fetch respond req).
Proof.
  intros Hreq n r n' [_ ->]%fetch_inv. exists [req]. split_and!; [done| |done].
  by apply Forall_singleton.
Qed.

Lemma reads_decode {B} (response : Http.Response B) : reads (P := P) 0 (Http.decode response).
Proof. intros n r n' [-> _]%decode_inv. exists []. by rewrite app_nil_r. Qed.

Lemma reads_settled {A} (r : Result A) : reads (P := P) 0 (settled r).
Proof. intros n r' n' [= <- <-]. exists []. by rewrite app_nil_r. Qed.

Lemma mapM_reads {A B} k (f : A → M (Http.Net P) B) (l : list A) :
  (∀ x, reads k (f x)) → reads (k * length l) (mapM f l).
Proof.
  intros Hf. induction l as [|x l IH]; simpl.
  - rewrite Nat.mul_0_r. apply reads_ret.
  - apply (reads_weaken (k + (k * length l + 0))); [lia|].
    apply reads_bind; [apply Hf|intros y].
    apply reads_bind; [apply IH|intros ys]. apply reads_ret.
Qed.
End reads_facts.

Section spotify_requests.
Context {P : Type}.
Variable respond : Http.Request → M P (Http.Response (option SpotifyProvider.Body)).
Import SpotifyProvider.

Lemma spotify_text_reads token track : reads 1 (searchByText respond token track).
Proof.
  unfold searchByText.
  apply (reads_bind 1 0); [apply reads_fetch; split; reflexivity|intros response].
  apply (reads_bind 0 0); [apply reads_decode|intros data]. apply reads_settled.
Qed.

Lemma spotify_reads : only_reads 2 (searchTrack respond).
Proof.
  intros token track. unfold searchTrack.
  destruct (truthy _); [|apply (reads_weaken 1); [lia|apply spotify_text_reads]].
  apply (reads_bind 1 1); [apply reads_fetch; split; reflexivity|intros response].
  apply (reads_bind 0 1); [apply reads_decode|intros data].
  apply (reads_bind 0 1); [apply reads_settled|intros [hit|]];
    [apply (reads_weaken 0); [lia|apply reads_ret]|apply spotify_text_reads].
Qed.

(** The loop over the batches: one request per batch, and the batches are
    the uris from index [i] on, cut every 100. *)
Lemma addBatches_sent token playlistId validUris i added failed n counts n' :
  addBatches respond token playlistId validUris i added failed n = (Ok counts, n') →
  ∃ batches,
    Http.sent n' = Http.sent n ++ (add playlistId token <$> batches) ∧
    concat batches = drop i validUris ∧
    Forall (λ batch, (0 < length batch ≤ 100)%nat) batches ∧
    added ≤ Counts.added counts ∧ failed ≤ Counts.failed counts.
Proof.
  revert n counts n'.
  funelim (addBatches respond token playlistId validUris i added failed);
    intros n0 counts n' Hrun.
  - apply bind_Ok in Hrun as (response & n1 & [_ ->]%fetch_inv & Hrun).
    assert (∃ batches,
              Http.sent n' = Http.sent n0 ++ [add playlistId token
                                                (take 100 (drop i validUris))]
                             ++ (add playlistId token <$> batches) ∧
              concat batches = drop (i + 100) validUris ∧
              Forall (λ batch, (0 < length batch ≤ 100)%nat) batches ∧
              added ≤ Counts.added counts ∧ failed ≤ Counts.failed counts)
      as (batches & E & Hcat & Hsize & Ha & Hf).
    { destruct (Http.ok response).
      + destruct (H response n1 _ _ _ Hrun) as (batches & E & ? & ? & ? & ?). exists batches.
        simpl in E. rewrite <- app_assoc in E. unfold len in *. split_and!; [done..|lia|lia].
      + destruct (H0 response n1 _ _ _ Hrun) as (batches & E & ? & ? & ? & ?). exists batches.
        simpl in E. rewrite <- app_assoc in E. unfold len in *. split_and!; [done..|lia|lia]. }
    exists (take 100 (drop i validUris) :: batches). split_and!; [done| |by constructor; [rewrite length_take, length_drop; lia|]|done..].
    simpl. rewrite Hcat, <- drop_drop. apply take_drop.
  - injection Hrun as <- <-. exists []. simpl. rewrite app_nil_r, drop_ge by lia.
    split_and!; [done..|lia|lia].
Qed.



Local Abbreviation reading := (λ data r, found data = r).
Local Abbreviation cause :=
  (λ e, transport_failure respond e ∨ unreadable_body respond reading e).
Local Abbreviation firstRequest :=
  (λ token track, if truthy (Track.isrc track) then byIsrc token track
                  else byText token track).

Lemma received_Threw req p response p' e :
  respond req p = (Ok response, p') → received response = Threw e → cause e.
Proof.
  intros Hr. unfold received, Http.parsed.
  destruct (Http.json response) as [data|] eqn:Hj.
  - intros H. right. by eapply failed_read.
  - intros [= <-]. left. by eapply failed_decode.
Qed.

Lemma firstRound_inv token track n r n' :
  firstRound respond token track n = (r, n') →
  ∃ lookup, r = Ok lookup ∧
    Http.sent n' = Http.sent n ++ [firstRequest token track] ∧
    (∀ k e, lookup = Failed k e → cause e).
Proof.
  unfold firstRound, Http.attempt, Http.fetch, mbind, M_bind.
  destruct (respond _ _) as [[response|e0] p1] eqn:Hr; intros [= <- <-];
    (eexists; split_and!; [done..|]); intros k e.
  - destruct (received response) as [[hit|]|e1] eqn:Hrec.
    + discriminate.
    + by destruct (truthy _).
    + intros [= _ <-]. by eapply received_Threw.
  - intros [= _ <-]. left. by eapply failed_fetch.
Qed.

Lemma secondRound_inv token track lookup n r n' :
  (∀ k e, lookup = Failed k e → cause e) →
  secondRound respond token (track, lookup) n = (r, n') →
  ∃ lookup', r = Ok lookup' ∧
    Http.sent n' = Http.sent n ++ (if awaits_text lookup then [byText token track] else []) ∧
    (∀ k e, lookup' = Failed k e → cause e) ∧ awaits_text lookup' = false.
Proof.
  intros Hcause. unfold secondRound. destruct lookup as [hit|k0 e0|]; simpl.
  - intros [= <- <-]. eexists. rewrite app_nil_r. by split_and!.
  - intros [= <- <-]. eexists. rewrite app_nil_r. by split_and!.
  - unfold Http.attempt, Http.fetch, mbind, M_bind.
    destruct (respond _ _) as [[response|e1] p1] eqn:Hr; intros [= <- <-].
    + eexists. split_and!; [done..| |by destruct (received response)].
      intros k e. destruct (received response) as [hit|e2] eqn:Hrec; [done|].
      intros [= _ <-]. by eapply received_Threw.
    + eexists. split_and!; [done..| |done].
      intros k e [= _ <-]. left. by eapply failed_fetch.
Qed.

Lemma firstRounds token tracks :
  ∀ n r n1,
    mapM (firstRound respond token) tracks n = (r, n1) →
    ∃ first, r = Ok first ∧ length first = length tracks ∧
      Http.sent n1 = Http.sent n ++ (firstRequest token <$> tracks) ∧
      Forall (λ lookup, ∀ k e, lookup = Failed k e → cause e) first.
Proof.
  induction tracks as [|track tracks IH]; intros n r n1 H.
  - injection H as <- <-. exists []. by rewrite app_nil_r.
  - simpl in H.
    apply bind_inv in H as [(e & (? & [=] & _)%firstRound_inv & _)|(lookup & n0 & H0 & H)].
    pose proof H0 as (? & [= <-] & E0 & Hc0)%firstRound_inv.
    apply bind_inv in H as [(e & (? & [=] & _)%IH & _)|(first & n2 & H1 & [= <- <-])].
    pose proof H1 as (? & [= <-] & Hlen & E1 & Hc1)%IH.
    exists (lookup :: first). simpl. rewrite E1, E0, <- app_assoc, Hlen.
    split_and!; [done..|by constructor].
Qed.

Lemma secondRounds token (tracked : list (Track.t * Lookup)) :
  ∀ n r n2,
    Forall (λ tl, ∀ k e, tl.2 = Failed k e → cause e) tracked →
    mapM (secondRound respond token) tracked n = (r, n2) →
    ∃ second, r = Ok second ∧ length second = length tracked ∧
      Http.sent n2 = Http.sent n
        ++ (byText token <$> (fst <$> filter (λ tl, awaits_text tl.2) tracked)) ∧
      Forall (λ lookup, (∀ k e, lookup = Failed k e → cause e)
                        ∧ awaits_text lookup = false) second.
Proof.
  induction tracked as [|[track lookup] tracked IH]; intros n r n2 Hall H.
  - injection H as <- <-. exists []. by rewrite app_nil_r.
  - apply Forall_cons in Hall as [Hc Hall]. simpl in Hc, H.
    apply bind_inv in H
      as [(e & (? & [=] & _)%(secondRound_inv _ _ _ _ _ _ Hc) & _)|(lookup' & n0 & H0 & H)].
    pose proof H0 as (? & [= <-] & E0 & Hc0 & Hw0)%(secondRound_inv _ _ _ _ _ _ Hc).
    apply bind_inv in H
      as [(e & (? & [=] & _)%(IH _ _ _ Hall) & _)|(second & n3 & H1 & [= <- <-])].
    pose proof H1 as (? & [= <-] & Hlen & E1 & Hc1)%(IH _ _ _ Hall).
    exists (lookup' :: second). simpl. rewrite E1, E0, <- app_assoc, Hlen.
    split_and!; [done|done| |by constructor].
    f_equal. rewrite filter_cons. simpl.
    by destruct (awaits_text lookup).
Qed.

Lemma failedAt_elem k lookups e : failedAt k lookups = Some e → Failed k e ∈ lookups.
Proof.
  unfold failedAt. induction lookups as [|[hit|k0 e0|] lookups IH]; csimpl; [done|..].
  - intros H. apply list_elem_of_further. by apply IH.
  - destruct (decide (k0 = k)) as [->|].
    + intros [= <-]. apply list_elem_of_here.
    + intros H. apply list_elem_of_further. by apply IH.
  - intros H. apply list_elem_of_further. by apply IH.
Qed.

Lemma rejection_elem lookups e : rejection lookups = Some e → ∃ k, Failed k e ∈ lookups.
Proof.
  unfold rejection.
  destruct (failedAt 0 lookups) eqn:H0; [intros [= <-]; eauto using failedAt_elem|].
  destruct (failedAt 1 lookups) eqn:H1; [intros [= <-]; eauto using failedAt_elem|].
  destruct (failedAt 2 lookups) eqn:H2; [intros [= <-]; eauto using failedAt_elem|].
  destruct (failedAt 3 lookups) eqn:H3; [intros [= <-]; eauto using failedAt_elem|done].
Qed.

(** The two rounds of the lookups of [addTracks]. *)
Lemma lookups_inv token tracks n r n' :
  lookups respond token tracks n = (r, n') →
  ∃ first n1 second,
    mapM (firstRound respond token) tracks n = (Ok first, n1) ∧
    mapM (secondRound respond token) (zip tracks first) n1 = (Ok second, n') ∧
    length first = length tracks ∧ length second = length tracks ∧
    Http.sent n1 = Http.sent n ++ (firstRequest token <$> tracks) ∧
    Http.sent n' = Http.sent n1
      ++ (byText token <$> (fst <$> filter (λ tl, awaits_text tl.2) (zip tracks first))) ∧
    match rejection second with
    | Some e => r = Threw e ∧ cause e
    | None => r = Ok (hit_of <$> second)
    end.
Proof.
  unfold lookups. intros H.
  apply bind_inv in H as [(e & (? & [=] & _)%firstRounds & _)|(first & n1 & H0 & H)].
  pose proof H0 as (? & [= <-] & Hlen & E0 & Hc0)%firstRounds.
  assert (Forall (λ tl : Track.t * Lookup, ∀ k e, tl.2 = Failed k e → cause e)
            (zip tracks first)) as Hall.
  { clear -Hc0. revert tracks. induction Hc0 as [|lookup first Hc _ IH]; intros [|track tracks];
      simpl; constructor; [done|apply IH]. }
  apply bind_inv in H
    as [(e & (? & [=] & _)%(secondRounds _ _ _ _ _ Hall) & _)|(second & n2 & H1 & H)].
  pose proof H1 as (? & [= <-] & Hlen' & E1 & Hc1)%(secondRounds _ _ _ _ _ Hall).
  rewrite length_zip in Hlen'.
  exists first, n1, second.
  assert (n' = n2 ∧ match rejection second with
                    | Some e => r = Threw e ∧ cause e
                    | None => r = Ok (hit_of <$> second)
                    end) as [-> Hlast].
  { destruct (rejection second) as [e|] eqn:Hrej; injection H as <- <-;
      (split; [done|]); [|done].
    split; [done|]. apply rejection_elem in Hrej as (k & Hin).
    rewrite Forall_forall in Hc1. by eapply (proj1 (Hc1 _ Hin)). }
  split_and!; [done|done|done|lia|done|done|exact Hlast].
Qed.

(** One lookup alone is [searchTrack]. *)
Lemma lookups_alone token track n :
  lookups respond token [track] n
  = (hit ← searchTrack respond token track; mret [hit]) n.
Proof.
  unfold lookups, searchTrack, searchByText.
  cbv beta iota zeta delta
    [firstRound secondRound received mbind M_bind mret M_ret Result_bind Result_ret
     settled throw Http.attempt Http.decode Http.fetch mapM zip_with fst snd
     Http.platform Http.sent].
  destruct (truthy (Track.isrc track)).
  - destruct (respond _ _) as [[response|e] p1]; [|reflexivity].
    destruct (Http.parsed response) as [data|e]; [|reflexivity].
    destruct (found data) as [[hit|]|e]; [reflexivity| |reflexivity].
    cbv beta iota.
    destruct (respond _ _) as [[response'|e] p2]; [|reflexivity].
    destruct (Http.parsed response') as [data'|e]; [|reflexivity].
    destruct (found data') as [[hit|]|e]; reflexivity.
  - destruct (respond _ _) as [[response|e] p1]; [|reflexivity].
    destruct (Http.parsed response) as [data|e]; [|reflexivity].
    destruct (found data) as [[hit|]|e]; reflexivity.
Qed.


Lemma omap_id_fmap {A B} (f : A → B) (l : list (option A)) :
  omap id (fmap (M := option) f <$> l) = f <$> omap id l.
Proof. induction l as [|[x|] l IH]; csimpl; by rewrite ?IH. Qed.
End spotify_requests.

Section youtube_requests.
Context {P : Type}.
Variable respond : Http.Request → M P (Http.Response (option YouTubeMusicProvider.Body)).
Import YouTubeMusicProvider.

Lemma youtube_reads : only_reads 1 (searchTrack respond).
Proof.
  intros token track. unfold searchTrack.
  apply (reads_bind 1 0); [apply reads_fetch; split; reflexivity|intros response].
  apply (reads_bind 0 0); [apply reads_decode|intros data]. apply reads_settled.
Qed.


(** A track that was found is counted by the status of the answer to the
    request that adds it. *)
Lemma addEach_step token playlistId track tracks added failed n hit n1 response p' :
  searchTrack respond token track n = (Ok (Some hit), n1) →
  respond (add playlistId token (Track.id hit)) (Http.platform n1) = (Ok response, p') →
  addEach respond token playlistId (track :: tracks) added failed n
  = addEach respond token playlistId tracks
      (if Http.ok response then added + 1 else added)
      (if Http.ok response then failed else failed + 1)
      (Http.mkNet p' (Http.sent n1 ++ [add playlistId token (Track.id hit)])).
Proof.
  intros Hs Hr. simpl. erewrite bind_step by exact Hs. cbv beta iota.
  erewrite bind_step by (apply fetch_run; exact Hr). by destruct (Http.ok response).
Qed.

(** The loop of [addTracks], track by track. *)
Lemma addEach_told token playlistId tracks :
  ∀ added failed n counts n',
    addEach respond token playlistId tracks added failed n = (Ok counts, n') →
    ∃ reqs a f,
      OneByOne respond token playlistId tracks n reqs a f n' ∧
      counts = Counts.mk (added + a) (failed + f).
Proof.
  induction tracks as [|track tracks IH]; intros added failed n counts n' H.
  - injection H as <- <-. exists [], 0, 0. split; [constructor|]. f_equal; lia.
  - simpl in H. apply bind_Ok in H as ([hit|] & n1 & Hs & H).
    + apply bind_Ok in H as (response & n2 & [Hr ->]%fetch_inv & H).
      destruct (Http.ok response) eqn:Hok;
        apply IH in H as (reqs & a & f & Hrun & ->);
        eexists _, _, _; (split; [eapply found_and_added; [exact Hs|exact Hr|exact Hrun]|]);
        rewrite Hok; f_equal; lia.
    + apply IH in H as (reqs & a & f & Hrun & ->).
      eexists _, _, _. split; [eapply not_found; [exact Hs|exact Hrun]|]. f_equal; lia.
Qed.

Lemma OneByOne_addEach token playlistId tracks n reqs a f n' :
  OneByOne respond token playlistId tracks n reqs a f n' →
  ∀ added failed,
    addEach respond token playlistId tracks added failed n
    = (Ok (Counts.mk (added + a) (failed + f)), n').
Proof.
  induction 1 as [n|track tracks n n1 reqs a f n' Hs _ IH
                  |track tracks n hit n1 response p2 reqs a f n' Hs Hr _ IH];
    intros added failed.
  - simpl. unfold mret, M_ret. do 3 f_equal; lia.
  - simpl. erewrite bind_step by exact Hs. cbv beta iota. rewrite IH. do 3 f_equal; lia.
  - erewrite addEach_step by done. rewrite IH.
    destruct (Http.ok response); do 3 f_equal; lia.
Qed.

(** What a run told track by track has sent and counted. *)
Lemma OneByOne_sent token playlistId tracks n reqs a f n' :
  OneByOne respond token playlistId tracks n reqs a f n' →
  Http.sent n' = Http.sent n ++ reqs ∧
  length reqs = (length tracks + length (filter is_post reqs))%nat ∧
  Forall (λ req, lookup req ∨ ∃ videoId, req = add playlistId token videoId) reqs ∧
  0 ≤ a ≤ len (filter is_post reqs) ∧ a + f = len tracks ∧
  len (filter is_post reqs) ≤ len tracks.
Proof.
  unfold len.
  induction 1 as [n|track tracks n n1 reqs a f n' Hs _ IH
                  |track tracks n hit n1 response p2 reqs a f n' Hs Hr _ IH].
  - rewrite app_nil_r. simpl. split_and!; [done..|lia|lia|lia|lia].
  - destruct IH as (E & Hlen & Hall & Ha & Hsum & Hposts).
    pose proof (youtube_text_only _ _ _ _ _ _ Hs) as Es. fold (byText token track) in Es.
    assert (filter is_post (byText token track :: reqs) = filter is_post reqs) as ->
      by reflexivity.
    rewrite E, Es, <- app_assoc. simpl.
    split_and!; [done|lia| |lia|lia|lia|lia].
    constructor; [by left|done].
  - destruct IH as (E & Hlen & Hall & Ha & Hsum & Hposts).
    pose proof (youtube_text_only _ _ _ _ _ _ Hs) as Es. fold (byText token track) in Es.
    assert (filter is_post
              (byText token track :: add playlistId token (Track.id hit) :: reqs)
            = add playlistId token (Track.id hit) :: filter is_post reqs) as ->
      by reflexivity.
    simpl in E. rewrite E, Es, <- !app_assoc. simpl.
    split_and!; [done|lia| |destruct (Http.ok response); lia..].
    constructor; [by left|]. constructor; [right; by eexists|done].
Qed.
End youtube_requests.

Section kkbox_requests.
Context {P : Type}.
Variable KKBOX_TERRITORY : string.
Variable respond : Http.Request → M P (Http.Response (option KKBoxProvider.Body)).
Import KKBoxProvider.

Local Abbreviation searchTrack := (searchTrack KKBOX_TERRITORY respond).
Local Abbreviation resolve := (resolve KKBOX_TERRITORY respond).
Local Abbreviation addTracks := (addTracks KKBOX_TERRITORY respond).

Lemma kkbox_reads : only_reads 1 searchTrack.
Proof.
  intros token track. unfold KKBoxProvider.searchTrack.
  apply (reads_bind 1 0); [apply reads_fetch; split; reflexivity|intros response].
  destruct (negb _); [apply reads_ret|].
  apply (reads_bind 0 0); [apply reads_decode|intros data]. apply reads_settled.
Qed.

(** The first loop of [addTracks] calls [searchTrack] for every track, in
    order, and keeps what was found. *)
Lemma kkbox_resolve_mapM token tracks :
  ∀ resolvedTracks failed n,
    resolve token tracks resolvedTracks failed n
    = match mapM (searchTrack token) tracks n with
      | (Ok hits, n1) =>
          (Ok (resolvedTracks ++ omap id hits,
               failed + (len hits - len (omap id hits))), n1)
      | (Threw e, n1) => (Threw e, n1)
      end.
Proof.
  unfold len.
  induction tracks as [|track tracks IH]; intros resolvedTracks failed n.
  - simpl. unfold mret, M_ret. rewrite app_nil_r. do 3 f_equal. lia.
  - simpl. unfold mbind, M_bind.
    destruct (KKBoxProvider.searchTrack _ _ _ _ _) as [[[hit|]|e] n1]; [| |done]; rewrite IH;
      destruct (mapM (M := M (Http.Net P)) _ tracks n1) as [[hits|e] n2]; [|done| |done];
      unfold mret, M_ret; csimpl.
    + rewrite <- app_assoc. do 3 f_equal. simpl. lia.
    + do 3 f_equal. lia.
Qed.




Lemma mapM_reads_sent {A B} k (f : A → M (Http.Net P) B) (l : list A) n r n' :
  (∀ x, reads k (f x)) → mapM f l n = (r, n') →
  ∃ lookups, Http.sent n' = Http.sent n ++ lookups ∧ Forall lookup lookups.
Proof.
  intros Hf H. apply (mapM_reads k f l Hf) in H as (reqs & E & Hreqs & _). by exists reqs.
Qed.

Lemma kkbox_bulk :
  adds_in_bulk respond searchTrack
    (λ token playlistId resolvedTracks req,
       req = add playlistId token (String.concat "," (Track.id <$> resolvedTracks)))
    addTracks.
Proof.
  intros token playlistId tracks n counts n' H.
  unfold KKBoxProvider.addTracks in H.
  apply bind_Ok in H as ([resolvedTracks failed] & n1 & Hres & H).
  rewrite kkbox_resolve_mapM in Hres.
  destruct (mapM (M := M (Http.Net P)) _ tracks n) as [[hits|e'] n1'] eqn:Hm; [|discriminate].
  injection Hres as <- <- <-.
  pose proof (mapM_reads_sent 1 _ _ _ _ _ (kkbox_reads token) Hm) as (lookups & E & Hl).
  assert (length hits = length tracks) as Hlen by (by eapply mapM_Ok_length).
  pose proof (omap_id_length hits) as Hle.
  exists hits, n1', lookups. split_and!; [done..|]. simpl in *.
  case_bool_decide as Hsome.
  - apply bind_Ok in H as (response & n2 & [Hr ->]%fetch_inv & H).
    destruct (omap id hits) as [|hit resolved] eqn:Hhits;
      [unfold len in Hsome; simpl in Hsome; lia|].
    assert (n' = Http.mkNet (Http.platform n2)
                   (Http.sent n1' ++ [add playlistId token
                      (String.concat "," (Track.id <$> hit :: resolved))]) ∧
            counts = if Http.ok response
                     then Counts.mk (len (hit :: resolved))
                            (len tracks - len (hit :: resolved))
                     else Counts.mk 0 (len tracks)) as [-> ->].
    { unfold len in *. simpl in *.
      destruct (Http.ok response); injection H as <- <-; (split; [done|]); f_equal; lia. }
    eexists _, _, response. split_and!; [reflexivity|reflexivity|exact Hr|reflexivity].
  - destruct (omap id hits) as [|hit resolved] eqn:Hhits;
      [|unfold len in Hsome; simpl in Hsome; lia].
    injection H as <- <-. split; [done|]. unfold len in *. simpl in *. f_equal. lia.
Qed.
End kkbox_requests.

Section apple_requests.
Context {P : Type}.
Variable generateDeveloperToken : M P string.
Variable respond : Http.Request → M P (Http.Response (option AppleMusicProvider.Body)).
Import AppleMusicProvider.

Local Abbreviation searchTrack := (searchTrack generateDeveloperToken respond).
Local Abbreviation resolve := (resolve generateDeveloperToken respond).
Local Abbreviation addTracks := (addTracks generateDeveloperToken respond).
Local Abbreviation getHeaders := (getHeaders generateDeveloperToken).

Lemma reads_getHeaders token : reads 0 (getHeaders token).
Proof. intros n r n' [E _]%getHeaders_inv. exists []. by rewrite app_nil_r. Qed.

Lemma apple_text_reads headers track : reads 1 (searchByText respond headers track).
Proof.
  unfold searchByText.
  apply (reads_bind 1 0); [apply reads_fetch; split; reflexivity|intros response].
  destruct (negb _); [apply reads_ret|].
  apply (reads_bind 0 0); [apply reads_decode|intros data]. apply reads_settled.
Qed.

Lemma apple_reads : only_reads 2 searchTrack.
Proof.
  intros token track. unfold AppleMusicProvider.searchTrack.
  apply (reads_bind 0 2); [apply reads_getHeaders|intros headers].
  destruct (truthy _); [|apply (reads_weaken 1); [lia|apply apple_text_reads]].
  apply (reads_bind 1 1); [apply reads_fetch; split; reflexivity|intros response].
  destruct (Http.ok response); [|apply apple_text_reads].
  apply (reads_bind 0 1); [apply reads_decode|intros data].
  apply (reads_bind 0 1); [apply reads_settled|intros [hit|]];
    [apply (reads_weaken 0); [lia|apply reads_ret]|apply apple_text_reads].
Qed.

Local Abbreviation no_token := (λ e, ∃ p p', generateDeveloperToken p = (Threw e, p')).

Lemma apple_resolve_mapM token tracks :
  ∀ resolvedTracks failed n,
    resolve token tracks resolvedTracks failed n
    = match mapM (searchTrack token) tracks n with
      | (Ok hits, n1) =>
          (Ok (resolvedTracks ++ omap id hits,
               failed + (len hits - len (omap id hits))), n1)
      | (Threw e, n1) => (Threw e, n1)
      end.
Proof.
  unfold len.
  induction tracks as [|track tracks IH]; intros resolvedTracks failed n.
  - simpl. unfold mret, M_ret. rewrite app_nil_r. do 3 f_equal. lia.
  - simpl. unfold mbind, M_bind.
    destruct (AppleMusicProvider.searchTrack _ _ _ _ _) as [[[hit|]|e] n1]; [| |done];
      rewrite IH;
      destruct (mapM (M := M (Http.Net P)) _ tracks n1) as [[hits|e] n2]; [|done| |done];
      unfold mret, M_ret; csimpl.
    + rewrite <- app_assoc. do 3 f_equal. simpl. lia.
    + do 3 f_equal. lia.
Qed.




Lemma apple_bulk :
  adds_in_bulk respond searchTrack
    (λ token playlistId resolvedTracks req,
       ∃ developerToken,
         req = add playlistId
                 [Http.bearer developerToken; ("Music-User-Token", token);
                  Http.content_type "application/json"] resolvedTracks)
    addTracks.
Proof.
  intros token playlistId tracks n counts n' H.
  unfold AppleMusicProvider.addTracks in H.
  apply bind_Ok in H as ([resolvedTracks failed] & n1 & Hres & H).
  rewrite apple_resolve_mapM in Hres.
  destruct (mapM (M := M (Http.Net P)) _ tracks n) as [[hits|e'] n1'] eqn:Hm; [|discriminate].
  injection Hres as <- <- <-.
  pose proof (mapM_reads 2 _ tracks (apple_reads token) _ _ _ Hm) as (lookups & E & Hl & _).
  assert (length hits = length tracks) as Hlen by (by eapply mapM_Ok_length).
  pose proof (omap_id_length hits) as Hle.
  exists hits, n1', lookups. split_and!; [done..|]. simpl in *.
  case_bool_decide as Hsome.
  - apply bind_Ok in H as (headers & n2 & [Eh (developerToken & _ & ->)]%getHeaders_inv & H).
    apply bind_Ok in H as (response & n3 & [Hr ->]%fetch_inv & H).
    destruct (omap id hits) as [|hit resolved] eqn:Hhits;
      [unfold len in Hsome; simpl in Hsome; lia|].
    set (request := add playlistId _ _) in *.
    assert (n' = Http.mkNet (Http.platform n3) (Http.sent n2 ++ [request]) ∧
            counts = if Http.ok response
                     then Counts.mk (len (hit :: resolved))
                            (len tracks - len (hit :: resolved))
                     else Counts.mk 0 (len tracks)) as [-> ->].
    { unfold len in *. simpl in *.
      destruct (Http.ok response); injection H as <- <-; (split; [done|]); f_equal; lia. }
    eexists request, _, response.
    split_and!; [by eexists|simpl; by rewrite Eh|exact Hr|reflexivity].
  - destruct (omap id hits) as [|hit resolved] eqn:Hhits;
      [|unfold len in Hsome; simpl in Hsome; lia].
    injection H as <- <-. split; [done|]. unfold len in *. simpl in *. f_equal. lia.
Qed.
End apple_requests.

(** ** More on the adapters *)

Lemma omap_id_of {A B} (f : A → option B) (l : list A) : omap id (f <$> l) = omap f l.
Proof. induction l as [|x l IH]; csimpl; [done|]. rewrite IH. by destruct (f x). Qed.

Section adapter_extras.
Context {P1 P2 P3 P4 : Type}.
Variable spotify : Http.Request → M P1 (Http.Response (option SpotifyProvider.Body)).
Variable youtube : Http.Request → M P2 (Http.Response (option YouTubeMusicProvider.Body)).
Variable KKBOX_TERRITORY : string.
Variable kkbox : Http.Request → M P3 (Http.Response (option KKBoxProvider.Body)).
Variable generateDeveloperToken : M P4 string.
Variable apple : Http.Request → M P4 (Http.Response (option AppleMusicProvider.Body)).

(** X6. [searchTrack] of an adapter only reads: whatever its outcome, every
    request it sent is a [GET] without a body, and it sent at most two of
    them in the Spotify and the Apple Music adapter (the ISRC lookup and
    the text search), at most one in the YouTube Music and the KKBox
    adapter. *)
Theorem searchTrack_only_reads :
  only_reads 2 (SpotifyProvider.searchTrack spotify) ∧
  only_reads 1 (YouTubeMusicProvider.searchTrack youtube) ∧
  only_reads 1 (KKBoxProvider.searchTrack KKBOX_TERRITORY kkbox) ∧
  only_reads 2 (AppleMusicProvider.searchTrack generateDeveloperToken apple).
Proof.
  split_and!; [apply spotify_reads|apply youtube_reads|apply kkbox_reads|apply apple_reads].
Qed.


(** X8. [addTracks] of the Spotify adapter starts the lookups of all
    tracks together. A lookup alone is [searchTrack]. When [addTracks]
    resolves, it has sent the first request of every track in the order of
    the tracks (the ISRC lookup for a track with an ISRC, the text search
    otherwise), then the text search of every track whose ISRC lookup had
    no hit, in the order of the tracks, and then one request per batch; no
    lookup rejected; the batches hold the uris [spotify:track:<id>] of
    what the lookups found, in the order of the tracks, each once; no
    batch is empty and none has more than 100 uris. The tracks counted as
    added are among those found, and every track is counted. *)
Theorem spotify_batches token playlistId tracks n :
  (∀ track m,
     SpotifyProvider.lookups spotify token [track] m
     = (hit ← SpotifyProvider.searchTrack spotify token track; mret [hit]) m) ∧
  ∀ counts n',
    SpotifyProvider.addTracks spotify token playlistId tracks n = (Ok counts, n') →
    ∃ first n1 second n2 batches,
      mapM (SpotifyProvider.firstRound spotify token) tracks n = (Ok first, n1) ∧
      mapM (SpotifyProvider.secondRound spotify token) (zip tracks first) n1
        = (Ok second, n2) ∧
      SpotifyProvider.rejection second = None ∧
      length second = length tracks ∧
      Http.sent n1 = Http.sent n
        ++ ((λ track, if truthy (Track.isrc track) then SpotifyProvider.byIsrc token track
                      else SpotifyProvider.byText token track) <$> tracks) ∧
      Http.sent n2 = Http.sent n1
        ++ (SpotifyProvider.byText token
              <$> (fst <$> filter (λ tl, awaits_text tl.2) (zip tracks first))) ∧
      let found := omap SpotifyProvider.hit_of second in
      Http.sent n' = Http.sent n2 ++ (SpotifyProvider.add playlistId token <$> batches) ∧
      concat batches = (λ t, "spotify:track:" +:+ Track.id t) <$> found ∧
      Forall (λ batch, (0 < length batch ≤ 100)%nat) batches ∧
      0 ≤ Counts.added counts ≤ len found ∧
      Counts.added counts + Counts.failed counts = len tracks.
Proof.
  split; [intros track m; apply lookups_alone|].
  intros counts n' H.
  destruct (spotify_counts spotify _ _ _ _ _ _ H) as (Hadded & _ & Hsum).
  unfold SpotifyProvider.addTracks in H.
  apply bind_Ok in H as (hits & n2 & Hlookups & H).
  apply lookups_inv in Hlookups
    as (first & n1 & second & Hfirst & Hsecond & _ & Hlen & E1 & E2 & Hrej).
  destruct (SpotifyProvider.rejection second) as [e|] eqn:Hnone;
    [by destruct Hrej|]. injection Hrej as ->.
  rewrite omap_id_fmap, omap_id_of in H.
  pose proof H as (batches & E' & Hcat & Hsize & _ & Hf)%addBatches_sent.
  apply addBatches_Ok in H as (_ & _ & Hall); [|lia|].
  2:{ pose proof (omap_id_length (SpotifyProvider.hit_of <$> second)) as Hle.
      rewrite omap_id_of in Hle. unfold len. rewrite !length_fmap in *. lia. }
  exists first, n1, second, n2, batches. rewrite drop_0 in Hcat.
  pose proof (omap_id_length (SpotifyProvider.hit_of <$> second)) as Hle.
  rewrite omap_id_of in Hle.
  unfold len in *. rewrite !length_fmap, Nat.sub_0_r in *.
  split_and!; [done..|lia|lia|done].
Qed.

(** X9. [addTracks] of the YouTube Music adapter goes track by track, and
    a run that resolves is told so: every track is searched for with
    [searchTrack], each from the state the step before left; a track that
    is not found is counted as failed; for a track that is found the
    request that adds the video found is sent right after its search, and
    the track is counted as added or as failed by the status of the
    answer. So the requests sent are one search per track and one request
    to add per track found, never more than there are tracks, and the
    tracks counted as added are among those. Every run told in this way
    is a run of [addTracks]. *)
Theorem youtube_one_by_one token playlistId tracks n counts n' :
  (YouTubeMusicProvider.addTracks youtube token playlistId tracks n = (Ok counts, n') →
   ∃ reqs,
     OneByOne youtube token playlistId tracks n reqs (Counts.added counts)
       (Counts.failed counts) n' ∧
     Http.sent n' = Http.sent n ++ reqs ∧
     length reqs = (length tracks + length (filter is_post reqs))%nat ∧
     Forall (λ req, lookup req ∨
                    ∃ videoId, req = YouTubeMusicProvider.add playlistId token videoId)
       reqs ∧
     Counts.added counts ≤ len (filter is_post reqs) ∧
     len (filter is_post reqs) ≤ len tracks) ∧
  (∀ reqs,
     OneByOne youtube token playlistId tracks n reqs (Counts.added counts)
       (Counts.failed counts) n' →
     YouTubeMusicProvider.addTracks youtube token playlistId tracks n = (Ok counts, n')).
Proof.
  split.
  - intros (reqs & a & f & Hrun & ->)%addEach_told. simpl.
    destruct (OneByOne_sent _ _ _ _ _ _ _ _ _ Hrun) as (E & Hlen & Hall & Ha & _ & Hposts).
    exists reqs. split_and!; [done..|lia|done].
  - intros reqs Hrun. unfold YouTubeMusicProvider.addTracks.
    rewrite (OneByOne_addEach _ _ _ _ _ _ _ _ _ Hrun). simpl. by destruct counts.
Qed.

(** X10. The KKBox and the Apple Music adapter add in bulk. When
    [addTracks] resolves, it has called [searchTrack] for every track, in
    order, and these lookups are all it has sent so far; the tracks that
    resolved are what the calls found, in order. If none resolved, no
    request follows and every track is counted as failed. Otherwise one
    request follows that names all the resolved tracks in order (KKBox:
    their ids joined by commas; Apple Music: one entry per track), and by
    the status of its answer the resolved tracks are counted as added all
    together, or every track is counted as failed. *)
Theorem addTracks_in_bulk :
  adds_in_bulk kkbox (KKBoxProvider.searchTrack KKBOX_TERRITORY kkbox)
    (λ token playlistId resolvedTracks req,
       req = KKBoxProvider.add playlistId token
               (String.concat "," (Track.id <$> resolvedTracks)))
    (KKBoxProvider.addTracks KKBOX_TERRITORY kkbox) ∧
  adds_in_bulk apple (AppleMusicProvider.searchTrack generateDeveloperToken apple)
    (λ token playlistId resolvedTracks req,
       ∃ developerToken,
         req = AppleMusicProvider.add playlistId
                 [Http.bearer developerToken; ("Music-User-Token", token);
                  Http.content_type "application/json"] resolvedTracks)
    (AppleMusicProvider.addTracks generateDeveloperToken apple).
Proof. split; [apply kkbox_bulk|apply apple_bulk]. Qed.
End adapter_extras.

(** *** On the platforms of the scenario *)

Lemma searchTrack_only_reads_witness :
  ∃ r n',
    AppleMusicProvider.searchTrack Scenario.developerToken Scenario.down "token" Scenario.asked
      Scenario.start = (r, n') ∧
    ∃ reqs, Http.sent n' = Http.sent Scenario.start ++ reqs ∧ Forall lookup reqs
            ∧ (length reqs ≤ 2)%nat.
Proof.
  eassert (AppleMusicProvider.searchTrack Scenario.developerToken Scenario.down "token"
             Scenario.asked Scenario.start = (_, _)) as H by (vm_compute; reflexivity).
  eexists _, _. split; [exact H|].
  exact (proj2 (proj2 (proj2 (searchTrack_only_reads
                                (Scenario.down (B := option SpotifyProvider.Body))
                                (Scenario.down (B := option YouTubeMusicProvider.Body)) "TW"
                                (Scenario.down (B := option KKBoxProvider.Body))
                                Scenario.developerToken Scenario.down)))
           _ _ _ _ _ H).
Defined.


Lemma spotify_batches_witness :
  ∃ counts n',
    SpotifyProvider.addTracks Scenario.spotify "token" "playlist" long_playlist Scenario.start
      = (Ok counts, n') ∧
    Counts.added counts = 150 ∧
    length (Http.sent n') = 152%nat ∧
    ∃ first n1 second n2 batches,
      mapM (SpotifyProvider.firstRound Scenario.spotify "token") long_playlist Scenario.start
        = (Ok first, n1) ∧
      mapM (SpotifyProvider.secondRound Scenario.spotify "token") (zip long_playlist first) n1
        = (Ok second, n2) ∧
      SpotifyProvider.rejection second = None ∧
      length second = length long_playlist ∧
      Http.sent n1 = Http.sent Scenario.start
        ++ ((λ track, if truthy (Track.isrc track)
                      then SpotifyProvider.byIsrc "token" track
                      else SpotifyProvider.byText "token" track) <$> long_playlist) ∧
      Http.sent n2 = Http.sent n1
        ++ (SpotifyProvider.byText "token"
              <$> (fst <$> filter (λ tl, awaits_text tl.2) (zip long_playlist first))) ∧
      let found := omap SpotifyProvider.hit_of second in
      Http.sent n' = Http.sent n2 ++ (SpotifyProvider.add "playlist" "token" <$> batches) ∧
      concat batches = (λ t, "spotify:track:" +:+ Track.id t) <$> found ∧
      Forall (λ batch, (0 < length batch ≤ 100)%nat) batches ∧
      0 ≤ Counts.added counts ≤ len found ∧
      Counts.added counts + Counts.failed counts = len long_playlist.
Proof.
  eassert (SpotifyProvider.addTracks Scenario.spotify "token" "playlist" long_playlist
             Scenario.start = (Ok _, _)) as H by (vm_compute; reflexivity).
  eexists _, _. split; [exact H|]. split; [reflexivity|]. split; [reflexivity|].
  exact (proj2 (spotify_batches Scenario.spotify "token" "playlist" long_playlist
                  Scenario.start) _ _ H).
Defined.

Lemma youtube_one_by_one_witness :
  ∃ counts n',
    YouTubeMusicProvider.addTracks Scenario.youtube "token" "playlist"
      [Scenario.asked; Scenario.alpha] Scenario.start = (Ok counts, n') ∧
    Http.sent n' =
      [YouTubeMusicProvider.search "Band%20Song" "token";
       YouTubeMusicProvider.add "playlist" "token" "cover";
       YouTubeMusicProvider.search "Ann%20Alpha" "token";
       YouTubeMusicProvider.add "playlist" "token" "cover"] ∧
    ∃ reqs,
      OneByOne Scenario.youtube "token" "playlist" [Scenario.asked; Scenario.alpha]
        Scenario.start reqs (Counts.added counts) (Counts.failed counts) n' ∧
      Http.sent n' = Http.sent Scenario.start ++ reqs ∧
      length reqs = (2 + length (filter is_post reqs))%nat ∧
      Forall (λ req, lookup req ∨
                     ∃ videoId, req = YouTubeMusicProvider.add "playlist" "token" videoId) reqs ∧
      Counts.added counts ≤ len (filter is_post reqs) ∧
      len (filter is_post reqs) ≤ 2.
Proof.
  eassert (YouTubeMusicProvider.addTracks Scenario.youtube "token" "playlist"
             [Scenario.asked; Scenario.alpha] Scenario.start = (Ok _, _)) as H
    by (vm_compute; reflexivity).
  eexists _, _. split; [exact H|]. split; [reflexivity|].
  exact (proj1 (youtube_one_by_one Scenario.youtube _ _ _ _ _ _) H).
Defined.

Lemma addTracks_in_bulk_witness :
  ∃ counts n',
    KKBoxProvider.addTracks "TW" Scenario.kkbox "token" "playlist"
      [Scenario.asked; Scenario.alpha] Scenario.start = (Ok counts, n') ∧
    counts = Counts.mk 2 0 ∧
    ∃ hits n1 lookups,
      mapM (KKBoxProvider.searchTrack "TW" Scenario.kkbox "token")
        [Scenario.asked; Scenario.alpha] Scenario.start = (Ok hits, n1) ∧
      Http.sent n1 = Http.sent Scenario.start ++ lookups ∧ Forall lookup lookups ∧
      let resolvedTracks := omap id hits in
      match resolvedTracks with
      | [] => n' = n1 ∧ counts = Counts.mk 0 2
      | _ =>
          ∃ req p response,
            req = KKBoxProvider.add "playlist" "token"
                    (String.concat "," (Track.id <$> resolvedTracks)) ∧
            Http.sent n' = Http.sent n1 ++ [req] ∧
            Scenario.kkbox req p = (Ok response, Http.platform n') ∧
            counts = if Http.ok response
                     then Counts.mk (len resolvedTracks) (2 - len resolvedTracks)
                     else Counts.mk 0 2
      end.
Proof.
  eassert (KKBoxProvider.addTracks "TW" Scenario.kkbox "token" "playlist"
             [Scenario.asked; Scenario.alpha] Scenario.start = (Ok _, _)) as H
    by (vm_compute; reflexivity).
  eexists _, _. split; [exact H|]. split; [reflexivity|].
  exact (proj1 (addTracks_in_bulk "TW" Scenario.kkbox Scenario.developerToken Scenario.apple)
           _ _ _ _ _ _ H).
Defined.

(** ** Strings *)

Lemma append_nil_l (a : string) : "" +:+ a = a.
Proof. reflexivity. Qed.

Lemma append_cons (x : ascii) (a b : string) : String x a +:+ b = String x (a +:+ b).
Proof. reflexivity. Qed.

Lemma append_assoc (a b c : string) : (a +:+ b) +:+ c = a +:+ (b +:+ c).
Proof.
  induction a as [|x a IH]; [done|]. by rewrite !append_cons, IH.
Qed.

Lemma append_nil_r (a : string) : a +:+ "" = a.
Proof. induction a as [|x a IH]; [done|]. by rewrite append_cons, IH. Qed.

Lemma length_append (a b : string) :
  String.length (a +:+ b) = (String.length a + String.length b)%nat.
Proof. induction a as [|x a IH]; [done|]. rewrite append_cons. simpl. by rewrite IH. Qed.

(** ** Durations *)

Section durations.
Import Duration.

Lemma show_numeral (n : N) :
  ∃ d, d ≠ Decimal.Nil ∧ show (Z.of_N n) = NilEmpty.string_of_uint d ∧
       Z.of_uint d = Z.of_N n.
Proof.
  unfold show. pose proof (DecimalZ.of_to (Z.of_N n)) as Hn.
  destruct n as [|p]; simpl in *.
  - by exists (Decimal.D0 Decimal.Nil).
  - exists (Pos.to_uint p). split_and!; [|by destruct (Pos.to_uint p)|done].
    intros Hnil. rewrite Hnil in Hn. discriminate.
Qed.

Lemma digits_numeral d rest :
  (∀ c rest', rest = String c rest' → digit c = None) →
  digits (NilEmpty.string_of_uint d +:+ rest) = (NilEmpty.string_of_uint d, rest).
Proof.
  intros Hrest. induction d; simpl; rewrite ?append_cons; simpl; rewrite ?IHd; try done.
  rewrite append_nil_l. destruct rest as [|c rest']; [done|]. simpl.
  by rewrite (Hrest c rest').
Qed.

Lemma numeral_string d : numeral (NilEmpty.string_of_uint d) = d.
Proof. induction d; simpl; by rewrite ?IHd. Qed.

(** Rounding to a double. *)
Lemma double_exact n : 0 ≤ n ≤ 2 ^ 53 → double n = n.
Proof.
  intros [Hn Hle]. destruct (decide (n = 2 ^ 53)) as [->|Hne]; [reflexivity|].
  unfold double. destruct (decide (n = 0)) as [->|Hn0]; [reflexivity|].
  assert (Z.log2 n < 53) by (apply Z.log2_lt_pow2; lia).
  by rewrite (proj2 (Z.leb_le _ _)) by lia.
Qed.

Lemma double_nonneg n : 0 ≤ n → 0 ≤ double n.
Proof.
  intros Hn. unfold double. cbv zeta. destruct (_ <=? 0) eqn:He; [done|].
  apply Z.leb_gt in He.
  pose proof (proj2 (Z.shiftr_nonneg n (Z.log2 n - 52)) Hn).
  pose proof (Z.pow_pos_nonneg 2 (Z.log2 n - 52) ltac:(lia) ltac:(lia)).
  destruct (_ || _); apply Z.mul_nonneg_nonneg; lia.
Qed.

Lemma double_large n : 2 ^ 53 ≤ n → 2 ^ 53 ≤ double n.
Proof.
  intros Hn. unfold double. cbv zeta.
  assert (53 ≤ Z.log2 n) as Hlog by (apply Z.log2_le_pow2; lia).
  rewrite (proj2 (Z.leb_gt _ _)) by lia.
  set (e := Z.log2 n - 52) in *.
  assert (2 ^ 52 ≤ Z.shiftr n e) as Hq.
  { rewrite Z.shiftr_div_pow2 by lia. apply Z.div_le_lower_bound; [lia|].
    rewrite <- Z.pow_add_r by lia. replace (e + 52) with (Z.log2 n) by lia.
    apply Z.log2_spec. lia. }
  assert (2 ≤ 2 ^ e) as He.
  { change 2 with (2 ^ 1) at 1. apply Z.pow_le_mono_r; lia. }
  destruct (_ || _); nia.
Qed.

Lemma parseInt_show (n : N) :
  parseInt (or_else (Some (show (Z.of_N n))) "0") = double (Z.of_N n).
Proof.
  destruct (show_numeral n) as (d & Hd & -> & <-). unfold parseInt, or_else.
  destruct d; try done; simpl; by rewrite numeral_string.
Qed.

(** A group at the digits and the letter it looks for, and at the digits
    and another letter. *)
Lemma group_hit (l c : ascii) (n : N) rest :
  digit c = None → letter l c = true →
  group l (show (Z.of_N n) +:+ String c rest) = (Some (show (Z.of_N n)), rest).
Proof.
  intros Hc Hl. destruct (show_numeral n) as (d & Hd & -> & _). unfold group.
  rewrite digits_numeral by (by intros ? ? [= <- _]).
  destruct d; try done; simpl; by rewrite Hl.
Qed.

Lemma group_miss (l c : ascii) (n : N) rest :
  digit c = None → letter l c = false →
  group l (show (Z.of_N n) +:+ String c rest) = (None, show (Z.of_N n) +:+ String c rest).
Proof.
  intros Hc Hl. destruct (show_numeral n) as (d & Hd & -> & _). unfold group.
  rewrite digits_numeral by (by intros ? ? [= <- _]).
  destruct d; try done; simpl; by rewrite Hl.
Qed.

Lemma parseInt_nonneg s : 0 ≤ parseInt s.
Proof. unfold parseInt. apply double_nonneg. unfold Z.of_uint. lia. Qed.

Lemma parseDuration_nonneg duration : 0 ≤ parseDuration duration.
Proof.
  unfold parseDuration. destruct (pattern duration) as [[[h m] s]|]; [|done].
  pose proof (parseInt_nonneg (or_else h "0")).
  pose proof (parseInt_nonneg (or_else m "0")).
  pose proof (parseInt_nonneg (or_else s "0")). cbv zeta. unfold mul, add.
  repeat (apply double_nonneg; try apply Z.add_nonneg_nonneg;
          try apply Z.mul_nonneg_nonneg; try lia).
Qed.

(** X11. [parseDuration] reads an ISO 8601 duration of hours, minutes and
    seconds, each of them optional: as long as the duration in
    milliseconds, [((h * 60 + m) * 60 + s) * 1000], is not more than 2^53,
    which a JavaScript number holds exactly, the result is that number,
    with 0 for a component that is left out (so [PT] alone is 0). Minutes
    and seconds are not capped at 59. Beyond 2^53 the numbers are rounded:
    [PT9007199254740993S] does not give 9007199254740993000. *)
Theorem parseDuration_iso8601 (h m s : option N) :
  let total :=
    ((Z.of_N (default 0%N h) * 60 + Z.of_N (default 0%N m)) * 60 + Z.of_N (default 0%N s))
    * 1000 in
  (total ≤ 2 ^ 53 → parseDuration (iso8601 h m s) = total) ∧
  parseDuration "PT9007199254740993S" ≠ 9007199254740993000.
Proof.
  intros total. split; [|by vm_compute].
  intros Hle.
  assert (parseDuration (iso8601 h m s)
          = mul (add (mul (add (mul (double (Z.of_N (default 0%N h))) 60)
                             (double (Z.of_N (default 0%N m)))) 60)
                   (double (Z.of_N (default 0%N s)))) 1000) as ->.
  { unfold parseDuration, iso8601, pattern, component.
    destruct h as [h|], m as [m|], s as [s|];
      rewrite ?append_assoc, ?append_cons, ?append_nil_l, ?append_nil_r;
      cbn -[or_else parseInt show mul add double];
      repeat first
        [ rewrite group_hit by done
        | rewrite group_miss by done
        | rewrite parseInt_show
        | progress cbn -[or_else parseInt show mul add double] ];
      try done. }
  subst total. unfold mul, add.
  set (H := Z.of_N (default 0%N h)) in *. set (M := Z.of_N (default 0%N m)) in *.
  set (S := Z.of_N (default 0%N s)) in *.
  assert (0 ≤ H ∧ 0 ≤ M ∧ 0 ≤ S) as (? & ? & ?) by (subst H M S; lia).
  rewrite !(double_exact H), !(double_exact M), !(double_exact S) by lia.
  rewrite (double_exact (H * 60)) by lia.
  rewrite (double_exact (H * 60 + M)) by lia.
  rewrite (double_exact ((H * 60 + M) * 60)) by lia.
  rewrite (double_exact ((H * 60 + M) * 60 + S)) by lia.
  apply double_exact. lia.
Qed.

(** X12. Whatever the string, [parseDuration] returns a number that is not
    negative, and a string that does not start with [PT] (in either case)
    gives 0. A result below 2^53 is a whole number of seconds in
    milliseconds, a multiple of 1000; a result beyond need not be: for
    [PT72057594037929S] it is 72057594037928992. *)
Theorem parseDuration_range (duration : string) :
  0 ≤ parseDuration duration ∧
  (parseDuration duration < 2 ^ 53 → (1000 | parseDuration duration)) ∧
  (String.prefix "PT" duration = false → String.prefix "pt" duration = false →
   String.prefix "Pt" duration = false → String.prefix "pT" duration = false →
   parseDuration duration = 0) ∧
  parseDuration "PT72057594037929S" = 72057594037928992.
Proof.
  split; [apply parseDuration_nonneg|]. unfold parseDuration. split_and!.
  - destruct (pattern duration) as [[[h m] s]|]; [|by exists 0]. cbv zeta.
    set (d := add (mul (add (mul _ 60) _) 60) _). unfold mul. intros Hlt.
    assert (0 ≤ d * 1000) as Hx0.
    { pose proof (parseInt_nonneg (or_else h "0")).
      pose proof (parseInt_nonneg (or_else m "0")).
      pose proof (parseInt_nonneg (or_else s "0")). subst d. unfold mul, add.
      apply Z.mul_nonneg_nonneg; [|lia].
      repeat (apply double_nonneg; try apply Z.add_nonneg_nonneg;
              try apply Z.mul_nonneg_nonneg; try lia). }
    destruct (Z_lt_le_dec (d * 1000) (2 ^ 53)) as [Hx|Hx];
      [|apply double_large in Hx; lia].
    rewrite (double_exact (d * 1000)) by lia. by eexists.
  - intros H1 H2 H3 H4. unfold pattern.
    destruct duration as [|p [|t rest]]; [done..|].
    assert (letter "P" p = (p =? "P")%char || (p =? "p")%char) as -> by reflexivity.
    assert (letter "T" t = (t =? "T")%char || (t =? "t")%char) as -> by reflexivity.
    destruct rest; simpl in H1, H2, H3, H4;
      destruct (Ascii.eqb_spec p "P"), (Ascii.eqb_spec p "p"),
        (Ascii.eqb_spec t "T"), (Ascii.eqb_spec t "t"); subst; simpl in *; done.
  - by vm_compute.
Qed.
End durations.

(** ** Base64 *)

Section base64.
Import Base64.

Lemma replace_append c t a b : replace c t (a +:+ b) = replace c t a +:+ replace c t b.
Proof.
  induction a as [|x a IH]; [done|].
  rewrite append_cons. simpl. by rewrite IH, append_assoc.
Qed.

Lemma base64url_cons c s :
  replace "/" "_" (replace "+" "-" (replace "=" "" (String c s)))
  = url c +:+ replace "/" "_" (replace "+" "-" (replace "=" "" s)).
Proof.
  unfold url. change (String c s) with (String c "" +:+ s).
  by rewrite !replace_append.
Qed.

Lemma url_sextet i :
  (i < 64)%N →
  ∃ c, url (sextet i) = String c "" ∧ urlsafe c = true ∧ bits c = Some i.
Proof.
  intros Hi.
  assert (forallb (λ i, match url (sextet i) with
                        | String c "" => urlsafe c && bool_decide (bits c = Some i)
                        | _ => false
                        end) (N.of_nat <$> seq 0 64) = true) as H
    by (vm_compute; reflexivity).
  rewrite forallb_forall in H. specialize (H i).
  destruct (url (sextet i)) as [|c [|]].
  - discriminate H. apply list_elem_of_In, list_elem_of_fmap.
    exists (N.to_nat i). split; [lia|]. apply elem_of_seq. lia.
  - exists c. apply andb_prop in H as [? ?%bool_decide_eq_true]; [done|].
    apply list_elem_of_In, list_elem_of_fmap.
    exists (N.to_nat i). split; [lia|]. apply elem_of_seq. lia.
  - discriminate H. apply list_elem_of_In, list_elem_of_fmap.
    exists (N.to_nat i). split; [lia|]. apply elem_of_seq. lia.
Qed.

Local Ltac arith := Z.to_euclidean_division_equations; lia.

Lemma byte_bounded (x : ascii) : (N_of_ascii x < 256)%N.
Proof. apply N_ascii_bounded. Qed.

(** The output of [base64url], group by group. *)
Lemma base64url_3 x y z b :
  ∃ c1 c2 c3 c4,
    base64url (String x (String y (String z b)))
      = String c1 (String c2 (String c3 (String c4 (base64url b)))) ∧
    Forall (λ c, urlsafe c = true) [c1; c2; c3; c4] ∧
    ∃ i1 i2 i3 i4,
      bits c1 = Some i1 ∧ bits c2 = Some i2 ∧ bits c3 = Some i3 ∧ bits c4 = Some i4 ∧
      ascii_of_N (i1 * 4 + i2 / 16) = x ∧
      ascii_of_N (i2 mod 16 * 16 + i3 / 4) = y ∧
      ascii_of_N (i3 mod 4 * 64 + i4) = z.
Proof.
  pose proof (byte_bounded x). pose proof (byte_bounded y). pose proof (byte_bounded z).
  unfold base64url. simpl base64. cbv zeta. rewrite !base64url_cons.
  set (nx := N_of_ascii x) in *. set (ny := N_of_ascii y) in *. set (nz := N_of_ascii z) in *.
  destruct (url_sextet (nx / 4)) as (c1 & -> & U1 & B1); [zify; arith|].
  destruct (url_sextet (nx mod 4 * 16 + ny / 16)) as (c2 & -> & U2 & B2); [zify; arith|].
  destruct (url_sextet (ny mod 16 * 4 + nz / 64)) as (c3 & -> & U3 & B3); [zify; arith|].
  destruct (url_sextet (nz mod 64)) as (c4 & -> & U4 & B4); [zify; arith|].
  exists c1, c2, c3, c4. rewrite !append_cons, !append_nil_l.
  split_and!; [done|by repeat constructor|].
  eexists _, _, _, _. split_and!; [done..| | |].
  - rewrite <- (ascii_N_embedding x). f_equal. fold nx. zify; arith.
  - rewrite <- (ascii_N_embedding y). f_equal. fold ny. zify; arith.
  - rewrite <- (ascii_N_embedding z). f_equal. fold nz. zify; arith.
Qed.

Lemma base64url_2 x y :
  ∃ c1 c2 c3,
    base64url (String x (String y "")) = String c1 (String c2 (String c3 "")) ∧
    Forall (λ c, urlsafe c = true) [c1; c2; c3] ∧
    ∃ i1 i2 i3,
      bits c1 = Some i1 ∧ bits c2 = Some i2 ∧ bits c3 = Some i3 ∧
      ascii_of_N (i1 * 4 + i2 / 16) = x ∧
      ascii_of_N (i2 mod 16 * 16 + i3 / 4) = y.
Proof.
  pose proof (byte_bounded x). pose proof (byte_bounded y).
  unfold base64url. simpl base64. cbv zeta. rewrite !base64url_cons.
  set (nx := N_of_ascii x) in *. set (ny := N_of_ascii y) in *.
  destruct (url_sextet (nx / 4)) as (c1 & -> & U1 & B1); [zify; arith|].
  destruct (url_sextet (nx mod 4 * 16 + ny / 16)) as (c2 & -> & U2 & B2); [zify; arith|].
  destruct (url_sextet (ny mod 16 * 4)) as (c3 & -> & U3 & B3); [zify; arith|].
  exists c1, c2, c3. split_and!; [done|by repeat constructor|].
  eexists _, _, _. split_and!; [done..| |].
  - rewrite <- (ascii_N_embedding x). f_equal. fold nx. zify; arith.
  - rewrite <- (ascii_N_embedding y). f_equal. fold ny. zify; arith.
Qed.

Lemma base64url_1 x :
  ∃ c1 c2,
    base64url (String x "") = String c1 (String c2 "") ∧
    Forall (λ c, urlsafe c = true) [c1; c2] ∧
    ∃ i1 i2,
      bits c1 = Some i1 ∧ bits c2 = Some i2 ∧ ascii_of_N (i1 * 4 + i2 / 16) = x.
Proof.
  pose proof (byte_bounded x).
  unfold base64url. simpl base64. cbv zeta. rewrite !base64url_cons.
  set (nx := N_of_ascii x) in *.
  destruct (url_sextet (nx / 4)) as (c1 & -> & U1 & B1); [zify; arith|].
  destruct (url_sextet (nx mod 4 * 16)) as (c2 & -> & U2 & B2); [zify; arith|].
  exists c1, c2. split_and!; [done|by repeat constructor|].
  eexists _, _. split_and!; [done..|].
  rewrite <- (ascii_N_embedding x). f_equal. fold nx. zify; arith.
Qed.

(** Induction three bytes at a time. *)
Lemma by_threes (Q : string → Prop) :
  Q "" → (∀ x, Q (String x "")) → (∀ x y, Q (String x (String y ""))) →
  (∀ x y z b, Q b → Q (String x (String y (String z b)))) →
  ∀ b, Q b.
Proof.
  intros H0 H1 H2 H3.
  assert (∀ b, Q b ∧ (∀ x, Q (String x b)) ∧ (∀ x y, Q (String x (String y b)))) as H.
  { induction b as [|z b (IH0 & IH1 & IH2)]; [done|]. split_and!; [done|done|].
    intros x y. by apply H3. }
  intros b. apply H.
Qed.

Lemma urlsafe_unreserved c : urlsafe c = true → unreserved c = true.
Proof.
  unfold urlsafe, unreserved. cbv zeta.
  intros [[H|H]%orb_prop|H]%orb_prop.
  - by rewrite H.
  - apply N.eqb_eq, (f_equal ascii_of_N) in H. rewrite ascii_N_embedding in H.
    subst c. reflexivity.
  - apply N.eqb_eq, (f_equal ascii_of_N) in H. rewrite ascii_N_embedding in H.
    subst c. reflexivity.
Qed.

Lemma every_unreserved s : every urlsafe s = true → encodeURIComponent s = s.
Proof.
  induction s as [|c s IH]; [done|]. cbn [every encodeURIComponent].
  intros [Hc%urlsafe_unreserved Hs]%andb_prop.
  by rewrite Hc, append_cons, append_nil_l, (IH Hs).
Qed.

(** X13. The output of [base64url] is made of letters, digits, [-] and [_]
    only: no [=], [+] or [/] is left, so [encodeURIComponent] leaves it as
    it is. *)
Theorem base64url_urlsafe data :
  every urlsafe (base64url data) = true ∧
  encodeURIComponent (base64url data) = base64url data.
Proof.
  assert (every urlsafe (base64url data) = true) as H; [|by split; [|apply every_unreserved]].
  induction data as [|x|x y|x y z b IH] using by_threes.
  - done.
  - destruct (base64url_1 x) as (c1 & c2 & -> & Hall & _).
    inversion Hall as [|? ? H1 Hall1]; subst. inversion Hall1 as [|? ? H2 _]; subst.
    simpl. by rewrite H1, H2.
  - destruct (base64url_2 x y) as (c1 & c2 & c3 & -> & Hall & _).
    inversion Hall as [|? ? H1 Hall1]; subst. inversion Hall1 as [|? ? H2 Hall2]; subst.
    inversion Hall2 as [|? ? H3 _]; subst.
    simpl. by rewrite H1, H2, H3.
  - destruct (base64url_3 x y z b) as (c1 & c2 & c3 & c4 & -> & Hall & _).
    inversion Hall as [|? ? H1 Hall1]; subst. inversion Hall1 as [|? ? H2 Hall2]; subst.
    inversion Hall2 as [|? ? H3 Hall3]; subst. inversion Hall3 as [|? ? H4 _]; subst.
    simpl. by rewrite H1, H2, H3, H4, IH.
Qed.

(** X14. [base64url] writes four characters for three bytes and does not
    pad: [n] bytes make [4n/3] characters, rounded up. *)
Theorem base64url_length data :
  String.length (base64url data) = ((4 * String.length data + 2) / 3)%nat.
Proof.
  induction data as [|x|x y|x y z b IH] using by_threes.
  - done.
  - by destruct (base64url_1 x) as (c1 & c2 & -> & _).
  - by destruct (base64url_2 x y) as (c1 & c2 & c3 & -> & _).
  - destruct (base64url_3 x y z b) as (c1 & c2 & c3 & c4 & -> & _).
    cbn [String.length]. rewrite IH.
    replace (4 * S (S (S (String.length b))) + 2)%nat
      with ((4 * String.length b + 2) + 4 * 3)%nat by lia.
    rewrite Nat.div_add by done. lia.
Qed.

Lemma bytes_base64url data : bytes (base64url data) = Some data.
Proof.
  induction data as [|x|x y|x y z b IH] using by_threes.
  - done.
  - destruct (base64url_1 x) as (c1 & c2 & -> & _ & i1 & i2 & B1 & B2 & Hx).
    simpl. rewrite B1, B2. simpl. by rewrite Hx.
  - destruct (base64url_2 x y)
      as (c1 & c2 & c3 & -> & _ & i1 & i2 & i3 & B1 & B2 & B3 & Hx & Hy).
    simpl. rewrite B1, B2, B3. simpl. by rewrite Hx, Hy.
  - destruct (base64url_3 x y z b)
      as (c1 & c2 & c3 & c4 & -> & _ & i1 & i2 & i3 & i4 & B1 & B2 & B3 & B4 & Hx & Hy & Hz).
    simpl. rewrite B1, B2, B3, B4, IH. simpl. by rewrite Hx, Hy, Hz.
Qed.

(** X15. [base64url] loses nothing: the bytes can be read back from its
    output, so two inputs with the same output are the same bytes. *)
Theorem base64url_injective a b : base64url a = base64url b → a = b.
Proof.
  intros H. apply (f_equal bytes) in H. rewrite !bytes_base64url in H. by injection H.
Qed.
End base64.

Lemma parseDuration_iso8601_witness :
  Duration.iso8601 (Some 1%N) (Some 2%N) (Some 3%N) = "PT1H2M3S" ∧
  Duration.parseDuration "PT1H2M3S" = 3723000.
Proof.
  split; [reflexivity|].
  exact (proj1 (parseDuration_iso8601 (Some 1%N) (Some 2%N) (Some 3%N))
           ltac:(by vm_compute)).
Defined.

Lemma parseDuration_range_witness :
  (String.prefix "PT" "P1DT2H" = false ∧ Duration.parseDuration "P1DT2H" = 0) ∧
  (Duration.parseDuration "PT3M25S" = 205000 ∧ (1000 | Duration.parseDuration "PT3M25S")).
Proof.
  split; (split; [reflexivity|]).
  - exact (proj1 (proj2 (proj2 (parseDuration_range "P1DT2H")))
             eq_refl eq_refl eq_refl eq_refl).
  - exact (proj1 (proj2 (parseDuration_range "PT3M25S")) eq_refl).
Defined.

Lemma base64url_injective_witness :
  Base64.base64url "any carnal pleas" = Base64.base64url ("any carnal" +:+ " pleas") ∧
  Base64.base64url "any carnal pleas" = "YW55IGNhcm5hbCBwbGVhcw" ∧
  "any carnal pleas" = "any carnal" +:+ " pleas".
Proof.
  assert (Base64.base64url "any carnal pleas" = Base64.base64url ("any carnal" +:+ " pleas"))
    as H by reflexivity.
  split_and!; [exact H|reflexivity|].
  exact (base64url_injective _ _ H).
Defined.

(** ** Loops over pages *)

Section paging.
Context {St X : Type}.
Variable body : string → M St (list X * option string).

(** A loop that has ended ended for good: more fuel changes nothing. *)
Lemma paged_more fuel :
  ∀ fuel' url pushed s r,
    paged body fuel url pushed s = Some r → (fuel ≤ fuel')%nat →
    paged body fuel' url pushed s = Some r.
Proof.
  induction fuel as [|fuel IH]; intros fuel' url pushed s r H Hle; [discriminate|].
  destruct fuel' as [|fuel']; [lia|]. simpl in *.
  destruct (body url s) as [[[items next]|e] s1]; [|done].
  destruct (truthy next); [|done]. apply IH; [done|lia].
Qed.

Lemma paged_Ok fuel :
  ∀ url pushed s xs s',
    paged body fuel url pushed s = Some (Ok xs, s') →
    ∃ pages, Passes body url s pages s' ∧ xs = pushed ++ pushed_by pages
             ∧ (length pages ≤ fuel)%nat.
Proof.
  induction fuel as [|fuel IH]; intros url pushed s xs s' H; [discriminate|].
  simpl in H. destruct (body url s) as [[[items next]|e] s1] eqn:Hbody; [|discriminate].
  destruct (truthy next) eqn:Hnext.
  - apply IH in H as (pages & Hpages & -> & Hlen).
    exists ((url, items) :: pages). unfold pushed_by. simpl. rewrite app_assoc.
    split_and!; [by eapply next_pass|done|lia].
  - injection H as <- <-. exists [(url, items)]. unfold pushed_by. simpl. rewrite app_nil_r.
    split_and!; [by eapply last_pass|done|lia].
Qed.

Lemma paged_enough url s pages s' :
  Passes body url s pages s' →
  ∀ fuel pushed, (length pages ≤ fuel)%nat →
    paged body fuel url pushed s = Some (Ok (pushed ++ pushed_by pages), s').
Proof.
  induction 1 as [url s items next s' Hbody Hnext|url s items next s1 pages s' Hbody Hnext _ IH];
    intros fuel pushed Hlen; (destruct fuel as [|fuel]; [simpl in Hlen; lia|]);
    unfold pushed_by; simpl; rewrite Hbody, Hnext.
  - by rewrite app_nil_r.
  - rewrite IH by (simpl in Hlen; lia). by rewrite app_assoc.
Qed.

Lemma paged_Threw fuel :
  ∀ url pushed s e s',
    paged body fuel url pushed s = Some (Threw e, s') →
    ∃ n stop, Breaks body e url s n stop s' ∧ (n < fuel)%nat.
Proof.
  induction fuel as [|fuel IH]; intros url pushed s e s' H; [discriminate|].
  simpl in H. destruct (body url s) as [[[items next]|e0] s1] eqn:Hbody.
  - destruct (truthy next) eqn:Hnext; [|discriminate].
    apply IH in H as (n & stop & Hb & Hn). exists (S n), stop.
    split; [by eapply breaks_later|lia].
  - injection H as <- <-. exists 0%nat, url. split; [by constructor|lia].
Qed.

Lemma paged_breaks e url s n stop s' :
  Breaks body e url s n stop s' →
  ∀ fuel pushed, (n < fuel)%nat → paged body fuel url pushed s = Some (Threw e, s').
Proof.
  induction 1 as [url s s' Hbody|url s items next s1 n stop s' Hbody Hnext _ IH];
    intros fuel pushed Hlen; (destruct fuel as [|fuel]; [lia|]); simpl; rewrite Hbody.
  - done.
  - rewrite Hnext. apply IH. lia.
Qed.

(** What every pass pushes, the loop returns. *)
Lemma Passes_Forall (Q : X → Prop) url s pages s' :
  (∀ url s items next s', body url s = (Ok (items, next), s') → Forall Q items) →
  Passes body url s pages s' → Forall Q (pushed_by pages).
Proof.
  intros Hbody. induction 1 as [url s items next s' Hb _|url s items next s1 pages s' Hb _ _ IH];
    unfold pushed_by in *; simpl.
  - rewrite app_nil_r. by eapply Hbody.
  - apply Forall_app. split; [by eapply Hbody|done].
Qed.
End paging.

(** ** Splitting a title *)

Lemma substring_all s : String.substring 0 (String.length s) s = s.
Proof. induction s as [|c s IH]; [done|]. simpl. by rewrite IH. Qed.

Lemma prefix_length sep s :
  String.prefix sep s = true → (String.length sep ≤ String.length s)%nat.
Proof.
  revert s. induction sep as [|a sep IH]; intros s H; simpl; [lia|].
  destruct s as [|b s]; [done|]. simpl in H.
  destruct (ascii_dec a b); [|done]. apply IH in H. simpl. lia.
Qed.

Lemma prefix_append sep s :
  String.prefix sep s = true →
  s = sep +:+ String.substring (String.length sep) (String.length s - String.length sep) s.
Proof.
  revert s. induction sep as [|a sep IH]; intros s H.
  - rewrite append_nil_l. simpl. by rewrite Nat.sub_0_r, substring_all.
  - destruct s as [|b s]; [done|]. simpl in H.
    destruct (ascii_dec a b) as [->|]; [|done]. rewrite append_cons. simpl.
    f_equal. by apply IH.
Qed.

Section splitting.
Variable sep : string.
Hypothesis sep_not_empty : (0 < String.length sep)%nat.

Lemma split_from_skip s :
  ∀ k, (k ≤ String.length s)%nat →
    split_from sep k s = split_from sep 0 (String.substring k (String.length s - k) s).
Proof.
  induction s as [|c s IH]; intros k Hk.
  - simpl in Hk. by replace k with 0%nat by lia.
  - destruct k as [|k].
    + by rewrite Nat.sub_0_r, substring_all.
    + simpl in Hk. simpl. apply IH. lia.
Qed.

Lemma split_from_pieces k s : split_from sep k s ≠ [].
Proof.
  revert k. induction s as [|c s IH]; intros k; [done|]. cbn [split_from].
  destruct k; [|apply IH].
  destruct (String.prefix sep (String c s)); [discriminate|].
  destruct (split_from sep 0 s); discriminate.
Qed.

(** The first piece ends where the separator first occurs. *)
Lemma split_index s :
  split sep s =
    match String.index 0 sep s with
    | Some k =>
        String.substring 0 k s
        :: split sep (String.substring (k + String.length sep)
                        (String.length s - (k + String.length sep)) s)
    | None => [s]
    end.
Proof.
  unfold split. induction s as [|c s IH].
  - simpl. destruct sep; [simpl in sep_not_empty; lia|done].
  - cbn [split_from String.index].
    destruct (String.prefix sep (String c s)) eqn:Hpre.
    + cbn [String.substring]. f_equal.
      pose proof (prefix_length _ _ Hpre) as Hlen. simpl in Hlen.
      rewrite split_from_skip by lia.
      destruct (String.length sep) as [|l] eqn:Hl; [lia|]. simpl.
      by rewrite Nat.sub_0_r.
    + rewrite IH. by destruct (String.index 0 sep s) as [k|].
Qed.

Lemma index_append s k :
  String.index 0 sep s = Some k →
  s = String.substring 0 k s +:+ sep
      +:+ String.substring (k + String.length sep)
            (String.length s - (k + String.length sep)) s.
Proof.
  revert k. induction s as [|c s IH]; intros k H.
  - simpl in H. destruct sep; [simpl in sep_not_empty; lia|done].
  - cbn [String.index] in H. destruct (String.prefix sep (String c s)) eqn:Hpre.
    + injection H as <-. cbn [String.substring]. rewrite append_nil_l.
      by apply prefix_append.
    + destruct (String.index 0 sep s) as [k'|]; [|done]. injection H as <-.
      cbn [String.substring Nat.add]. rewrite append_cons. f_equal. by apply IH.
Qed.

Lemma concat_cons x (l : list string) :
  l ≠ [] → String.concat sep (x :: l) = x +:+ sep +:+ String.concat sep l.
Proof. by destruct l. Qed.

Lemma concat_split s : String.concat sep (split sep s) = s.
Proof.
  remember (String.length s) as n eqn:Hn. revert s Hn.
  induction n as [n IH] using lt_wf_ind. intros s ->.
  rewrite split_index. destruct (String.index 0 sep s) as [k|] eqn:Hk; [|done].
  pose proof (index_append _ _ Hk) as Hs.
  rewrite concat_cons by apply split_from_pieces.
  set (rest := String.substring (k + String.length sep) _ s) in *.
  assert (String.length rest < String.length s)%nat as Hlt.
  { apply (f_equal String.length) in Hs. rewrite !length_append in Hs. lia. }
  by rewrite (IH _ Hlt rest eq_refl).
Qed.
End splitting.

Section titles.
Import YouTubeMusicPlaylists.

(** X16. A title is taken for [Artist - Track] when it holds the separator
    [ - ]: the artist is what stands before its first occurrence and the
    name all that stands after it (later separators included), both
    trimmed. A title without the separator is the name as it is, not
    trimmed, and the artist is empty. *)
Theorem artist_and_name (title : string) :
  match String.index 0 " - " title with
  | Some k =>
      artistOf title = trim (String.substring 0 k title) ∧
      nameOf title = trim (String.substring (k + 3) (String.length title - (k + 3)) title)
  | None => artistOf title = "" ∧ nameOf title = title
  end.
Proof.
  unfold artistOf, nameOf.
  rewrite (split_index " - ") by (simpl; lia).
  destruct (String.index 0 " - " title) as [k|]; [|done].
  change (String.length " - ") with 3%nat.
  set (rest := String.substring (k + 3) _ title).
  pose proof (split_from_pieces " - " 0 rest) as Hne. fold (split " - " rest) in Hne.
  pose proof (concat_split " - " ltac:(simpl; lia) rest) as Hcat.
  destruct (split " - " rest) as [|piece pieces]; [done|].
  rewrite bool_decide_true by (unfold len; cbn [length]; lia).
  cbn [head default drop]. by rewrite Hcat.
Qed.
End titles.

(** ** Reading playlists page by page *)

Lemma paged_page_by_page {St X} (body : string → M St (list X * option string)) url :
  page_by_page body url (λ fuel, paged body fuel url []).
Proof.
  split_and!.
  - intros fuel s xs s' (pages & Hpages & -> & Hlen)%paged_Ok. by exists pages.
  - intros fuel s pages s' Hpages Hlen. by rewrite (paged_enough _ _ _ _ _ Hpages).
  - intros fuel s e s'. apply paged_Threw.
  - intros fuel s e n stop s' Hb Hn. by apply (paged_breaks _ _ _ _ _ _ _ Hb).
Qed.

(** [mapM] of code that does not await. *)
Lemma mapM_Result {A B} (f : A → Result B) (l : list A) :
  ∀ ys, mapM f l = Ok ys → Forall2 (λ x y, f x = Ok y) l ys.
Proof.
  induction l as [|x l IH]; intros ys H.
  - injection H as <-. constructor.
  - simpl in H. unfold mbind, Result_bind in H.
    destruct (f x) as [y|] eqn:Hx; [|discriminate].
    destruct (mapM f l) as [ys'|]; [|discriminate]. injection H as <-.
    constructor; [done|by apply IH].
Qed.

Lemma member_Ok {A} nothing (x : option A) name a : member nothing x name = Ok a → x = Some a.
Proof. destruct x; [by intros [= ->]|discriminate]. Qed.

Lemma bind_Result_Ok {A B} (r : Result A) (k : A → Result B) b :
  r ≫= k = Ok b → ∃ a, r = Ok a ∧ k a = Ok b.
Proof. destruct r as [a|]; [by exists a|discriminate]. Qed.

(** What a pass has pushed, read off its code. *)
Ltac read H :=
  repeat first
    [ match type of H with
      | _ ≫= _ = Ok _ =>
          let x := fresh "x" in
          let E := fresh "E" in
          apply bind_Result_Ok in H as (x & E & H);
          try (apply member_Ok in E; try (injection E as E); subst)
      end
    | match type of H with
      | mret _ = Ok _ => injection H as ?; subst
      end ].

Section pages.
Context {P B A : Type}.
Variable respond : Http.Request → M P (Http.Response B).
Variable reading : B → Result A.

(** A pass that sends [req] and reads the body of the answer. *)
Lemma page_inv req n r n' :
  (response ← Http.fetch respond req; data ← Http.decode response; settled (reading data)) n
    = (r, n') →
  Http.sent n' = Http.sent n ++ [req] ∧
  ((∃ e, respond req (Http.platform n) = (Threw e, Http.platform n') ∧ r = Threw e) ∨
   ∃ response,
     respond req (Http.platform n) = (Ok response, Http.platform n') ∧
     match Http.json response with
     | Some data => r = reading data
     | None => r = Threw (SyntaxError "Unexpected token in JSON")
     end).
Proof.
  rewrite fetch_bind. destruct (respond _ _) as [[response|e] p1] eqn:Hr.
  - rewrite decode_bind. unfold settled.
    destruct (Http.json response) as [data|] eqn:Hj; intros [= <- <-];
      (split; [done|]); right; exists response; by rewrite Hj.
  - intros [= <- <-]. split; [done|]. left. by exists e.
Qed.

(** A pass that looks at the status before it reads the body. *)
Lemma checked_page_inv req message n r n' :
  (response ← Http.fetch respond req;
   if negb (Http.ok response)
   then throw (Error (message +:+ show (Http.status response)))
   else data ← Http.decode response; settled (reading data)) n = (r, n') →
  Http.sent n' = Http.sent n ++ [req] ∧
  ((∃ e, respond req (Http.platform n) = (Threw e, Http.platform n') ∧ r = Threw e) ∨
   ∃ response,
     respond req (Http.platform n) = (Ok response, Http.platform n') ∧
     if Http.ok response then
       match Http.json response with
       | Some data => r = reading data
       | None => r = Threw (SyntaxError "Unexpected token in JSON")
       end
     else r = Threw (Error (message +:+ show (Http.status response)))).
Proof.
  rewrite fetch_bind. destruct (respond _ _) as [[response|e] p1] eqn:Hr.
  - destruct (Http.ok response) eqn:Hok; simpl.
    + rewrite decode_bind. unfold settled.
      destruct (Http.json response) as [data|] eqn:Hj; intros [= <- <-];
        (split; [done|]); right; exists response; by rewrite Hok, Hj.
    + intros [= <- <-]. split; [done|]. right. exists response. by rewrite Hok.
  - intros [= <- <-]. split; [done|]. left. by exists e.
Qed.


End pages.


Section spotify_pages.
Context {P : Type}.
Variable listings : Http.Request → M P (Http.Response (option SpotifyPlaylists.Listing)).
Variable contents : Http.Request → M P (Http.Response (option SpotifyPlaylists.Contents)).
Import SpotifyPlaylists.

Lemma spotify_listing_request token :
  one_request (λ url, get url token) (playlistsPage listings token).
Proof. intros url n r n' H. by apply page_inv in H as [? _]. Qed.

Lemma spotify_contents_request token :
  one_request (λ url, get url token) (tracksPage contents token).
Proof. intros url n r n' H. by apply page_inv in H as [? _]. Qed.

Lemma spotify_toPlaylist item p :
  SpotifyProvider.toPlaylist item = Ok p →
  ∃ i, item = Some i ∧
    Playlist.tracks p = [] ∧
    Playlist.description p = Some (or_else (SpotifyProvider.pl_description i) "").
Proof. unfold SpotifyProvider.toPlaylist. intros H. read H. by eexists. Qed.

Lemma spotify_listing_made token :
  made_of listings (λ data, default [] (listed data))
    (λ item p, Playlist.tracks p = []
               ∧ Playlist.description p = Some (or_else (SpotifyProvider.pl_description item) ""))
    (playlistsPage listings token).
Proof.
  intros url n pushed next n' H.
  apply page_inv in H as [E [(e & _ & [=])|(response & Hr & H)]].
  destruct (Http.json response) as [data|] eqn:Hj; [|discriminate]. symmetry in H.
  unfold playlistsOf in H. read H.
  match goal with H : mapM _ _ = Ok _ |- _ => apply mapM_Result in H; rename H into Hall end.
  eexists _, _, response, _. split_and!; [done..|].
  match goal with H : listed _ = Some _ |- _ => rewrite H end. simpl.
  eapply Forall2_impl; [exact Hall|]. intros item p Hp. by apply spotify_toPlaylist.
Qed.
End spotify_pages.

Section youtube_pages.
Context {P : Type}.
Variable listings : Http.Request → M P (Http.Response (option YouTubeMusicPlaylists.Listing)).
Variable contents : Http.Request → M P (Http.Response (option YouTubeMusicPlaylists.Contents)).
Variable details : Http.Request → M P (Http.Response (option YouTubeMusicPlaylists.Videos)).
Import YouTubeMusicPlaylists.

Lemma youtube_toPlaylist item p :
  toPlaylist item = Ok p →
  ∃ i, item = Some i ∧
    Playlist.tracks p = [] ∧
    ∃ about, snippet i = Some about
             ∧ Playlist.description p = snippet_description about.
Proof. unfold toPlaylist. intros H. read H. eexists. split_and!; [done..|]. by eexists. Qed.

Lemma youtube_listing_made token :
  made_of listings (λ data, default [] (listed data))
    (λ item p, Playlist.tracks p = []
               ∧ ∃ about, snippet item = Some about
                          ∧ Playlist.description p = snippet_description about)
    (playlistsPage listings token).
Proof.
  intros pageToken n pushed next n' H.
  apply page_inv in H as [E [(e & _ & [=])|(response & Hr & H)]].
  destruct (Http.json response) as [data|] eqn:Hj; [|discriminate]. symmetry in H.
  unfold playlistsOf in H. read H.
  match goal with H : mapM _ _ = Ok _ |- _ => apply mapM_Result in H; rename H into Hall end.
  eexists _, _, response, _. split_and!; [done..|].
  match goal with H : listed _ = Some _ |- _ => rewrite H end. simpl.
  eapply Forall2_impl; [exact Hall|]. intros item p Hp. by apply youtube_toPlaylist.
Qed.

Lemma youtube_toTrack videoMap item t :
  toTrack videoMap item = Ok t →
  Track.isrc t = None ∧ Track.album t = "" ∧ 0 ≤ Track.durationMs t.
Proof.
  unfold toTrack. intros H.
  apply bind_Result_Ok in H as (id & _ & H).
  apply bind_Result_Ok in H as (entry & _ & H).
  apply bind_Result_Ok in H as (about & _ & H).
  apply bind_Result_Ok in H as (durationMs & Hd & H).
  injection H as <-. simpl. split_and!; [done..|].
  destruct (videoMap_get _ _) as [video|]; [|by injection Hd as <-].
  read Hd. apply parseDuration_nonneg.
Qed.

(** The tracks of a pass: no ISRC, no album, a duration that is not
    negative. *)
Lemma youtube_tracks_plain fuel token playlistId n tracks n' :
  getPlaylistTracks contents details fuel token playlistId n = Some (Ok tracks, n') →
  Forall (λ t, Track.isrc t = None ∧ Track.album t = "" ∧ 0 ≤ Track.durationMs t) tracks.
Proof.
  intros (pages & Hpages & -> & _)%paged_Ok. simpl.
  eapply Passes_Forall; try exact Hpages.
  intros url s items next s' H. unfold tracksPage in H.
  apply bind_Ok in H as (response & n1 & _ & H).
  apply bind_Ok in H as (data & n2 & _ & H).
  apply bind_Ok in H as (videoIds & n3 & _ & H).
  apply bind_Ok in H as (videoRes & n4 & _ & H).
  apply bind_Ok in H as (videoData & n5 & _ & H).
  unfold settled in H. injection H as H _. unfold tracksOf in H. read H.
  match goal with H : mapM (toTrack _) _ = Ok _ |- _ =>
    apply mapM_Result in H; rename H into Hall end.
  clear -Hall. induction Hall as [|item t items' ts Ht _ IH]; constructor; [|done].
  by eapply youtube_toTrack.
Qed.

(** The requests of a pass of [getPlaylistTracks]: the entries, and then,
    if they came, were decoded and could be read, their videos. *)
Lemma youtube_contents_requests token playlistId pageToken n r n' :
  tracksPage contents details token playlistId pageToken n = (r, n') →
  let entries :=
    get ("https://www.googleapis.com/youtube/v3/playlistItems?part=snippet&playlistId="
         +:+ playlistId +:+ "&maxResults=50" +:+ page pageToken) token in
  match contents entries (Http.platform n) with
  | (Ok response, _) =>
      match Http.parsed response ≫= videoIdsOf with
      | Ok videoIds =>
          Http.sent n' = Http.sent n ++
            [entries;
             get ("https://www.googleapis.com/youtube/v3/videos?part=contentDetails,snippet&id="
                  +:+ String.concat "," videoIds) token]
      | Threw _ => Http.sent n' = Http.sent n ++ [entries]
      end
  | (Threw _, _) => Http.sent n' = Http.sent n ++ [entries]
  end.
Proof.
  intros H entries. unfold tracksPage in H. fold entries in H.
  rewrite fetch_bind in H. destruct (contents _ _) as [[response|e] p1];
    [|by injection H as _ <-].
  rewrite decode_bind in H. unfold Http.parsed.
  destruct (Http.json response) as [data|]; [|by injection H as _ <-].
  rewrite settled_bind in H. simpl.
  destruct (videoIdsOf data) as [videoIds|e]; [|by injection H as _ <-].
  apply page_inv in H as [-> _]. simpl. by rewrite <- app_assoc.
Qed.

(** [videoIdsOf]: the video of every entry of the page, in order. *)
Lemma youtube_videoIds data videoIds :
  videoIdsOf (Some data) = Ok videoIds →
  ∃ items, entries data = Some items ∧
    Forall2 (λ item id, ∃ entry snippet resource,
               item = Some entry ∧ entry_snippet entry = Some snippet ∧
               resourceId snippet = Some resource ∧ videoId resource = id) items videoIds.
Proof.
  unfold videoIdsOf. intros H. read H.
  match goal with H : mapM _ _ = Ok _ |- _ => apply mapM_Result in H; rename H into Hall end.
  eexists. split; [done|]. eapply Forall2_impl; [exact Hall|].
  intros item id Hid. unfold videoIdOf in Hid. read Hid. by eexists _, _, _.
Qed.
End youtube_pages.

Section kkbox_pages.
Context {P : Type}.
Variable KKBOX_TERRITORY : string.
Variable listings : Http.Request → M P (Http.Response (option KKBoxPlaylists.Listing)).
Variable contents : Http.Request → M P (Http.Response (option KKBoxPlaylists.Contents)).
Variable playlists : Http.Request → M P (Http.Response (option KKBoxPlaylists.Created)).
Import KKBoxPlaylists.

Lemma kkbox_listing_request token :
  one_request (λ url, get url token) (playlistsPage listings token).
Proof. intros url n r n' H. by apply checked_page_inv in H as [? _]. Qed.

Lemma kkbox_contents_request token :
  one_request (λ url, get url token) (tracksPage contents token).
Proof. intros url n r n' H. by apply checked_page_inv in H as [? _]. Qed.

Lemma kkbox_listing_made token :
  made_of listings (λ data, default [] (listed data))
    (λ item p, Playlist.tracks p = []
               ∧ Playlist.description p = Some (or_else (pl_description item) ""))
    (playlistsPage listings token).
Proof.
  intros url n pushed next n' H.
  apply checked_page_inv in H as [E [(e & _ & [=])|(response & Hr & H)]].
  destruct (Http.ok response); [|discriminate].
  destruct (Http.json response) as [data|] eqn:Hj; [|discriminate]. symmetry in H.
  unfold playlistsOf in H. read H.
  match goal with H : mapM _ _ = Ok _ |- _ => apply mapM_Result in H; rename H into Hall end.
  eexists _, _, response, _. split_and!; [done..|].
  eapply Forall2_impl; [exact Hall|]. intros item p Hp. cbv beta in Hp. read Hp.
  eexists. split_and!; reflexivity.
Qed.
End kkbox_pages.

Section apple_pages.
Context {P : Type}.
Variable generateDeveloperToken : M P string.
Variable listings : Http.Request → M P (Http.Response (option AppleMusicPlaylists.Listing)).
Variable contents : Http.Request → M P (Http.Response (option AppleMusicPlaylists.Contents)).
Import AppleMusicPlaylists.

Lemma apple_listing_made token :
  made_of listings (λ data, default [] (listed data))
    (λ item p, Playlist.tracks p = []
               ∧ ∃ attributes,
                   pl_attributes item = Some attributes ∧
                   Playlist.description p
                   = Some (or_else (pl_description attributes ≫= standard) ""))
    (playlistsPage generateDeveloperToken listings token).
Proof.
  intros url n pushed next n' H. unfold playlistsPage in H.
  apply bind_Ok in H as (headers & n0 & [Eh _]%getHeaders_inv & H).
  apply checked_page_inv in H as [E [(e & _ & [=])|(response & Hr & H)]].
  destruct (Http.ok response); [|discriminate].
  destruct (Http.json response) as [data|] eqn:Hj; [|discriminate]. symmetry in H.
  unfold playlistsOf in H. read H.
  match goal with H : mapM _ _ = Ok _ |- _ => apply mapM_Result in H; rename H into Hall end.
  eexists _, _, response, _. rewrite <- Eh. split_and!; [done..|].
  eapply Forall2_impl; [exact Hall|]. intros item p Hp. unfold toPlaylist in Hp. read Hp.
  eexists. split_and!; [done..|]. by eexists.
Qed.
End apple_pages.

(** What [getPlaylists] resolves to has no tracks, when every pass is made
    of the items of its page. *)
Lemma made_of_bare {P B I} (respond : Http.Request → M P (Http.Response (option B)))
    (items : B → list (option I)) (entry : I → Playlist.t → Prop)
    (body : string → M (Http.Net P) (list Playlist.t * option string)) fuel url n playlists n' :
  (∀ i p, entry i p → Playlist.tracks p = []) →
  made_of respond items entry body →
  paged body fuel url [] n = Some (Ok playlists, n') → bare playlists.
Proof.
  intros Hentry Hmade (pages & Hpages & -> & _)%paged_Ok. simpl.
  eapply Passes_Forall; try exact Hpages.
  intros url' s pushed next s' H.
  apply Hmade in H as (req & p & response & data & _ & _ & _ & Hall).
  clear -Hall Hentry. induction Hall as [|item x l l' (i & _ & Hx) _ IH]; constructor; eauto.
Qed.

(** ** Pages that are refused *)

Section kkbox_refused.
Context {P : Type}.
Variable KKBOX_TERRITORY : string.
Variable listings : Http.Request → M P (Http.Response (option KKBoxPlaylists.Listing)).
Variable contents : Http.Request → M P (Http.Response (option KKBoxPlaylists.Contents)).
Variable playlists : Http.Request → M P (Http.Response (option KKBoxPlaylists.Created)).
Import KKBoxPlaylists.







End kkbox_refused.

Section apple_refused.
Context {P : Type}.
Variable generateDeveloperToken : M P string.
Variable listings : Http.Request → M P (Http.Response (option AppleMusicPlaylists.Listing)).
Variable contents : Http.Request → M P (Http.Response (option AppleMusicPlaylists.Contents)).
Variable playlists : Http.Request → M P (Http.Response (option AppleMusicPlaylists.Created)).
Import AppleMusicPlaylists.

Local Abbreviation no_token := (λ e, ∃ p p', generateDeveloperToken p = (Threw e, p')).



End apple_refused.

Section youtube_created.
Context {P : Type}.
Variable playlists : Http.Request → M P (Http.Response (option YouTubeMusicPlaylists.Created)).
Import YouTubeMusicPlaylists.

End youtube_created.

(** ** The adapters as readers and makers of playlists *)

Section library_extras.
Context {P1 P2 P3 P4 : Type}.
Variable spotify_listings
  : Http.Request → M P1 (Http.Response (option SpotifyPlaylists.Listing)).
Variable spotify_contents
  : Http.Request → M P1 (Http.Response (option SpotifyPlaylists.Contents)).
Variable spotify : Http.Request → M P1 (Http.Response (option SpotifyProvider.Body)).
Variable youtube_listings
  : Http.Request → M P2 (Http.Response (option YouTubeMusicPlaylists.Listing)).
Variable youtube_contents
  : Http.Request → M P2 (Http.Response (option YouTubeMusicPlaylists.Contents)).
Variable youtube_details
  : Http.Request → M P2 (Http.Response (option YouTubeMusicPlaylists.Videos)).
Variable youtube_playlists
  : Http.Request → M P2 (Http.Response (option YouTubeMusicPlaylists.Created)).
Variable KKBOX_TERRITORY : string.
Variable kkbox_listings
  : Http.Request → M P3 (Http.Response (option KKBoxPlaylists.Listing)).
Variable kkbox_contents
  : Http.Request → M P3 (Http.Response (option KKBoxPlaylists.Contents)).
Variable kkbox_playlists
  : Http.Request → M P3 (Http.Response (option KKBoxPlaylists.Created)).
Variable generateDeveloperToken : M P4 string.
Variable apple_listings
  : Http.Request → M P4 (Http.Response (option AppleMusicPlaylists.Listing)).
Variable apple_contents
  : Http.Request → M P4 (Http.Response (option AppleMusicPlaylists.Contents)).
Variable apple_playlists
  : Http.Request → M P4 (Http.Response (option AppleMusicPlaylists.Created)).

(** X17. The playlists that [getPlaylists] of an adapter resolves to have
    no tracks: [tracks] is the empty list in every entry, whatever the
    platform says of the playlist. A pass of the loop that returns has
    read the body of the answer to its request and pushed one playlist per
    item of that body, in order. In the Spotify and the KKBox adapter the
    description of the playlist is the description of the item, and the
    empty string when the item has none or an empty one; in the Apple
    Music adapter it is [attributes.description.standard] of the item in
    the same way; the YouTube Music adapter passes [snippet.description]
    of the item through as it is, missing when the item has none. *)
Theorem listings_are_bare :
  ((∀ fuel token n playlists n',
      SpotifyPlaylists.getPlaylists spotify_listings fuel token n = Some (Ok playlists, n') →
      bare playlists) ∧
   (∀ fuel token n playlists n',
      YouTubeMusicPlaylists.getPlaylists youtube_listings fuel token n
        = Some (Ok playlists, n') →
      bare playlists) ∧
   (∀ fuel token n playlists n',
      KKBoxPlaylists.getPlaylists KKBOX_TERRITORY kkbox_listings fuel token n
        = Some (Ok playlists, n') →
      bare playlists) ∧
   (∀ fuel token n playlists n',
      AppleMusicPlaylists.getPlaylists generateDeveloperToken apple_listings fuel token n
        = Some (Ok playlists, n') →
      bare playlists)) ∧
  (∀ token,
     made_of spotify_listings (λ data, default [] (SpotifyPlaylists.listed data))
       (λ item p,
          Playlist.tracks p = [] ∧
          Playlist.description p = Some (or_else (SpotifyProvider.pl_description item) ""))
       (SpotifyPlaylists.playlistsPage spotify_listings token)) ∧
  (∀ token,
     made_of youtube_listings (λ data, default [] (YouTubeMusicPlaylists.listed data))
       (λ item p,
          Playlist.tracks p = [] ∧
          ∃ about, YouTubeMusicPlaylists.snippet item = Some about ∧
                   Playlist.description p
                   = YouTubeMusicPlaylists.snippet_description about)
       (YouTubeMusicPlaylists.playlistsPage youtube_listings token)) ∧
  (∀ token,
     made_of kkbox_listings (λ data, default [] (KKBoxPlaylists.listed data))
       (λ item p,
          Playlist.tracks p = [] ∧
          Playlist.description p = Some (or_else (KKBoxPlaylists.pl_description item) ""))
       (KKBoxPlaylists.playlistsPage kkbox_listings token)) ∧
  (∀ token,
     made_of apple_listings (λ data, default [] (AppleMusicPlaylists.listed data))
       (λ item p,
          Playlist.tracks p = [] ∧
          ∃ attributes,
            AppleMusicPlaylists.pl_attributes item = Some attributes ∧
            Playlist.description p
            = Some (or_else (AppleMusicPlaylists.pl_description attributes
                               ≫= AppleMusicPlaylists.standard) ""))
       (AppleMusicPlaylists.playlistsPage generateDeveloperToken apple_listings token)).
Proof.
  split_and!.
  - intros fuel token n playlists n' H.
    eapply made_of_bare; [|apply (spotify_listing_made spotify_listings token)|exact H].
    by intros i p [? _].
  - intros fuel token n playlists n' H.
    eapply made_of_bare; [|apply (youtube_listing_made youtube_listings token)|exact H].
    by intros i p [? _].
  - intros fuel token n playlists n' H.
    eapply made_of_bare; [|apply (kkbox_listing_made kkbox_listings token)|exact H].
    by intros i p [? _].
  - intros fuel token n playlists n' H.
    eapply made_of_bare;
      [|apply (apple_listing_made generateDeveloperToken apple_listings token)|exact H].
    by intros i p [? _].
  - apply spotify_listing_made.
  - apply youtube_listing_made.
  - apply kkbox_listing_made.
  - apply apple_listing_made.
Qed.

(** X18. [getPlaylists] of an adapter reads page by page: it resolves to
    the playlists of all passes of its loop, in the order of the pages, the
    loop going on as long as a page names a next one; when a pass throws,
    it rejects with that error and gives nothing of the pages before. With
    fuel enough for the passes, the outcome is that of the passes. *)
Theorem playlists_page_by_page token :
  page_by_page (SpotifyPlaylists.playlistsPage spotify_listings token)
    "https://api.spotify.com/v1/me/playlists?limit=50"
    (λ fuel, SpotifyPlaylists.getPlaylists spotify_listings fuel token) ∧
  page_by_page (YouTubeMusicPlaylists.playlistsPage youtube_listings token) ""
    (λ fuel, YouTubeMusicPlaylists.getPlaylists youtube_listings fuel token) ∧
  page_by_page (KKBoxPlaylists.playlistsPage kkbox_listings token)
    ("https://api.kkbox.com/v1.1/me/playlists?territory=" +:+ KKBOX_TERRITORY +:+ "&limit=50")
    (λ fuel, KKBoxPlaylists.getPlaylists KKBOX_TERRITORY kkbox_listings fuel token) ∧
  page_by_page (AppleMusicPlaylists.playlistsPage generateDeveloperToken apple_listings token)
    (AppleMusicProvider.APPLE_API_BASE +:+ "/me/library/playlists?limit=25")
    (λ fuel, AppleMusicPlaylists.getPlaylists generateDeveloperToken apple_listings fuel token).
Proof. split_and!; apply paged_page_by_page. Qed.

(** X19. [getPlaylistTracks] of an adapter reads page by page: it resolves
    to the tracks of all passes of its loop, in the order of the pages;
    when a pass throws, it rejects with that error and gives nothing of
    the pages before. With fuel enough for the passes, the outcome is that
    of the passes. *)
Theorem tracks_page_by_page token playlistId :
  page_by_page (SpotifyPlaylists.tracksPage spotify_contents token)
    ("https://api.spotify.com/v1/playlists/" +:+ playlistId +:+ "/tracks?limit=100")
    (λ fuel, SpotifyPlaylists.getPlaylistTracks spotify_contents fuel token playlistId) ∧
  page_by_page
    (YouTubeMusicPlaylists.tracksPage youtube_contents youtube_details token playlistId) ""
    (λ fuel, YouTubeMusicPlaylists.getPlaylistTracks youtube_contents youtube_details fuel
               token playlistId) ∧
  page_by_page (KKBoxPlaylists.tracksPage kkbox_contents token)
    ("https://api.kkbox.com/v1.1/playlists/" +:+ playlistId +:+ "/tracks?territory="
     +:+ KKBOX_TERRITORY +:+ "&limit=50")
    (λ fuel, KKBoxPlaylists.getPlaylistTracks KKBOX_TERRITORY kkbox_contents fuel token
               playlistId) ∧
  page_by_page (AppleMusicPlaylists.tracksPage generateDeveloperToken apple_contents token)
    (AppleMusicProvider.APPLE_API_BASE +:+ "/me/library/playlists/" +:+ playlistId
     +:+ "/tracks?limit=100")
    (λ fuel, AppleMusicPlaylists.getPlaylistTracks generateDeveloperToken apple_contents fuel
               token playlistId).
Proof. split_and!; apply paged_page_by_page. Qed.

(** X20. A pass of a loop of the Spotify or the KKBox adapter sends one
    request, whatever its outcome: a [GET] of the url of the pass with the
    bearer token. A pass of [getPlaylistTracks] of the YouTube Music
    adapter sends the request for the entries of the page; when the answer
    came, was decoded and the video ids could be read from it (it has the
    entries, and every entry has [snippet.resourceId]), it then sends one
    request for the videos of all entries of the page, their ids joined by
    commas in the order of the entries, and nothing else; when [fetch]
    rejected, the body did not decode or the video ids could not be read,
    the request for the entries is all it sent. *)
Theorem requests_of_a_pass token playlistId :
  one_request (λ url, SpotifyPlaylists.get url token)
    (SpotifyPlaylists.playlistsPage spotify_listings token) ∧
  one_request (λ url, SpotifyPlaylists.get url token)
    (SpotifyPlaylists.tracksPage spotify_contents token) ∧
  one_request (λ url, KKBoxPlaylists.get url token)
    (KKBoxPlaylists.playlistsPage kkbox_listings token) ∧
  one_request (λ url, KKBoxPlaylists.get url token)
    (KKBoxPlaylists.tracksPage kkbox_contents token) ∧
  (∀ pageToken n r n',
     YouTubeMusicPlaylists.tracksPage youtube_contents youtube_details token playlistId
       pageToken n = (r, n') →
     let entries :=
       YouTubeMusicPlaylists.get
         ("https://www.googleapis.com/youtube/v3/playlistItems?part=snippet&playlistId="
          +:+ playlistId +:+ "&maxResults=50" +:+ YouTubeMusicPlaylists.page pageToken)
         token in
     match youtube_contents entries (Http.platform n) with
     | (Ok response, _) =>
         match Http.parsed response ≫= YouTubeMusicPlaylists.videoIdsOf with
         | Ok videoIds =>
             Http.sent n' = Http.sent n ++
               [entries;
                YouTubeMusicPlaylists.get
                  ("https://www.googleapis.com/youtube/v3/videos?part=contentDetails,snippet&id="
                   +:+ String.concat "," videoIds) token]
         | Threw _ => Http.sent n' = Http.sent n ++ [entries]
         end
     | (Threw _, _) => Http.sent n' = Http.sent n ++ [entries]
     end) ∧
  (∀ data videoIds,
     YouTubeMusicPlaylists.videoIdsOf (Some data) = Ok videoIds →
     ∃ items,
       YouTubeMusicPlaylists.entries data = Some items ∧
       Forall2 (λ item id, ∃ entry about resource,
                  item = Some entry ∧
                  YouTubeMusicPlaylists.entry_snippet entry = Some about ∧
                  YouTubeMusicPlaylists.resourceId about = Some resource ∧
                  YouTubeMusicPlaylists.videoId resource = id) items videoIds).
Proof.
  split_and!.
  - apply spotify_listing_request.
  - apply spotify_contents_request.
  - apply kkbox_listing_request.
  - apply kkbox_contents_request.
  - apply youtube_contents_requests.
  - apply youtube_videoIds.
Qed.


(** X22. The tracks that [getPlaylistTracks] of the YouTube Music adapter
    resolves to have no ISRC and no album, and a duration that is not
    negative. So the Spotify adapter searches for each of them by name and
    artist only: its [searchTrack] is the text search. *)
Theorem youtube_tracks_by_text fuel token playlistId n tracks n' :
  YouTubeMusicPlaylists.getPlaylistTracks youtube_contents youtube_details fuel token
    playlistId n = Some (Ok tracks, n') →
  Forall (λ t, Track.isrc t = None ∧ Track.album t = "" ∧ 0 ≤ Track.durationMs t) tracks ∧
  ∀ t spotifyToken m,
    t ∈ tracks →
    SpotifyProvider.searchTrack spotify spotifyToken t m
    = SpotifyProvider.searchByText spotify spotifyToken t m.
Proof.
  intros Hplain%youtube_tracks_plain. split; [done|].
  intros t spotifyToken m Ht. rewrite Forall_forall in Hplain.
  destruct (Hplain t Ht) as (Hisrc & _).
  unfold SpotifyProvider.searchTrack. by rewrite Hisrc.
Qed.

End library_extras.

(** *** On the platforms that serve pages *)

Lemma listings_are_bare_witness :
  ∃ playlists n',
    SpotifyPlaylists.getPlaylists one_page 3 "token" Scenario.start = Some (Ok playlists, n') ∧
    Playlist.id <$> playlists = ["p0"; "p1"] ∧
    Playlist.description <$> playlists = [Some ""; Some "For the car"] ∧
    bare playlists.
Proof.
  eassert (SpotifyPlaylists.getPlaylists one_page 3 "token" Scenario.start = Some (Ok _, _)) as H
    by (vm_compute; reflexivity).
  eexists _, _. split; [exact H|]. split; [reflexivity|]. split; [reflexivity|].
  exact (proj1 (proj1 (listings_are_bare one_page
                         (TwoPages.denied (B := option YouTubeMusicPlaylists.Listing)) "TW"
                         (TwoPages.denied (B := option KKBoxPlaylists.Listing))
                         Scenario.developerToken
                         (TwoPages.denied (B := option AppleMusicPlaylists.Listing))))
           _ _ _ _ _ H).
Defined.

Lemma tracks_page_by_page_witness :
  ∃ tracks n',
    SpotifyPlaylists.getPlaylistTracks TwoPages.contents 2 "token" "p1" Scenario.start
      = Some (Ok tracks, n') ∧
    Track.id <$> tracks = ["a"; "b"; "c"] ∧
    Http.url <$> Http.sent n' = [TwoPages.first; TwoPages.second] ∧
    ∃ pages,
      Passes (SpotifyPlaylists.tracksPage TwoPages.contents "token") TwoPages.first
        Scenario.start pages n' ∧
      tracks = pushed_by pages ∧ (length pages ≤ 2)%nat.
Proof.
  eassert (SpotifyPlaylists.getPlaylistTracks TwoPages.contents 2 "token" "p1" Scenario.start
           = Some (Ok _, _)) as H by (vm_compute; reflexivity).
  eexists _, _. split; [exact H|]. split; [reflexivity|]. split; [reflexivity|].
  exact (proj1 (proj1 (tracks_page_by_page TwoPages.contents
                         (TwoPages.denied (B := option YouTubeMusicPlaylists.Contents))
                         (TwoPages.denied (B := option YouTubeMusicPlaylists.Videos)) "TW"
                         (TwoPages.denied (B := option KKBoxPlaylists.Contents))
                         Scenario.developerToken
                         (TwoPages.denied (B := option AppleMusicPlaylists.Contents))
                         "token" "p1"))
           _ _ _ _ H).
Defined.

Lemma requests_of_a_pass_witness :
  (∃ r n',
     YouTubeMusicPlaylists.tracksPage TwoPages.entries TwoPages.details "token" "p1" ""
       Scenario.start = (r, n') ∧
     Http.url <$> Http.sent n' =
       ["https://www.googleapis.com/youtube/v3/playlistItems?part=snippet&playlistId=p1&maxResults=50";
        "https://www.googleapis.com/youtube/v3/videos?part=contentDetails,snippet&id=v1,v2"]) ∧
  (∃ n',
     YouTubeMusicPlaylists.tracksPage TwoPages.broken TwoPages.details "token" "p1" ""
       Scenario.start
     = (Threw (TypeError "Cannot read properties of undefined (reading 'resourceId')"), n') ∧
     Http.url <$> Http.sent n' =
       ["https://www.googleapis.com/youtube/v3/playlistItems?part=snippet&playlistId=p1&maxResults=50"]).
Proof.
  split.
  - eassert (YouTubeMusicPlaylists.tracksPage TwoPages.entries TwoPages.details "token" "p1" ""
               Scenario.start = (_, _)) as H by (vm_compute; reflexivity).
    eexists _, _. split; [exact H|].
    pose proof (proj1 (proj2 (proj2 (proj2 (proj2
                  (requests_of_a_pass
                     (TwoPages.denied (B := option SpotifyPlaylists.Listing))
                     (TwoPages.denied (B := option SpotifyPlaylists.Contents))
                     TwoPages.entries TwoPages.details
                     (TwoPages.denied (B := option KKBoxPlaylists.Listing))
                     (TwoPages.denied (B := option KKBoxPlaylists.Contents))
                     "token" "p1"))))) "" _ _ _ H) as Hsent.
    cbv zeta in Hsent. vm_compute in Hsent. exact (f_equal (fmap Http.url) Hsent).
  - eassert (YouTubeMusicPlaylists.tracksPage TwoPages.broken TwoPages.details "token" "p1" ""
               Scenario.start = (Threw _, _)) as H by (vm_compute; reflexivity).
    eexists. split; [exact H|].
    pose proof (proj1 (proj2 (proj2 (proj2 (proj2
                  (requests_of_a_pass
                     (TwoPages.denied (B := option SpotifyPlaylists.Listing))
                     (TwoPages.denied (B := option SpotifyPlaylists.Contents))
                     TwoPages.broken TwoPages.details
                     (TwoPages.denied (B := option KKBoxPlaylists.Listing))
                     (TwoPages.denied (B := option KKBoxPlaylists.Contents))
                     "token" "p1"))))) "" _ _ _ H) as Hsent.
    cbv zeta in Hsent. vm_compute in Hsent. exact (f_equal (fmap Http.url) Hsent).
Defined.


Lemma youtube_tracks_by_text_witness :
  ∃ tracks n',
    YouTubeMusicPlaylists.getPlaylistTracks TwoPages.entries TwoPages.details 1 "token" "p1"
      Scenario.start = Some (Ok tracks, n') ∧
    tracks = [Track.mk "v1" "Song - Live" "Band" "" 205000 None;
              Track.mk "v2" "Untitled" "" "" 0 None] ∧
    Forall (λ t, Track.isrc t = None ∧ Track.album t = "" ∧ 0 ≤ Track.durationMs t) tracks.
Proof.
  eassert (YouTubeMusicPlaylists.getPlaylistTracks TwoPages.entries TwoPages.details 1 "token"
             "p1" Scenario.start = Some (Ok _, _)) as H by (vm_compute; reflexivity).
  eexists _, _. split; [exact H|]. split; [reflexivity|].
  exact (proj1 (youtube_tracks_by_text Scenario.spotify TwoPages.entries TwoPages.details
                  _ _ _ _ _ _ H)).
Defined.


(** ** The stream of the transfer route *)

Lemma progress_of_app (evs evs' : list Event) :
  Engine.progress_of (evs ++ evs') = Engine.progress_of evs ++ Engine.progress_of evs'.
Proof. unfold Engine.progress_of. apply omap_app. Qed.

Section streamed.
Context {W : Type}.
Variables sourceProvider targetProvider : MusicProvider.t W.
Variables sourceToken targetToken playlistId : string.

Local Abbreviation Beside := (@Engine.State (W * list Chunk)).
Local Abbreviation State := (@Engine.State W).
Local Abbreviation onto :=
  (Some (λ progress, Routes.enqueue (W := W) (ProgressChunk progress))).

Lemma streams_ret {A} (a : A) : streams (W := W) (mret a) (mret a).
Proof. done. Qed.

Lemma streams_throw {A} e : streams (W := W) (A := A) (throw e) (throw e).
Proof. done. Qed.

Lemma streams_bind {A B} (m' : M Beside A) (m : M State A) (k' : A → M Beside B)
    (k : A → M State B) :
  streams m' m → (∀ a, streams (k' a) (k a)) → streams (m' ≫= k') (m ≫= k).
Proof.
  intros Hm Hk st Hst. unfold mbind, M_bind.
  destruct (Hm st Hst) as [-> Hs]. destruct (m' st) as [[a|e] s1]; simpl in *; [|done].
  by apply Hk.
Qed.

Lemma streams_notify p : streams (Engine.notify onto p) (Engine.notify (Some idle) p).
Proof.
  intros st Hst. unfold Engine.notify, mbind, M_bind, Engine.emit, Engine.on_world,
    Routes.enqueue, idle, in_step in *. simpl.
  split; [done|]. rewrite progress_of_app, fmap_app. by f_equal.
Qed.

Lemma streams_invoke {A} side call (answer : A → Answer) (m : M W A) :
  streams (Engine.invoke side call answer (Routes.aside m))
    (Engine.invoke side call answer m).
Proof.
  intros st Hst. unfold Engine.invoke, Routes.aside, in_step, beside in *. simpl.
  destruct (m _) as [r w']. simpl. split; [done|].
  by rewrite progress_of_app, app_nil_r.
Qed.

Lemma streams_field {A} i (f : Playlist.t → A) :
  streams (W := W) (Engine.field i f) (Engine.field i f).
Proof. done. Qed.

Lemma streams_assign i f : streams (W := W) (Engine.assign i f) (Engine.assign i f).
Proof. done. Qed.

Lemma streams_hold ps : streams (W := W) (Engine.hold ps) (Engine.hold ps).
Proof. done. Qed.

Lemma streams_matchTracks total rest :
  ∀ i matched unmatched,
    streams
      (Engine.matchTracks (Routes.streaming targetProvider) targetToken onto total i rest
         matched unmatched)
      (Engine.matchTracks targetProvider targetToken (Some idle) total i rest matched
         unmatched).
Proof.
  induction rest as [|track rest IH]; intros i matched unmatched; simpl.
  - apply streams_ret.
  - apply streams_bind; [apply streams_notify|intros _].
    apply streams_bind; [apply streams_invoke|intros [found|]]; apply IH.
Qed.

Local Ltac walk :=
  repeat first
    [ apply streams_ret
    | apply streams_bind;
      [first [apply streams_notify|apply streams_invoke|apply streams_field
             |apply streams_assign|apply streams_matchTracks]
      |intros ?] ].

Lemma streams_transferPlaylist :
  streams
    (Engine.transferPlaylist (Routes.streaming sourceProvider)
       (Routes.streaming targetProvider) sourceToken targetToken playlistId onto)
    (Engine.transferPlaylist sourceProvider targetProvider sourceToken targetToken playlistId
       (Some idle)).
Proof.
  unfold Engine.transferPlaylist.
  apply streams_bind; [apply streams_notify|intros _].
  apply streams_bind; [apply streams_invoke|intros listing].
  apply streams_bind; [apply streams_hold|intros _].
  destruct (list_find _ listing) as [[i p]|]; [|apply streams_throw].
  walk.
  match goal with x : (list Track.t * list Track.t)%type |- _ => destruct x end.
  walk.
Qed.

(** What [start] puts on the stream, read off the run of the engine with a
    callback that does nothing. *)
Lemma start_run (w : W) r st' :
  Engine.transferPlaylist sourceProvider targetProvider sourceToken targetToken playlistId
    (Some idle) (Engine.init w) = (r, st') →
  Routes.start sourceProvider targetProvider sourceToken targetToken playlistId w =
    ((ProgressChunk <$> Engine.progress_of (Engine.trace st')) ++ [closing r],
     Engine.world st').
Proof.
  intros Hrun. unfold Routes.start.
  destruct (streams_transferPlaylist (Engine.init (w, []))) as [Heq Hstep]; [done|].
  change (beside (Engine.init (w, []))) with (Engine.init w) in Heq.
  rewrite Hrun in Heq.
  destruct (Engine.transferPlaylist (Routes.streaming sourceProvider) _ _ _ _ _ _)
    as [r' s'].
  simpl in *. injection Heq as <- ->.
  unfold in_step in Hstep. destruct s' as [[w' chunks] ps evs]. simpl in *. subst chunks.
  by destruct r.
Qed.

(** The progress events of a run with a callback begin with the one of
    step 1, however the run ends. *)
Lemma progress_begins callback (w : W) r st' :
  Engine.transferPlaylist sourceProvider targetProvider sourceToken targetToken playlistId
    (Some callback) (Engine.init w) = (r, st') →
  head (Engine.progress_of (Engine.trace st')) = Some Engine.fetchingEvent.
Proof.
  destruct r as [r|e].
  - intros (listing & i & p & tid & results & counts & _ & _ & _ & Ht)%transfer_Ok.
    simpl in Ht. by rewrite Ht.
  - intros [(listing & _ & _ & Ht)|
            (listing & p & tid & results & counts & before & stop & next & after & Hrun & Ht
             & Hs & _)
           ]%transfer_Threw; simpl in Ht; rewrite Ht; [done|].
    unfold Engine.runEvents in Hrun. simpl in Hrun.
    destruct before as [|ev before]; simpl in *.
    + injection Hrun as <- _. by inversion Hs.
    + by injection Hrun as <- _.
Qed.

(** The progress events of a run that returns. *)
Lemma progress_returned callback (w : W) r st' :
  Engine.transferPlaylist sourceProvider targetProvider sourceToken targetToken playlistId
    (Some callback) (Engine.init w) = (Ok r, st') →
  len (Engine.progress_of (Engine.trace st')) = TransferResult.totalTracks r + 5 ∧
  ∃ p, last (Engine.progress_of (Engine.trace st')) = Some p ∧
       TransferProgress.phase p = complete ∧
       TransferProgress.current p = len (TransferResult.matched r) ∧
       TransferProgress.total p = TransferResult.totalTracks r.
Proof.
  intros (listing & i & p & tid & results & counts & _ & -> & _ & Ht)%transfer_Ok.
  simpl in Ht. rewrite Ht. clear Ht. unfold Engine.runEvents.
  rewrite !progress_of_app. simpl.
  rewrite (progress_of_matchingEvents targetToken callback _ results 0).
  split.
  - unfold len. simpl. rewrite length_app, length_imap. simpl. lia.
  - eexists. split.
    + rewrite app_comm_cons, cons_middle, app_assoc. apply last_snoc.
    + done.
Qed.
End streamed.

(** ** The registry and the routes *)

Lemma bearer_prefix token : String.prefix "Bearer " ("Bearer " +:+ token) = true.
Proof. rewrite !append_cons, append_nil_l. destruct token; reflexivity. Qed.

Lemma bearer_token token :
  String.substring 7 (String.length ("Bearer " +:+ token) - 7) ("Bearer " +:+ token) = token.
Proof.
  rewrite length_append, !append_cons, append_nil_l. simpl.
  rewrite Nat.sub_0_r. apply substring_all.
Qed.

Lemma strip_trailing_append a b :
  strip_trailing (a +:+ b)
  = match strip_trailing b with
    | "" => strip_trailing a
    | rest => a +:+ rest
    end.
Proof.
  induction a as [|c a IH].
  - rewrite append_nil_l. by destruct (strip_trailing b).
  - rewrite append_cons. simpl. rewrite IH.
    destruct (strip_trailing b) as [|d rest]; [done|].
    rewrite append_cons. by destruct a.
Qed.

(** What the route gets of the header that the adapters build for a token:
    the token has lost the white space at its end, and the space after
    [Bearer] too when nothing is left of the token. *)
Lemma normalize_bearer token :
  normalize ("Bearer " +:+ token)
  = match strip_trailing token with
    | "" => "Bearer"
    | rest => "Bearer " +:+ rest
    end.
Proof.
  unfold normalize.
  assert (strip_leading ("Bearer " +:+ token) = "Bearer " +:+ token) as -> by reflexivity.
  rewrite strip_trailing_append. by destruct (strip_trailing token).
Qed.

Section routes.
Context {W : Type}.
Variables spotify youtube apple kkbox : MusicProvider.t W.

Local Abbreviation getProvider := (Routes.getProvider spotify youtube apple kkbox).
Local Abbreviation getProviderList := (Routes.getProviderList spotify youtube apple kkbox).
Local Abbreviation transfer := (Routes.transfer spotify youtube apple kkbox).
Local Abbreviation playlists := (Routes.playlists spotify youtube apple kkbox).

Lemma getProvider_Some name provider :
  getProvider name = Some provider ↔
  (name, provider) ∈ Routes.providers spotify youtube apple kkbox.
Proof.
  split.
  - unfold Routes.getProvider.
    destruct (list_find _ _) as [[i entry]|] eqn:Hf; [|done]. intros [= <-].
    apply list_find_Some in Hf as (Hl & Heq & _). apply list_elem_of_lookup_2 in Hl.
    simpl in Heq. subst name. by destruct entry.
  - unfold Routes.providers. rewrite !elem_of_cons, elem_of_nil.
    intros [[= -> ->]|[[= -> ->]|[[= -> ->]|[[= -> ->]|[]]]]]; reflexivity.
Qed.

Lemma getProvider_ids name : is_Some (getProvider name) ↔ name ∈ ids.
Proof.
  unfold ids. rewrite !elem_of_cons, elem_of_nil. split.
  - intros [provider Hp%getProvider_Some]. unfold Routes.providers in Hp.
    rewrite !elem_of_cons, elem_of_nil in Hp.
    destruct Hp as [[= -> _]|[[= -> _]|[[= -> _]|[[= -> _]|[]]]]]; tauto.
  - intros [->|[->|[->|[->|[]]]]]; eexists; reflexivity.
Qed.

Lemma truthy_Some (s : option string) : truthy s = true ↔ ∃ x, s = Some x ∧ x ≠ "".
Proof.
  destruct s as [x|]; simpl; [|by split; [|intros (? & ? & _)]].
  destruct (String.eqb_spec x ""); simpl; split; try done.
  - intros (? & [= <-] & ?). done.
  - eauto.
Qed.

(** X24. The stream of a transfer is the run of the engine: for a request
    that passes the checks, the route answers with an event stream that
    carries the progress events of the run of [transferPlaylist] on the
    two adapters, in order, and after them one last chunk: the result of
    the run, or the message of the error the run rejected with. The
    adapters are left as the run of the engine leaves them. *)
Theorem transfer_stream sourceName targetName sourceToken targetToken playlistId
    sourceProvider targetProvider (w : W) r st' :
  getProvider sourceName = Some sourceProvider →
  getProvider targetName = Some targetProvider →
  sourceToken ≠ "" → targetToken ≠ "" → playlistId ≠ "" →
  Engine.transferPlaylist sourceProvider targetProvider sourceToken targetToken playlistId
    (Some idle) (Engine.init w) = (r, st') →
  transfer (Some (TransferRequest.mk (Some sourceName) (Some targetName) (Some sourceToken)
                    (Some targetToken) (Some playlistId))) w =
    (EventStream ((ProgressChunk <$> Engine.progress_of (Engine.trace st')) ++ [closing r]),
     Engine.world st').
Proof.
  intros Hs Ht Hst Htt Hp Hrun. unfold Routes.transfer. simpl.
  assert (sourceName ≠ "") as Hsn by (by intros ->).
  assert (targetName ≠ "") as Htn by (by intros ->).
  rewrite <- String.eqb_neq in Hsn, Htn, Hst, Htt, Hp.
  rewrite Hsn, Htn, Hst, Htt, Hp, Hs, Ht. simpl.
  by rewrite (start_run _ _ _ _ _ _ _ _ Hrun).
Qed.

(** X25. The transfer route starts a transfer for a complete request only:
    the answer is an event stream exactly when the body names two ids of
    the registry and has non-empty tokens and a non-empty playlist id.
    Every other request is answered with an error and status 400 (500 when
    the body cannot be read), and no adapter is touched for it. *)
Theorem transfer_validation body (w : W) :
  match transfer body w with
  | (EventStream _, _) => complete_request body
  | (Json status answer, w') =>
      ¬ complete_request body ∧ w' = w ∧ (∃ error, answer = Failure error) ∧
      status = (if body is None then 500 else 400)
  end.
Proof.
  unfold Routes.transfer. destruct body as [[sn tn st tt pid]|]; simpl.
  2: { split_and!; [|done|by eexists|done]. by intros (? & ? & ? & ? & ? & ? & _). }
  destruct (truthy sn) eqn:Hsn; simpl.
  2: { split_and!; [|done|by eexists|done].
       intros (? & ? & ? & ? & ? & [= -> -> -> -> ->] & Hs & _).
       apply getProvider_ids in Hs as [? Hs]. simpl in Hsn.
       destruct (String.eqb_spec x ""); [by subst|done]. }
  destruct (truthy tn) eqn:Htn; simpl.
  2: { split_and!; [|done|by eexists|done].
       intros (? & ? & ? & ? & ? & [= -> -> -> -> ->] & _ & Hs & _).
       apply getProvider_ids in Hs as [? Hs]. simpl in Htn.
       destruct (String.eqb_spec x0 ""); [by subst|done]. }
  destruct (truthy st) eqn:Hst; simpl.
  2: { split_and!; [|done|by eexists|done].
       intros (? & ? & ? & ? & ? & [= -> -> -> -> ->] & _ & _ & Hs & _).
       simpl in Hst. by destruct (String.eqb_spec x1 ""). }
  destruct (truthy tt) eqn:Htt; simpl.
  2: { split_and!; [|done|by eexists|done].
       intros (? & ? & ? & ? & ? & [= -> -> -> -> ->] & _ & _ & _ & Hs & _).
       simpl in Htt. by destruct (String.eqb_spec x2 ""). }
  destruct (truthy pid) eqn:Hpid; simpl.
  2: { split_and!; [|done|by eexists|done].
       intros (? & ? & ? & ? & ? & [= -> -> -> -> ->] & _ & _ & _ & _ & Hs).
       simpl in Hpid. by destruct (String.eqb_spec x3 ""). }
  apply truthy_Some in Hsn as (sourceName & -> & Hsn), Htn as (targetName & -> & Htn),
    Hst as (sourceToken & -> & Hst), Htt as (targetToken & -> & Htt),
    Hpid as (playlistId & -> & Hpid). simpl.
  destruct (getProvider sourceName) as [sourceProvider|] eqn:Hs.
  2: { split_and!; [|done|by eexists|done].
       intros (? & ? & ? & ? & ? & [= <- <- <- <- <-] & Hin & _).
       apply getProvider_ids in Hin as [? Hin]. congruence. }
  destruct (getProvider targetName) as [targetProvider|] eqn:Ht.
  2: { split_and!; [|done|by eexists|done].
       intros (? & ? & ? & ? & ? & [= <- <- <- <- <-] & _ & Hin & _).
       apply getProvider_ids in Hin as [? Hin]. congruence. }
  destruct (Routes.start _ _ _ _ _ _) as [chunks w'].
  exists sourceName, targetName, sourceToken, targetToken, playlistId.
  split_and!; try done; apply getProvider_ids; by eexists.
Qed.

(** X26. The list of providers and the lookup agree: the providers route
    answers with a list that names an id with a display name exactly when
    [getProvider] finds a provider for this id and this is its name; it
    lists the four ids of the registry, each once, in the order of the
    registry. So every id a client is offered passes the provider check of
    the other two routes, and no other id does. *)
Theorem listed_providers :
  ∃ listing,
    Routes.providersRoute spotify youtube apple kkbox = Json 200 (Providers listing) ∧
    (∀ id name,
       (id, name) ∈ listing ↔
       ∃ provider, getProvider id = Some provider ∧ MusicProvider.name provider = name) ∧
    listing.*1 = ids ∧ NoDup ids.
Proof.
  exists getProviderList. split_and!; [done| |done|].
  - intros id name. unfold Routes.getProviderList, Routes.getProvider, Routes.providers.
    simpl. rewrite !elem_of_cons, elem_of_nil. split.
    + intros [[= -> ->]|[[= -> ->]|[[= -> ->]|[[= -> ->]|[]]]]]; by eexists.
    + intros (provider & Hp%getProvider_Some & <-). unfold Routes.providers in Hp.
      rewrite !elem_of_cons, elem_of_nil in Hp.
      destruct Hp as [[= -> ->]|[[= -> ->]|[[= -> ->]|[[= -> ->]|[]]]]]; tauto.
  - apply (bool_decide_unpack _). by vm_compute.
Qed.

(** X27. The playlists route reads the token off the bearer header. For a
    provider of the registry and the authorization header that the
    adapters build for a token, [Bearer <token>], the route gets the
    header without the white space at its end: it calls [getPlaylists] of
    this provider with the token less the white space at its end, so with
    exactly the token when the token does not end in white space, and
    answers 200 with the listing the call resolves to; when the call
    rejects the answer is 500 with a fixed text, in which the error of the
    adapter does not appear. For a token that is empty or all white space
    the header arrives as [Bearer] and is answered 401 without a call of
    an adapter, as is every header that does not start with [Bearer ]
    once the white space around it is taken off, and a missing one. An id
    that is not in the registry is answered 404, without a call either. *)
Theorem playlists_token id provider (w : W) :
  getProvider id = Some provider →
  (∀ token,
     playlists id (Some (Http.bearer token).2) w =
       match strip_trailing token with
       | "" => (Json 401 (Failure "Bearer token required"), w)
       | sent =>
           match MusicProvider.getPlaylists provider sent w with
           | (Ok listing, w') => (Json 200 (Listing listing), w')
           | (Threw _, w') => (Json 500 (Failure "Failed to fetch playlists"), w')
           end
       end) ∧
  (∀ token,
     token ≠ "" → strip_trailing token = token →
     playlists id (Some (Http.bearer token).2) w =
       match MusicProvider.getPlaylists provider token w with
       | (Ok listing, w') => (Json 200 (Listing listing), w')
       | (Threw _, w') => (Json 500 (Failure "Failed to fetch playlists"), w')
       end) ∧
  (∀ header,
     (if header is Some header then String.prefix "Bearer " (normalize header) = false
      else True) →
     playlists id header w = (Json 401 (Failure "Bearer token required"), w)) ∧
  (∀ other header,
     other ∉ ids → playlists other header w = (Json 404 (Failure "Provider not found"), w)).
Proof.
  intros Hp.
  assert (∀ token,
            playlists id (Some (Http.bearer token).2) w =
              match strip_trailing token with
              | "" => (Json 401 (Failure "Bearer token required"), w)
              | sent =>
                  match MusicProvider.getPlaylists provider sent w with
                  | (Ok listing, w') => (Json 200 (Listing listing), w')
                  | (Threw _, w') => (Json 500 (Failure "Failed to fetch playlists"), w')
                  end
              end) as Hbearer.
  { intros token. unfold Routes.playlists, Http.bearer. cbn [snd fmap option_fmap option_map].
    rewrite Hp, normalize_bearer.
    destruct (strip_trailing token) as [|c rest]; [done|].
    by rewrite bearer_prefix, bearer_token. }
  split_and!.
  - exact Hbearer.
  - intros token Hne Hclean. rewrite Hbearer, Hclean. by destruct token.
  - intros [header|] Hh; unfold Routes.playlists; rewrite Hp; [|done]. simpl.
    by rewrite Hh.
  - intros other header Hother. unfold Routes.playlists.
    destruct (getProvider other) eqn:Ho; [|done].
    exfalso. apply Hother, getProvider_ids. by eexists.
Qed.

(** X28. What a client reads from the stream of a transfer: progress
    chunks, the first of them for the phase [fetching], and then exactly
    one chunk that is not a progress chunk, with which the stream ends.
    When this is the result of the transfer, there were five progress
    chunks and one more per source track, and the last of them has the
    phase [complete], the number of matched tracks as [current] and the
    number of source tracks as [total]. *)
Theorem stream_shape sourceProvider targetProvider sourceToken targetToken playlistId
    (w : W) :
  ∃ progress last_chunk,
    (Routes.start sourceProvider targetProvider sourceToken targetToken playlistId w).1 =
      (ProgressChunk <$> progress) ++ [last_chunk] ∧
    head progress = Some Engine.fetchingEvent ∧
    match last_chunk with
    | ProgressChunk _ => False
    | ErrorChunk _ => True
    | CompleteChunk result =>
        len progress = TransferResult.totalTracks result + 5 ∧
        ∃ p, last progress = Some p ∧
             TransferProgress.phase p = complete ∧
             TransferProgress.current p = len (TransferResult.matched result) ∧
             TransferProgress.total p = TransferResult.totalTracks result
    end.
Proof.
  destruct (Engine.transferPlaylist sourceProvider targetProvider sourceToken targetToken
              playlistId (Some idle) (Engine.init w)) as [r st'] eqn:Hrun.
  rewrite (start_run _ _ _ _ _ _ _ _ Hrun). simpl.
  exists (Engine.progress_of (Engine.trace st')), (closing r).
  split_and!; [done|by eapply progress_begins|].
  destruct r as [result|e]; simpl; [|done].
  by eapply progress_returned.
Qed.
End routes.

(** ** The routes, served *)

Lemma transfer_stream_witness :
  ∃ r st',
    Engine.transferPlaylist Scenario.source Scenario.target "source-token" "target-token" "p1"
      (Some idle) (Engine.init 0%nat) = (Ok r, st') ∧
    Served.post (Some Served.body) =
      (EventStream ((ProgressChunk <$> Engine.progress_of (Engine.trace st'))
                    ++ [CompleteChunk r]), 1%nat).
Proof.
  eassert (Engine.transferPlaylist Scenario.source Scenario.target "source-token"
             "target-token" "p1" (Some idle) (Engine.init 0%nat) = (Ok _, _)) as H
    by (vm_compute; reflexivity).
  eexists _, _. split; [exact H|].
  exact (transfer_stream Scenario.source Scenario.source Scenario.source Scenario.target
           "spotify" "kkbox" "source-token" "target-token" "p1" _ _ 0%nat _ _
           eq_refl eq_refl ltac:(discriminate) ltac:(discriminate) ltac:(discriminate) H).
Defined.

Lemma playlists_token_witness :
  Routes.getProvider Served.failing Scenario.source Scenario.source Scenario.target "spotify"
    = Some Served.failing ∧
  Routes.playlists Served.failing Scenario.source Scenario.source Scenario.target "spotify"
    (Some "Bearer source-token") 0%nat
    = (Json 500 (Failure "Failed to fetch playlists"), 0%nat) ∧
  Routes.playlists Served.failing Scenario.source Scenario.source Scenario.target "kkbox"
    (Some "Bearer target-token") 0%nat
    = (Json 200 (Listing []), 0%nat) ∧
  Routes.playlists Served.failing Scenario.source Scenario.source Scenario.target "kkbox"
    (Some "Bearer ") 0%nat
    = (Json 401 (Failure "Bearer token required"), 0%nat).
Proof.
  split; [reflexivity|]. split_and!.
  - exact (proj1 (proj2 (playlists_token Served.failing Scenario.source Scenario.source
                           Scenario.target "spotify" Served.failing 0%nat eq_refl))
             "source-token" ltac:(discriminate) eq_refl).
  - exact (proj1 (proj2 (playlists_token Served.failing Scenario.source Scenario.source
                           Scenario.target "kkbox" Scenario.target 0%nat eq_refl))
             "target-token" ltac:(discriminate) eq_refl).
  - exact (proj1 (playlists_token Served.failing Scenario.source Scenario.source
                    Scenario.target "kkbox" Scenario.target 0%nat eq_refl) "").
Defined.
